(** * discord-ext-subcommands: the subcommand registry manager

    A shallow embedding of [discord/ext/subcommands/core.py]
    ([_Subcommand], [subcommand], [MultiFilesSubcommandsManager]) together
    with the pieces of its environment the manager calls into: Python's
    insertion-ordered [dict], [difflib.get_close_matches], [repr] on
    strings, and the command objects and registries of the host bot. *)

From Stdlib Require Import String Ascii List Arith Lia Bool.
From stdpp Require Import base option gmap strings list fin_maps.

Open Scope string_scope.
Open Scope list_scope.
Open Scope nat_scope.

(** ** Python dictionaries

    [dict] keeps its keys in insertion order; assigning to an existing key
    keeps the key's position.  Iteration order decides which unresolved
    entry [raise_for_remaining_commands] reports, so the order is kept. *)

Module Dict.
Section Dict.
Context {V : Type}.

Definition t := list (string * V).

Definition empty : t := [].

Fixpoint get (k : string) (d : t) : option V :=
  match d with
  | [] => None
  | (k', v) :: r => if String.eqb k k' then Some v else get k r
  end.

(** [d[k] = v] *)
Fixpoint set (k : string) (v : V) (d : t) : t :=
  match d with
  | [] => [(k, v)]
  | (k', v') :: r =>
      if String.eqb k k' then (k, v) :: r else (k', v') :: set k v r
  end.

(** [d.pop(k, None)], result dropped: no error when [k] is absent. *)
Fixpoint remove (k : string) (d : t) : t :=
  match d with
  | [] => []
  | (k', v') :: r =>
      if String.eqb k k' then remove k r else (k', v') :: remove k r
  end.

Definition mem (k : string) (d : t) : bool :=
  match get k d with Some _ => true | None => false end.

Definition keys (d : t) : list string := map fst d.
Definition values (d : t) : list V := map snd d.
End Dict.
Arguments t : clear implicits.
End Dict.

(** ** [difflib]

    Strings are compared as sequences of characters.  The model follows
    [SequenceMatcher] with [isjunk=None] and [autojunk=True], which is
    how [get_close_matches] builds it. *)

Module Difflib.

Definition seq := list ascii.

Definition at_ (s : seq) (i : nat) : ascii := nth i s zero.

(** [b2j[x]] before purging: ascending indices at which [x] occurs. *)
Fixpoint indices_from (x : ascii) (b : seq) (i : nat) : list nat :=
  match b with
  | [] => []
  | y :: r =>
      if Ascii.eqb x y then i :: indices_from x r (S i)
      else indices_from x r (S i)
  end.

(** [__chain_b]: with no junk function only the popular elements are
    purged, and only when [len(b) >= 200]. *)
Definition b2j_get (b : seq) (x : ascii) : list nat :=
  let idxs := indices_from x b 0 in
  let n := length b in
  if (200 <=? n) && (n / 100 + 1 <? length idxs) then [] else idxs.

Definition j2len := list (nat * nat).

Fixpoint j2len_get (j : nat) (m : j2len) : nat :=
  match m with
  | [] => 0
  | (j', k) :: r => if Nat.eqb j j' then k else j2len_get j r
  end.

(** [j2lenget(j-1, 0)]: the key [-1] is never present. *)
Definition j2len_pred (j : nat) (m : j2len) : nat :=
  match j with 0 => 0 | S p => j2len_get p m end.

Record best := Best { besti : nat; bestj : nat; bestsize : nat }.

(** The inner [for j in b2j.get(a[i], nothing)] loop. *)
Fixpoint inner_loop (i blo bhi : nat) (old : j2len) (js : list nat)
         (new : j2len) (bst : best) : j2len * best :=
  match js with
  | [] => (new, bst)
  | j :: r =>
      if j <? blo then inner_loop i blo bhi old r new bst
      else if bhi <=? j then (new, bst)
      else
        let k := j2len_pred j old + 1 in
        let new' := (j, k) :: new in
        let bst' := if bestsize bst <? k
                    then Best (i + 1 - k) (j + 1 - k) k else bst in
        inner_loop i blo bhi old r new' bst'
  end.

(** The outer [for i in range(alo, ahi)] loop, [n] iterations from [i]. *)
Fixpoint outer_loop (a b : seq) (blo bhi : nat) (n i : nat)
         (old : j2len) (bst : best) : best :=
  match n with
  | 0 => bst
  | S n' =>
      let '(new, bst') :=
        inner_loop i blo bhi old (b2j_get b (at_ a i)) [] bst in
      outer_loop a b blo bhi n' (S i) new bst'
  end.

(** First [while]: extend the block to the left. *)
Fixpoint extend_left (a b : seq) (alo blo : nat) (fuel : nat) (bst : best)
  : best :=
  match fuel with
  | 0 => bst
  | S f =>
      if (alo <? besti bst) && (blo <? bestj bst)
         && Ascii.eqb (at_ a (besti bst - 1)) (at_ b (bestj bst - 1))
      then extend_left a b alo blo f
             (Best (besti bst - 1) (bestj bst - 1) (bestsize bst + 1))
      else bst
  end.

(** Second [while]: extend the block to the right. *)
Fixpoint extend_right (a b : seq) (ahi bhi : nat) (fuel : nat) (bst : best)
  : best :=
  match fuel with
  | 0 => bst
  | S f =>
      if (besti bst + bestsize bst <? ahi)
         && (bestj bst + bestsize bst <? bhi)
         && Ascii.eqb (at_ a (besti bst + bestsize bst))
                      (at_ b (bestj bst + bestsize bst))
      then extend_right a b ahi bhi f
             (Best (besti bst) (bestj bst) (bestsize bst + 1))
      else bst
  end.

(** [find_longest_match].  The two trailing loops of the Python code only
    absorb junk elements; [bjunk] is empty here, so they never run. *)
Definition find_longest_match (a b : seq) (alo ahi blo bhi : nat) : best :=
  let b0 := outer_loop a b blo bhi (ahi - alo) alo [] (Best alo blo 0) in
  let b1 := extend_left a b alo blo (besti b0) b0 in
  extend_right a b ahi bhi ahi b1.

(** The work-list loop of [get_matching_blocks]; the head of [queue] is
    the end of the Python list, where [pop] and [append] operate. *)
Fixpoint blocks_loop (a b : seq) (fuel : nat)
         (queue : list (nat * nat * nat * nat)) (acc : list best)
  : list best :=
  match fuel with
  | 0 => acc
  | S f =>
      match queue with
      | [] => acc
      | (alo, ahi, blo, bhi) :: q =>
          let x := find_longest_match a b alo ahi blo bhi in
          let i := besti x in
          let j := bestj x in
          let k := bestsize x in
          if Nat.eqb k 0 then blocks_loop a b f q acc
          else
            let q1 := if (alo <? i) && (blo <? j)
                      then (alo, i, blo, j) :: q else q in
            let q2 := if (i + k <? ahi) && (j + k <? bhi)
                      then (i + k, ahi, j + k, bhi) :: q1 else q1 in
            blocks_loop a b f q2 (acc ++ [x])
      end
  end.

(** Every block found consumes at least one element of [a] and leaves at
    most two pending ranges, so [2 * len(a) + 1] iterations are enough. *)
Definition get_matching_blocks (a b : seq) : list best :=
  blocks_loop a b (2 * length a + 1) [(0, length a, 0, length b)] [].

(** [sum(triple[-1] for triple in self.get_matching_blocks())]; sorting
    the blocks and merging adjacent ones leaves the sum unchanged. *)
Definition matches (a b : seq) : nat :=
  fold_right (fun x acc => bestsize x + acc) 0 (get_matching_blocks a b).

(** [_calculate_ratio]: the float [2.0 * matches / length], kept as the
    exact fraction [(numerator, denominator)]; [1.0] when both strings
    are empty.  On fractions of integers this small the float order is
    the order of the fractions. *)
Definition ratio (a b : seq) : nat * nat :=
  let len := length a + length b in
  if Nat.eqb len 0 then (1, 1) else (2 * matches a b, len).

Definition ratio_lt (r1 r2 : nat * nat) : bool :=
  fst r1 * snd r2 <? fst r2 * snd r1.
Definition ratio_eq (r1 r2 : nat * nat) : bool :=
  Nat.eqb (fst r1 * snd r2) (fst r2 * snd r1).

(** [x < y] on Python strings: lexicographic on code points. *)
Fixpoint str_lt (x y : seq) : bool :=
  match x, y with
  | _, [] => false
  | [], _ :: _ => true
  | c :: x', d :: y' =>
      if nat_of_ascii c <? nat_of_ascii d then true
      else if nat_of_ascii d <? nat_of_ascii c then false
      else str_lt x' y'
  end.

(** Tuple comparison [(r1, x1) < (r2, x2)]. *)
Definition scored_lt (p1 p2 : (nat * nat) * string) : bool :=
  ratio_lt (fst p1) (fst p2)
  || (ratio_eq (fst p1) (fst p2)
      && str_lt (list_ascii_of_string (snd p1))
                (list_ascii_of_string (snd p2))).

(** [max(it)]: the first maximal element. *)
Fixpoint max_from (cur : (nat * nat) * string)
         (l : list ((nat * nat) * string)) : (nat * nat) * string :=
  match l with
  | [] => cur
  | p :: r => max_from (if scored_lt cur p then p else cur) r
  end.

(** [get_close_matches(word, possibilities, n=1, cutoff=0.0)].  [word]
    is the second sequence of the matcher and each possibility the
    first.  The three ratio tests against the cutoff compare a
    nonnegative number with [0.0] and always pass, so every possibility
    is scored; [heapq.nlargest(1, result)] is [max]. *)
Definition get_close_matches (word : string) (possibilities : list string)
  : list string :=
  let w := list_ascii_of_string word in
  let result :=
    map (fun x => (ratio (list_ascii_of_string x) w, x)) possibilities in
  match result with
  | [] => []
  | p :: r => [snd (max_from p r)]
  end.

End Difflib.

(** ** [repr] of a string

    Strings are byte strings here; bytes below 128 are treated as Python
    treats ASCII characters and the others are copied (the encoding of a
    printable character). *)

Module PyRepr.

Definition squote : ascii := ascii_of_nat 39.
Definition dquote : ascii := ascii_of_nat 34.

Definition hex_digit (n : nat) : ascii :=
  nth n (list_ascii_of_string "0123456789abcdef") "0"%char.

Definition escape_char (quote c : ascii) : string :=
  let n := nat_of_ascii c in
  if Ascii.eqb c quote || Ascii.eqb c "\"%char
  then String "\"%char (String c EmptyString)
  else if Nat.eqb n 9 then "\t"
  else if Nat.eqb n 10 then "\n"
  else if Nat.eqb n 13 then "\r"
  else if (n <? 32) || Nat.eqb n 127
  then String "\"%char
         (String "x"%char
            (String (hex_digit (n / 16))
               (String (hex_digit (n mod 16)) EmptyString)))
  else String c EmptyString.

Fixpoint has_char (c : ascii) (s : string) : bool :=
  match s with
  | EmptyString => false
  | String d r => Ascii.eqb c d || has_char c r
  end.

Fixpoint escape (quote : ascii) (s : string) : string :=
  match s with
  | EmptyString => EmptyString
  | String c r => escape_char quote c ++ escape quote r
  end.

(** Double quotes are chosen only when the string has a single quote and
    no double quote. *)
Definition repr (s : string) : string :=
  let quote :=
    if has_char squote s && negb (has_char dquote s)
    then dquote else squote in
  String quote (escape quote s ++ String quote EmptyString).

End PyRepr.

(** ** Command objects of the host framework

    The three command universes and their groups, as the classes the
    [isinstance] tests of [core.py] distinguish:
    [commands.Command], [commands.Group], [commands.HybridCommand],
    [commands.HybridGroup], [app_commands.Command], [app_commands.Group].
    [Group] and [HybridCommand] derive from [commands.Command], and
    [HybridGroup] from [commands.Group]. *)

Inductive kind :=
| PrefixCommand | PrefixGroup | HybridCommand | HybridGroup
| AppCommand | AppGroup.

Definition kind_eqb (a b : kind) : bool :=
  match a, b with
  | PrefixCommand, PrefixCommand | PrefixGroup, PrefixGroup
  | HybridCommand, HybridCommand | HybridGroup, HybridGroup
  | AppCommand, AppCommand | AppGroup, AppGroup => true
  | _, _ => false
  end.

(** [isinstance(x, app_commands.Command)] *)
Definition is_app_Command (k : kind) : bool :=
  match k with AppCommand => true | _ => false end.
(** [isinstance(x, app_commands.Group)] *)
Definition is_app_Group (k : kind) : bool :=
  match k with AppGroup => true | _ => false end.
(** [isinstance(x, commands.Command)] *)
Definition is_commands_Command (k : kind) : bool :=
  match k with
  | PrefixCommand | PrefixGroup | HybridCommand | HybridGroup => true
  | _ => false
  end.
(** [isinstance(x, commands.Group)] *)
Definition is_commands_Group (k : kind) : bool :=
  match k with PrefixGroup | HybridGroup => true | _ => false end.
(** [isinstance(x, commands.HybridCommand)] *)
Definition is_HybridCommand (k : kind) : bool :=
  match k with HybridCommand => true | _ => false end.
(** [isinstance(x, commands.HybridGroup)] *)
Definition is_HybridGroup (k : kind) : bool :=
  match k with HybridGroup => true | _ => false end.

(** [isinstance(x, (app_commands.Command, app_commands.Group))] *)
Definition is_app (k : kind) : bool := is_app_Command k || is_app_Group k.

(** A command object.  Objects live in a store and are referred to by
    their identity; [cmd_callback] is the identity of the function the
    command wraps, [cmd_children] the group's own name-to-command table,
    [cmd_on_error] the local error handler if one is set. *)
Record command := Command {
  cmd_name : string;
  cmd_kind : kind;
  cmd_callback : nat;
  cmd_parent : option nat;
  cmd_children : Dict.t nat;
  cmd_on_error : option nat
}.

Definition set_parent (p : option nat) (c : command) : command :=
  Command (cmd_name c) (cmd_kind c) (cmd_callback c) p
          (cmd_children c) (cmd_on_error c).
Definition set_children (d : Dict.t nat) (c : command) : command :=
  Command (cmd_name c) (cmd_kind c) (cmd_callback c) (cmd_parent c)
          d (cmd_on_error c).
Definition set_on_error (h : option nat) (c : command) : command :=
  Command (cmd_name c) (cmd_kind c) (cmd_callback c) (cmd_parent c)
          (cmd_children c) h.

(** A plugin: its name and the commands it declares, in the order the
    host enumerates them. *)
Record cog := Cog {
  cog_qualified_name : string;
  cog_commands : list nat;
  cog_app_commands : list nat
}.

(** [_Subcommand]: the object the decorator stores on a callback. *)
Record _Subcommand := Subcommand {
  group_name : string;
  _command : nat;
  _group : option nat
}.

(** [_determine_command_type]: the tests run in the order written, so a
    prefix or hybrid group answers ["command"]. *)
Definition _determine_command_type (k : kind) : string :=
  if is_app_Command k then "app command"
  else if is_commands_Command k then "command"
  else if is_app_Group k || is_commands_Group k then "group"
  else "unknown".

(** [_determine_command_group] *)
Definition _determine_command_group (k : kind) : string :=
  if is_app_Command k then "App command group"
  else if is_commands_Command k then "Command group"
  else if is_app_Group k || is_commands_Group k then "Group"
  else "unknown".

(** ** Exceptions *)

Inductive exn :=
| TypeError_not_a_group (target : string) (command_qualified_name : string)
| TypeError_cannot_add (command_kind group_kind : kind)
| ValueError_already_a_subcommand (command_name parent_qualified_name : string)
| ValueError_group_required
| ValueError_decorated_subcommand
| AttributeError (attribute : string)
| KeyError (key : string)
| RuntimeError (msg : string)
| CommandRegistrationError (name : string)
| ClientException (cog_name : string).

Inductive result (A : Type) :=
| Ok (a : A)
| Raise (e : exn).
Arguments Ok {A} a.
Arguments Raise {A} e.

(** ** The state: the host bot and the manager

    Host side: the object store, the bot's top-level prefix table
    ([bot.all_commands]), the command tree's top-level table
    ([bot.tree]), the loaded cogs.  [subcommand_attr] holds the
    [__subcommand__] attribute of each callback.  Manager side: the two
    registries [self.__commands] ("all known") and [self._not_found]
    ("still unresolved"), both from cog name to command name to
    [_Subcommand] object (named by its callback), and the two options. *)

Record state := State {
  objs : gmap nat command;
  all_commands : Dict.t nat;
  tree : Dict.t nat;
  loaded_cogs : Dict.t cog;
  subcommand_attr : gmap nat _Subcommand;
  __commands : Dict.t (Dict.t nat);
  _not_found : Dict.t (Dict.t nat);
  _copy_group_error_handler : bool;
  _check_group_type : bool
}.

Definition with_objs (f : gmap nat command -> gmap nat command) (s : state) :=
  State (f (objs s)) (all_commands s) (tree s) (loaded_cogs s)
        (subcommand_attr s) (__commands s) (_not_found s)
        (_copy_group_error_handler s) (_check_group_type s).
Definition with_all_commands (f : Dict.t nat -> Dict.t nat) (s : state) :=
  State (objs s) (f (all_commands s)) (tree s) (loaded_cogs s)
        (subcommand_attr s) (__commands s) (_not_found s)
        (_copy_group_error_handler s) (_check_group_type s).
Definition with_tree (f : Dict.t nat -> Dict.t nat) (s : state) :=
  State (objs s) (all_commands s) (f (tree s)) (loaded_cogs s)
        (subcommand_attr s) (__commands s) (_not_found s)
        (_copy_group_error_handler s) (_check_group_type s).
Definition with_loaded_cogs (f : Dict.t cog -> Dict.t cog) (s : state) :=
  State (objs s) (all_commands s) (tree s) (f (loaded_cogs s))
        (subcommand_attr s) (__commands s) (_not_found s)
        (_copy_group_error_handler s) (_check_group_type s).
Definition with_subcommand_attr
  (f : gmap nat _Subcommand -> gmap nat _Subcommand) (s : state) :=
  State (objs s) (all_commands s) (tree s) (loaded_cogs s)
        (f (subcommand_attr s)) (__commands s) (_not_found s)
        (_copy_group_error_handler s) (_check_group_type s).
Definition with_commands
  (f : Dict.t (Dict.t nat) -> Dict.t (Dict.t nat)) (s : state) :=
  State (objs s) (all_commands s) (tree s) (loaded_cogs s)
        (subcommand_attr s) (f (__commands s)) (_not_found s)
        (_copy_group_error_handler s) (_check_group_type s).
Definition with_not_found
  (f : Dict.t (Dict.t nat) -> Dict.t (Dict.t nat)) (s : state) :=
  State (objs s) (all_commands s) (tree s) (loaded_cogs s)
        (subcommand_attr s) (__commands s) (f (_not_found s))
        (_copy_group_error_handler s) (_check_group_type s).

(** Computations that read and write the state and may raise; the state
    reached when an exception is raised is kept, as Python keeps it. *)
Definition M (A : Type) := state -> result A * state.

Definition ret {A} (a : A) : M A := fun s => (Ok a, s).
Definition raise {A} (e : exn) : M A := fun s => (Raise e, s).
Definition bind {A B} (m : M A) (k : A -> M B) : M B :=
  fun s =>
    match m s with
    | (Ok a, s') => k a s'
    | (Raise e, s') => (Raise e, s')
    end.
Definition gets {A} (f : state -> A) : M A := fun s => (Ok (f s), s).
Definition modify (f : state -> state) : M unit := fun s => (Ok tt, f s).

Notation "x <-- m ;; k" := (bind m (fun x => k))
  (at level 100, m at next level, right associativity).
Notation "m ;;; k" := (bind m (fun _ => k))
  (at level 100, right associativity).

(** A [for] loop whose body may raise. *)
Fixpoint for_each {A} (l : list A) (body : A -> M unit) : M unit :=
  match l with
  | [] => ret tt
  | x :: r => body x ;;; for_each r body
  end.

(** Dereferencing.  A Python reference always leads to an object; a state
    in which an identity has no object is outside the model, and reading
    through it raises. *)
Definition get_cmd (i : nat) : M command :=
  fun s =>
    match objs s !! i with
    | Some c => (Ok c, s)
    | None => (Raise (KeyError "object"), s)
    end.

Definition get_sub (sid : nat) : M _Subcommand :=
  fun s =>
    match subcommand_attr s !! sid with
    | Some sub => (Ok sub, s)
    | None => (Raise (KeyError "__subcommand__"), s)
    end.

(** ** Host framework primitives *)

(** Modelled from the spec: the host's way to read a command's qualified
    name (section 6), which is not part of this repository: the names of
    the ancestors, outermost first, then the command's own name, joined by
    single spaces.  A parent chain is no longer than the store is large. *)
Fixpoint parent_chain (o : gmap nat command) (fuel : nat) (p : option nat)
  : list string :=
  match fuel, p with
  | S f, Some i =>
      match o !! i with
      | Some c => cmd_name c :: parent_chain o f (cmd_parent c)
      | None => []
      end
  | _, _ => []
  end.

Definition qualified_name (o : gmap nat command) (i : nat) : string :=
  match o !! i with
  | None => ""
  | Some c =>
      let parent :=
        String.concat " " (rev (parent_chain o (size o) (cmd_parent c))) in
      if String.eqb parent "" then cmd_name c
      else (parent ++ " " ++ cmd_name c)%string
  end.

Definition has_kind (p : kind -> bool) (o : gmap nat command) (i : nat)
  : bool :=
  match o !! i with
  | Some c => p (cmd_kind c)
  | None => false
  end.

(** Modelled from the spec: the host's enumeration of the commands below a
    list of commands (section 6, "a way to enumerate all groups currently
    registered"), not part of this repository: each command, followed,
    when it is a group, by the enumeration of its children. *)
Fixpoint walk (is_group : kind -> bool) (o : gmap nat command) (fuel : nat)
         (ids : list nat) : list nat :=
  match fuel with
  | 0 => []
  | S f =>
      flat_map
        (fun i =>
           i :: match o !! i with
                | Some c =>
                    if is_group (cmd_kind c)
                    then walk is_group o f (Dict.values (cmd_children c))
                    else []
                | None => []
                end)
        ids
  end.

(** [bot.walk_commands()] *)
Definition bot_walk_commands (s : state) : list nat :=
  walk is_commands_Group (objs s) (S (size (objs s)))
       (Dict.values (all_commands s)).

(** [bot.tree.walk_commands(type=discord.AppCommandType.chat_input)] *)
Definition tree_walk_commands (s : state) : list nat :=
  walk is_app_Group (objs s) (S (size (objs s))) (Dict.values (tree s)).

(** [cog.walk_commands()]: the cog's parentless commands and what lies
    below them. *)
Definition cog_walk_commands (s : state) (cg : cog) : list nat :=
  flat_map
    (fun i =>
       match objs s !! i with
       | Some c =>
           match cmd_parent c with
           | None =>
               i :: (if is_commands_Group (cmd_kind c)
                     then walk is_commands_Group (objs s) (size (objs s))
                            (Dict.values (cmd_children c))
                     else [])
           | Some _ => []
           end
       | None => []
       end)
    (cog_commands cg).

(** [cog.walk_app_commands()] *)
Definition cog_walk_app_commands (s : state) (cg : cog) : list nat :=
  walk is_app_Group (objs s) (S (size (objs s))) (cog_app_commands cg).

(** Modelled from the spec: the host's top-level detach, not part of this
    repository ([bot.remove_command(name)]): the name is dropped from the
    flat prefix table; nothing happens when it is absent. *)
Definition bot_remove_command (name : string) : M unit :=
  modify (with_all_commands (Dict.remove name)).

(** Modelled from the spec: the same for the command tree
    ([bot.tree.remove_command(name)]), not part of this repository. *)
Definition tree_remove_command (name : string) : M unit :=
  modify (with_tree (Dict.remove name)).

(** Modelled from the spec: the host's attach-child primitive (section 6),
    not part of this repository ([group.add_command(command)]): the
    command becomes a child of the group under its name and the group
    becomes its parent; a name the group already holds is refused. *)
Definition group_add_command (g c : nat) : M unit :=
  G <-- get_cmd g ;;
  C <-- get_cmd c ;;
  if Dict.mem (cmd_name C) (cmd_children G)
  then raise (CommandRegistrationError (cmd_name C))
  else
    modify (with_objs (fun o =>
      alter (set_parent (Some g)) c
        (alter (set_children (Dict.set (cmd_name C) c (cmd_children G)))
               g o))).

(** Modelled from the spec: the host's detach-child primitive (section 6),
    not part of this repository ([group.remove_command(name)]): the child
    held under the name leaves the group's table of children; nothing
    happens when the group holds no such child.  The child's [parent]
    field is not written: the spec gives the primitive no such effect and
    this repository never assigns [command.parent]. *)
Definition group_remove_command (g : nat) (name : string) : M unit :=
  G <-- get_cmd g ;;
  match Dict.get name (cmd_children G) with
  | None => ret tt
  | Some c =>
      modify (with_objs
        (alter (set_children (Dict.remove name (cmd_children G))) g))
  end.

(** [group.has_error_handler()] *)
Definition has_error_handler (c : command) : bool :=
  match cmd_on_error c with Some _ => true | None => false end.

(** [command.error(handler)] *)
Definition command_error (c : nat) (h : option nat) : M unit :=
  modify (with_objs (alter (set_on_error h) c)).

(** Modelled from the spec: the host's original plugin-add (section 4.1,
    step 1, "so the plugin's commands actually exist in the host's
    tree"), not part of this repository: a cog of a name already loaded
    is refused; every parentless command of the cog is entered in the
    top-level table of its universe, a taken name is refused, and a
    refused load leaves the host as it was. *)
Definition register_top (app : bool) (i : nat) : M unit :=
  c <-- get_cmd i ;;
  match cmd_parent c with
  | Some _ => ret tt
  | None =>
      table <-- gets (if app then tree else all_commands) ;;
      if Dict.mem (cmd_name c) table
      then raise (CommandRegistrationError (cmd_name c))
      else modify ((if app then with_tree else with_all_commands)
                     (Dict.set (cmd_name c) i))
  end.

Definition original_cog_add (cg : cog) : M unit :=
  fun s =>
    if Dict.mem (cog_qualified_name cg) (loaded_cogs s)
    then (Raise (ClientException (cog_qualified_name cg)), s)
    else
      match (for_each (cog_commands cg) (register_top false) ;;;
             for_each (cog_app_commands cg) (register_top true)) s with
      | (Ok _, s') =>
          (Ok tt, with_loaded_cogs (Dict.set (cog_qualified_name cg) cg) s')
      | (Raise e, _) => (Raise e, s)
      end.

(** Modelled from the spec: the host's original plugin-remove (section
    4.1), not part of this repository: an unknown name is ignored; the
    cog's parentless commands leave the top-level tables; nothing is
    raised. *)
Definition unregister_top (app : bool) (i : nat) : M unit :=
  o <-- gets objs ;;
  match o !! i with
  | None => ret tt
  | Some c =>
      match cmd_parent c with
      | Some _ => ret tt
      | None =>
          if app then tree_remove_command (cmd_name c)
          else bot_remove_command (cmd_name c)
      end
  end.

Definition original_cog_remove (name : string) : M unit :=
  cgs <-- gets loaded_cogs ;;
  match Dict.get name cgs with
  | None => ret tt
  | Some cg =>
      modify (with_loaded_cogs (Dict.remove name)) ;;;
      for_each (cog_commands cg) (unregister_top false) ;;;
      for_each (cog_app_commands cg) (unregister_top true)
  end.

(** [discord.utils.get(iterable, qualified_name=name)]: the first element
    with that qualified name. *)
Definition utils_get (o : gmap nat command) (l : list nat) (qn : string)
  : option nat :=
  List.find (fun i => String.eqb (qualified_name o i) qn) l.

(** ** The decorator and the manager

    A write to a field of an object ([subcommand._group = group],
    [sub._command = command]) changes that field of the object in the
    store, whoever else refers to it. *)

Definition set_group (g : option nat) (sub : _Subcommand) : _Subcommand :=
  Subcommand (group_name sub) (_command sub) g.
Definition set_command (c : nat) (sub : _Subcommand) : _Subcommand :=
  Subcommand (group_name sub) c (_group sub).

(** [subcommand(group_name)(command)].  Every [kind] is a command or a
    group and [group_name] is a string by its type, so of the three
    checks only the one on the parent can fail.  The assignment that
    follows reads [command.callback]: a slash group passes the checks but
    has no callback, and the read raises [AttributeError]. *)
Definition subcommand (group_name : string) (command : nat) : M unit :=
  c <-- get_cmd command ;;
  match cmd_parent c with
  | Some _ => raise ValueError_decorated_subcommand
  | None =>
      if is_app_Group (cmd_kind c)
      then raise (AttributeError "callback")
      else
        modify (with_subcommand_attr
                  (insert (cmd_callback c)
                          (Subcommand group_name command None)))
  end.

(** [MultiFilesSubcommandsManager.__init__]: both registries start empty. *)
Definition MultiFilesSubcommandsManager
  (o : gmap nat command) (attr : gmap nat _Subcommand)
  (copy_group_error_handler check_group_type : bool) : state :=
  State o [] [] [] attr [] [] copy_group_error_handler check_group_type.

(** [d[k1][k2] = v] on a [defaultdict(dict)]. *)
Definition dd_set (k1 k2 : string) (v : nat) (d : Dict.t (Dict.t nat))
  : Dict.t (Dict.t nat) :=
  Dict.set k1 (Dict.set k2 v (default [] (Dict.get k1 d))) d.

(** [del self._not_found[cog_name][name]]: the outer lookup is on a
    [defaultdict] and creates the bucket when it is missing; the inner
    [del] raises [KeyError] on a missing name. *)
Definition del_not_found (cog_name name : string) : M unit :=
  fun s =>
    let bucket := default [] (Dict.get cog_name (_not_found s)) in
    if Dict.mem name bucket
    then (Ok tt,
          with_not_found (Dict.set cog_name (Dict.remove name bucket)) s)
    else (Raise (KeyError name),
          with_not_found (Dict.set cog_name bucket) s).

(** [__get_subcommand]: the [_Subcommand] on the command's callback, if
    any, re-pointed at this command. *)
Definition __get_subcommand (command : nat) : M (option nat) :=
  c <-- get_cmd command ;;
  attr <-- gets subcommand_attr ;;
  match attr !! cmd_callback c with
  | None => ret None
  | Some _ =>
      modify (with_subcommand_attr
                (alter (set_command command) (cmd_callback c))) ;;;
      ret (Some (cmd_callback c))
  end.

(** [__get_groups] *)
Definition __get_groups (s : state) (command : nat)
           (check_command_type : bool) : list nat :=
  let tree_commands :=
    List.filter (has_kind is_app_Group (objs s)) (tree_walk_commands s) in
  let prefix_commands :=
    List.filter
      (has_kind (fun k => is_commands_Group k || is_HybridGroup k) (objs s))
      (bot_walk_commands s) in
  if negb check_command_type then tree_commands ++ prefix_commands
  else if has_kind is_app (objs s) command then tree_commands
  else prefix_commands.

Definition is_any_group (k : kind) : bool :=
  is_app_Group k || is_commands_Group k || is_HybridGroup k.

(** The four checks of [__find_group] on a group that was found. *)
Definition check_group (name : string) (command_qualified_name : string)
           (ck gk : kind) : result unit :=
  if negb (is_any_group gk)
  then Raise (TypeError_not_a_group name command_qualified_name)
  else if is_app_Group gk && negb (is_app ck)
  then Raise (TypeError_cannot_add ck gk)
  else if is_HybridGroup gk && negb (is_HybridCommand ck || is_HybridGroup ck)
  then Raise (TypeError_cannot_add ck gk)
  else if is_commands_Group gk
          && negb (is_commands_Command ck || is_commands_Group ck)
  then Raise (TypeError_cannot_add ck gk)
  else Ok tt.

(** [__find_group] *)
Definition __find_group (subcommand : nat) : M (option nat) :=
  sub <-- get_sub subcommand ;;
  let name := group_name sub in
  let command := _command sub in
  s <-- gets id ;;
  match utils_get (objs s)
          (__get_groups s command (negb (_check_group_type s))) name with
  | None => ret None
  | Some group =>
      c <-- get_cmd command ;;
      g <-- get_cmd group ;;
      match check_group name (qualified_name (objs s) command)
              (cmd_kind c) (cmd_kind g) with
      | Raise e => raise e
      | Ok _ => ret (Some group)
      end
  end.

Inductive action := ADD | REMOVE.

(** [__handle_prefix_hybrid_command] *)
Definition __handle_prefix_hybrid_command
  (act : action) (subcommand : nat) (group : option nat) : M unit :=
  sub <-- get_sub subcommand ;;
  c <-- get_cmd (_command sub) ;;
  match act with
  | ADD =>
      match cmd_parent c with
      | Some p =>
          o <-- gets objs ;;
          raise (ValueError_already_a_subcommand
                   (cmd_name c) (qualified_name o p))
      | None =>
          match group with
          | None => raise ValueError_group_required
          | Some g =>
              modify (with_subcommand_attr
                        (alter (set_group (Some g)) subcommand)) ;;;
              bot_remove_command (cmd_name c) ;;;
              group_add_command g (_command sub) ;;;
              copy <-- gets _copy_group_error_handler ;;
              G <-- get_cmd g ;;
              if copy && has_error_handler G
              then command_error (_command sub) (cmd_on_error G)
              else ret tt
          end
      end
  | REMOVE =>
      match _group sub with
      | None => ret tt
      | Some g =>
          group_remove_command g (cmd_name c) ;;;
          modify (with_subcommand_attr (alter (set_group None) subcommand))
      end
  end.

(** [__handle_app_command]; the [print] of the silent branch writes to
    standard output only. *)
Definition __handle_app_command
  (act : action) (subcommand : nat) (group : option nat) : M unit :=
  sub <-- get_sub subcommand ;;
  c <-- get_cmd (_command sub) ;;
  match act with
  | ADD =>
      match cmd_parent c with
      | Some p =>
          o <-- gets objs ;;
          raise (ValueError_already_a_subcommand
                   (cmd_name c) (qualified_name o p))
      | None =>
          match group with
          | None => raise ValueError_group_required
          | Some g =>
              modify (with_subcommand_attr
                        (alter (set_group (Some g)) subcommand)) ;;;
              tree_remove_command (cmd_name c) ;;;
              group_add_command g (_command sub)
          end
      end
  | REMOVE =>
      match _group sub with
      | None => ret tt
      | Some g =>
          group_remove_command g (cmd_name c) ;;;
          modify (with_subcommand_attr (alter (set_group None) subcommand))
      end
  end.

(** The body of the inner loop of [__handle_commands], for one entry of
    the bucket of [cog_name]. *)
Definition handle_entry (cog_name : string) (subcommand : nat) : M unit :=
  group <-- __find_group subcommand ;;
  match group with
  | None => ret tt
  | Some g =>
      sub <-- get_sub subcommand ;;
      c <-- get_cmd (_command sub) ;;
      (if is_app (cmd_kind c)
       then __handle_app_command ADD subcommand (Some g)
       else __handle_prefix_hybrid_command ADD subcommand (Some g)) ;;;
      del_not_found cog_name (cmd_name c)
  end.

(** The body of the outer loop: the entries of one bucket, then
    [if not self._not_found.get(cog_name, {}): del self._not_found[cog_name]]. *)
Definition handle_bucket (item : string * Dict.t nat) : M unit :=
  let cog_name := fst item in
  for_each (Dict.values (snd item)) (handle_entry cog_name) ;;;
  nf <-- gets _not_found ;;
  match Dict.get cog_name nf with
  | Some (_ :: _) => ret tt
  | Some [] => modify (with_not_found (Dict.remove cog_name))
  | None => raise (KeyError cog_name)
  end.

(** [__handle_commands]: the resolution pass.  Both loops run over copies
    taken before any deletion; a bucket is only changed while its own cog
    is being handled, so the copy of the outer dict holds each bucket as
    the inner copy finds it. *)
Definition __handle_commands : M unit :=
  snapshot <-- gets _not_found ;;
  for_each snapshot handle_bucket.

(** The recording loop body of [__cog_add]. *)
Definition record_command (cog_name : string) (command : nat) : M unit :=
  r <-- __get_subcommand command ;;
  match r with
  | None => ret tt
  | Some sub =>
      c <-- get_cmd command ;;
      modify (with_commands (dd_set cog_name (cmd_name c) sub)) ;;;
      modify (with_not_found (dd_set cog_name (cmd_name c) sub))
  end.

(** [__cog_add]: plugin load. *)
Definition __cog_add (cg : cog) : M unit :=
  original_cog_add cg ;;;
  s <-- gets id ;;
  for_each (cog_walk_commands s cg ++ cog_walk_app_commands s cg)
           (record_command (cog_qualified_name cg)) ;;;
  __handle_commands.

(** The loop body of [__cog_remove]. *)
Definition remove_entry (subcommand : nat) : M unit :=
  sub <-- get_sub subcommand ;;
  c <-- get_cmd (_command sub) ;;
  if is_app (cmd_kind c)
  then __handle_app_command REMOVE subcommand None
  else __handle_prefix_hybrid_command REMOVE subcommand None.

(** [__cog_remove]: plugin unload.  [self.__commands] is a [defaultdict],
    so the lookup never raises and an unknown name yields an empty bucket. *)
Definition __cog_remove (name : string) : M unit :=
  original_cog_remove name ;;;
  known <-- gets __commands ;;
  for_each (Dict.values (default [] (Dict.get name known))) remove_entry ;;;
  modify (with_commands (Dict.remove name)) ;;;
  modify (with_not_found (Dict.remove name)).

(** The message built for one unresolved entry. *)
Definition not_found_message (command_kind : kind) (group_name name cog : string)
           (didyoumean : list string) : string :=
  let msg :=
    (_determine_command_group command_kind ++ " " ++ PyRepr.repr group_name
     ++ " for " ++ _determine_command_type command_kind ++ " "
     ++ PyRepr.repr name ++ " in cog " ++ PyRepr.repr cog
     ++ " was not found.")%string in
  match didyoumean with
  | x :: _ => (msg ++ " Did you mean " ++ PyRepr.repr x ++ "?")%string
  | [] => msg
  end.

(** The inner loop body of [raise_for_remaining_commands]. *)
Definition report_entry (cog : string) (item : string * nat) : M unit :=
  let name := fst item in
  sub <-- get_sub (snd item) ;;
  match _group sub with
  | Some _ => ret tt
  | None =>
      s <-- gets id ;;
      c <-- get_cmd (_command sub) ;;
      let commands_names :=
        map (qualified_name (objs s)) (__get_groups s (_command sub) true) in
      let didyoumean := Difflib.get_close_matches name commands_names in
      raise (RuntimeError
               (not_found_message (cmd_kind c) (group_name sub) name cog
                                  didyoumean))
  end.

(** [raise_for_remaining_commands]: the unresolved report. *)
Definition raise_for_remaining_commands : M unit :=
  nf <-- gets _not_found ;;
  match nf with
  | [] => ret tt
  | _ :: _ =>
      for_each nf (fun item => for_each (snd item) (report_entry (fst item)))
  end.


(** ** Notions used by the statements *)

(** The slash-universe groups and the prefix/hybrid-universe groups
    currently registered, as [__get_groups] collects them. *)
Definition tree_groups (s : state) : list nat :=
  List.filter (has_kind is_app_Group (objs s)) (tree_walk_commands s).
Definition prefix_groups (s : state) : list nat :=
  List.filter
    (has_kind (fun k => is_commands_Group k || is_HybridGroup k) (objs s))
    (bot_walk_commands s).


(** A state with a slash group and a prefix group both named ["g"], a
    prefix command declared for ["g"], and strict checking switched on. *)
Definition strict_two_universes : state :=
  State
    (<[0 := Command "g" AppGroup 10 None [] None]>
       (<[1 := Command "g" PrefixGroup 11 None [] None]>
          (<[2 := Command "info" PrefixCommand 12 None [] None]> ∅)))
    [("g", 1); ("info", 2)] [("g", 0)] []
    (<[12 := Subcommand "g" 2 None]> ∅)
    [("P", [("info", 12)])] [("P", [("info", 12)])]
    false true.

(** A relation between the state before and the state after, kept by
    every run of a computation, also one that raises. *)
Definition preserves {A} (R : state -> state -> Prop) (m : M A) : Prop :=
  forall s r s', m s = (r, s') -> R s s'.

(** The entries of a registry in iteration order: cog name, command
    name, [_Subcommand]. *)
Definition entries (d : Dict.t (Dict.t nat)) : list (string * string * nat) :=
  flat_map (fun item => map (fun e => (fst item, fst e, snd e)) (snd item)) d.

(** The [_Subcommand] of an entry has no attached group. *)
Definition unresolved_in (s : state) (e : string * string * nat) : Prop :=
  exists sub, subcommand_attr s !! snd e = Some sub /\ _group sub = None.

Definition resolved_in (s : state) (e : string * string * nat) : Prop :=
  exists sub g, subcommand_attr s !! snd e = Some sub /\ _group sub = Some g.

(** The message [raise_for_remaining_commands] builds for an entry. *)
Definition diagnostic (s : state) (e : string * string * nat)
  : option string :=
  match subcommand_attr s !! snd e with
  | None => None
  | Some sub =>
      match objs s !! _command sub with
      | None => None
      | Some c =>
          Some (not_found_message (cmd_kind c) (group_name sub)
                  (snd (fst e)) (fst (fst e))
                  (Difflib.get_close_matches (snd (fst e))
                     (map (qualified_name (objs s))
                          (__get_groups s (_command sub) true))))
      end
  end.

Fixpoint is_prefix (x s : string) : bool :=
  match x, s with
  | EmptyString, _ => true
  | String a x', String b s' => Ascii.eqb a b && is_prefix x' s'
  | String _ _, EmptyString => false
  end.

(** [x in s] on strings. *)
Fixpoint is_substring (x s : string) : bool :=
  is_prefix x s
  || match s with
     | EmptyString => false
     | String _ s' => is_substring x s'
     end.

(** Two prefix commands of cog ["P"], declared for the groups ["user"]
    and ["mod"], neither of which exists. *)
Definition two_unresolved : state :=
  State
    (<[0 := Command "info" PrefixCommand 10 None [] None]>
       (<[1 := Command "ban" PrefixCommand 11 None [] None]> ∅))
    [("info", 0); ("ban", 1)] [] [("P", Cog "P" [0; 1] [])]
    (<[10 := Subcommand "user" 0 None]>
       (<[11 := Subcommand "mod" 1 None]> ∅))
    [("P", [("info", 10); ("ban", 11)])]
    [("P", [("info", 10); ("ban", 11)])]
    false false.

(** The prefix groups ["user"] and ["mode"] exist; the command ["mod"] of
    cog ["P"] is declared for the group ["users"]. *)
Definition misspelt_target : state :=
  State
    (<[0 := Command "user" PrefixGroup 10 None [] None]>
       (<[1 := Command "mode" PrefixGroup 11 None [] None]>
          (<[2 := Command "mod" PrefixCommand 12 None [] None]> ∅)))
    [("user", 0); ("mode", 1); ("mod", 2)] []
    [("G", Cog "G" [0; 1] []); ("P", Cog "P" [2] [])]
    (<[12 := Subcommand "users" 2 None]> ∅)
    [("P", [("mod", 12)])] [("P", [("mod", 12)])]
    false false.

(** Only the prefix group ["user"] exists; the command ["whenjoin"] of cog
    ["P"] is declared for the group ["user utils"]. *)
Definition only_user_registered : state :=
  State
    (<[0 := Command "user" PrefixGroup 10 None [] None]>
       (<[1 := Command "whenjoin" PrefixCommand 11 None [] None]> ∅))
    [("user", 0); ("whenjoin", 1)] []
    [("G", Cog "G" [0] []); ("P", Cog "P" [1] [])]
    (<[11 := Subcommand "user utils" 1 None]> ∅)
    [("P", [("whenjoin", 11)])] [("P", [("whenjoin", 11)])]
    false false.

(** [d.get(k1, {}).get(k2)] on a registry. *)
Definition dd_get (k1 k2 : string) (d : Dict.t (Dict.t nat)) : option nat :=
  match Dict.get k1 d with
  | Some b => Dict.get k2 b
  | None => None
  end.

(** The store after [group.add_command(command)] went through. *)
Definition attach_objs (g c : nat) (G C : command) (o : gmap nat command)
  : gmap nat command :=
  alter (set_parent (Some g)) c
    (alter (set_children (Dict.set (cmd_name C) c (cmd_children G))) g o).

(** The store after the optional copy of the group's error handler. *)
Definition copy_handler (copy : bool) (c : nat) (G : command)
           (o : gmap nat command) : gmap nat command :=
  if copy && has_error_handler G
  then alter (set_on_error (cmd_on_error G)) c o
  else o.

(** The state after a declaration has been attached to the group [g] and
    struck from "still unresolved": what the ADD handlers and the
    [del] that follows them leave behind. *)
Definition attached_state (cog_name : string) (sid g : nat)
           (sub : _Subcommand) (G C : command) (s : state) : state :=
  let app := is_app (cmd_kind C) in
  with_not_found
    (Dict.set cog_name
       (Dict.remove (cmd_name C)
          (default [] (Dict.get cog_name (_not_found s)))))
    (with_objs
       (copy_handler (negb app && _copy_group_error_handler s)
                     (_command sub) G)
       (with_objs (attach_objs g (_command sub) G C)
          ((if app then with_tree else with_all_commands)
             (Dict.remove (cmd_name C))
             (with_subcommand_attr (alter (set_group (Some g)) sid) s)))).

(** The prefix group ["user"] is registered and the prefix command
    ["info"] of cog ["P"], declared for ["user"], is still unresolved. *)
Definition pending_info : state :=
  State
    (<[0 := Command "user" PrefixGroup 10 None [] None]>
       (<[1 := Command "info" PrefixCommand 11 None [] None]> ∅))
    [("info", 1); ("user", 0)] []
    [("P", Cog "P" [1] []); ("Q", Cog "Q" [0] [])]
    (<[11 := Subcommand "user" 1 None]> ∅)
    [("P", [("info", 11)])] [("P", [("info", 11)])]
    false false.

(** What never changes on an object of the store, and on a
    [_Subcommand] during a pass or an unload. *)
Definition static_cmd (c : command) : string * kind * nat :=
  (cmd_name c, cmd_kind c, cmd_callback c).
Definition static_sub (sub : _Subcommand) : string * nat :=
  (group_name sub, _command sub).

(** The objects and declarations are the same ones, up to the fields
    that attaching and detaching write. *)
Definition statics (s s' : state) : Prop :=
  (forall i, static_cmd <$> objs s' !! i = static_cmd <$> objs s !! i)
  /\ (forall i, static_sub <$> subcommand_attr s' !! i
                = static_sub <$> subcommand_attr s !! i)
  /\ _copy_group_error_handler s' = _copy_group_error_handler s
  /\ _check_group_type s' = _check_group_type s.

(** Both registries are untouched. *)
Definition keeps_registry (s s' : state) : Prop :=
  __commands s' = __commands s /\ _not_found s' = _not_found s.

(** The name of the command a declaration points at. *)
Definition entry_name (s : state) (sid : nat) : option string :=
  match subcommand_attr s !! sid with
  | None => None
  | Some sub =>
      match objs s !! _command sub with
      | None => None
      | Some c => Some (cmd_name c)
      end
  end.

(** The state between the ADD handler and the [del] that follows it. *)
Definition attached_before_del (sid g : nat) (sub : _Subcommand)
           (G C : command) (s : state) : state :=
  let app := is_app (cmd_kind C) in
  with_objs
    (copy_handler (negb app && _copy_group_error_handler s) (_command sub) G)
    (with_objs (attach_objs g (_command sub) G C)
       ((if app then with_tree else with_all_commands)
          (Dict.remove (cmd_name C))
          (with_subcommand_attr (alter (set_group (Some g)) sid) s))).

(** The state an ADD handler leaves behind when the group refuses the
    command: the group is recorded and the top-level name is gone, but
    nothing was attached. *)
Definition refused_state (sid g : nat) (C : command) (s : state) : state :=
  (if is_app (cmd_kind C) then with_tree else with_all_commands)
    (Dict.remove (cmd_name C))
    (with_subcommand_attr (alter (set_group (Some g)) sid) s).

(** The declaration [sid] is attached to the group [g]: it records [g],
    its command has [g] as parent and is the child [g] holds under the
    command's name. *)
Definition attached_to (s : state) (sid g : nat) : Prop :=
  exists sub C G,
    subcommand_attr s !! sid = Some sub /\
    _group sub = Some g /\
    objs s !! _command sub = Some C /\
    cmd_parent C = Some g /\
    objs s !! g = Some G /\
    Dict.get (cmd_name C) (cmd_children G) = Some (_command sub).

(** Commands that wrap the same callback carry the same name. *)
Definition callbacks_name (o : gmap nat command) : Prop :=
  forall i j ci cj,
    o !! i = Some ci -> o !! j = Some cj ->
    cmd_callback ci = cmd_callback cj -> cmd_name ci = cmd_name cj.

(** Every declaration sits on the callback of the command it points at. *)
Definition decorated (o : gmap nat command) (attr : gmap nat _Subcommand)
  : Prop :=
  forall sid sub,
    attr !! sid = Some sub ->
    exists c, o !! _command sub = Some c /\ cmd_callback c = sid.

(** The states the manager can be in: what holds of the store and of the
    two registries after any run of loads, unloads, passes and reports. *)
Record well_formed (s : state) : Prop := WellFormed {
  wf_covers :
    forall k1 k2 sid,
      dd_get k1 k2 (_not_found s) = Some sid ->
      dd_get k1 k2 (__commands s) = Some sid;
  wf_entry :
    forall k1 k2 sid,
      dd_get k1 k2 (__commands s) = Some sid -> entry_name s sid = Some k2;
  wf_decorated : decorated (objs s) (subcommand_attr s);
  wf_group :
    forall sid sub g,
      subcommand_attr s !! sid = Some sub -> _group sub = Some g ->
      is_Some (objs s !! g);
  wf_callbacks : callbacks_name (objs s);
  wf_keys : List.NoDup (Dict.keys (_not_found s));
  wf_bucket_keys :
    forall c b, In (c, b) (_not_found s) -> List.NoDup (Dict.keys b);
  wf_known_keys : List.NoDup (Dict.keys (__commands s));
  wf_known_bucket_keys :
    forall c b, In (c, b) (__commands s) -> List.NoDup (Dict.keys b)
}.

(** Only loaded cogs have a bucket in "all known". *)
Definition known_are_loaded (s : state) : Prop :=
  forall k, Dict.mem k (__commands s) = true ->
            Dict.mem k (loaded_cogs s) = true.

(** The state after [REMOVE] detached the declaration [sid] from the
    group [g], which held the child [x] (or none) under [name]. *)
Definition detached_state (sid g : nat) (name : string) (G : command)
           (s : state) : state :=
  with_subcommand_attr (alter (set_group None) sid)
    (match Dict.get name (cmd_children G) with
     | None => s
     | Some x =>
         with_objs
           (alter (set_children (Dict.remove name (cmd_children G))) g) s
     end).

(** Recorded groups are only ever cleared, and no object gains a parent. *)
Definition only_detaches (s s' : state) : Prop :=
  (forall i sub' g,
      subcommand_attr s' !! i = Some sub' -> _group sub' = Some g ->
      exists sub, subcommand_attr s !! i = Some sub /\ _group sub = Some g)
  /\ (forall i C' p,
        objs s' !! i = Some C' -> cmd_parent C' = Some p ->
        exists C, objs s !! i = Some C /\ cmd_parent C = Some p).

(** One step keeps the state well formed. *)
Definition keeps_well_formed (s s' : state) : Prop :=
  well_formed s -> well_formed s'.

(** Every object is still there with its name and its parent, and a
    group has gained no child. *)
Definition only_drops_children (s s' : state) : Prop :=
  forall i C,
    objs s !! i = Some C ->
    exists C',
      objs s' !! i = Some C'
      /\ cmd_name C' = cmd_name C
      /\ cmd_parent C' = cmd_parent C
      /\ (forall k, Dict.get k (cmd_children C) = None ->
                    Dict.get k (cmd_children C') = None).



(** The store of objects and declarations is untouched. *)
Definition same_store (s s' : state) : Prop :=
  objs s' = objs s /\ subcommand_attr s' = subcommand_attr s.

(** "All known" and the set of loaded cogs are untouched. *)
Definition same_known (s s' : state) : Prop :=
  __commands s' = __commands s /\ loaded_cogs s' = loaded_cogs s.

(** The state after [__cog_add] recorded the command [i], whose callback
    carries a declaration, for the cog [cog_name]. *)
Definition recorded_state (cog_name : string) (i : nat) (c : command)
           (s : state) : state :=
  with_not_found (dd_set cog_name (cmd_name c) (cmd_callback c))
    (with_commands (dd_set cog_name (cmd_name c) (cmd_callback c))
       (with_subcommand_attr (alter (set_command i) (cmd_callback c)) s)).

(** The invariant of the manager. *)
Definition manager_invariant (s : state) : Prop :=
  well_formed s /\ known_are_loaded s.

(** The operations of the manager, and runs of them.  An exception
    leaves the manager in the state it was raised in, and the next
    operation starts from there. *)
Inductive operation :=
| Load (cg : cog)
| Unload (name : string)
| Pass
| Report.

Definition perform (op : operation) : M unit :=
  match op with
  | Load cg => __cog_add cg
  | Unload name => __cog_remove name
  | Pass => __handle_commands
  | Report => raise_for_remaining_commands
  end.

Fixpoint run (ops : list operation) (s : state) : state :=
  match ops with
  | [] => s
  | op :: rest => run rest (snd (perform op s))
  end.

(** Every cog but [n] that was loaded still is. *)
Definition loaded_but (n : string) (s s' : state) : Prop :=
  forall k, k <> n -> Dict.mem k (loaded_cogs s) = true ->
            Dict.mem k (loaded_cogs s') = true.

(** Nothing changes. *)
Definition unchanged (s s' : state) : Prop := s' = s.

(** No declaration records a group yet, as the decorator leaves them. *)
Definition fresh_declarations (attr : gmap nat _Subcommand) : Prop :=
  forall sid sub, attr !! sid = Some sub -> _group sub = None.

(** [pending_info] after the pass attached ["info"] to ["user"]. *)
Definition attached_info : state :=
  State
    (<[0 := Command "user" PrefixGroup 10 None [("info", 1)] None]>
       (<[1 := Command "info" PrefixCommand 11 (Some 0) [] None]> ∅))
    [("user", 0)] []
    [("P", Cog "P" [1] []); ("Q", Cog "Q" [0] [])]
    (<[11 := Subcommand "user" 1 (Some 0)]> ∅)
    [("P", [("info", 11)])] []
    false false.

(** Between the state [s0] a pass starts in and a state [s] it reaches:
    every entry unresolved at the start is still there or, if not, was
    attached to a group; and nothing was added. *)
Definition struck_only_attached (s0 s : state) : Prop :=
  (forall k1 k2 v,
      dd_get k1 k2 (_not_found s0) = Some v ->
      dd_get k1 k2 (_not_found s) = Some v
      \/ (dd_get k1 k2 (_not_found s) = None
          /\ exists g, attached_to s v g))
  /\ (forall k1 k2 v,
        dd_get k1 k2 (_not_found s) = Some v ->
        dd_get k1 k2 (_not_found s0) = Some v).

(** The buckets of the cogs other than [n] are as they were, in both
    registries. *)
Definition keeps_other_buckets (n : string) (s s' : state) : Prop :=
  forall k1 k2, k1 <> n ->
    dd_get k1 k2 (_not_found s') = dd_get k1 k2 (_not_found s)
    /\ dd_get k1 k2 (__commands s') = dd_get k1 k2 (__commands s).

(** The store and the declarations [two_unresolved] is loaded from. *)
Definition two_commands : gmap nat command :=
  <[0 := Command "info" PrefixCommand 10 None [] None]>
    (<[1 := Command "ban" PrefixCommand 11 None [] None]> ∅).
Definition two_declarations : gmap nat _Subcommand :=
  <[10 := Subcommand "user" 0 None]> (<[11 := Subcommand "mod" 1 None]> ∅).


(** No entry of either registry holds the declaration [sid]. *)
Definition unreferenced (s : state) (sid : nat) : Prop :=
  forall c b,
    In (c, b) (__commands s) \/ In (c, b) (_not_found s) ->
    ~ In sid (Dict.values b).

(** The declaration [sid] is out of the registries and stays as it is. *)
Definition shadowed (sid : nat) (s s' : state) : Prop :=
  unreferenced s sid ->
  unreferenced s' sid /\ subcommand_attr s' !! sid = subcommand_attr s !! sid.

(** The declaration [sid] is what a registry holds for the cog [c] under
    the name [k]. *)
Definition held (s : state) (sid : nat) (c k : string) : Prop :=
  dd_get c k (__commands s) = Some sid \/ dd_get c k (_not_found s) = Some sid.

(** The commands a load of the cog enumerates, in the order of the
    recording loop of [__cog_add]. *)
Definition enumerated (s : state) (cg : cog) : list nat :=
  cog_walk_commands s cg ++ cog_walk_app_commands s cg.

(** The state after the recording loop body ran on the command [i], an
    object [c] of the store. *)
Definition after_record (n : string) (i : nat) (c : command) (s : state)
  : state :=
  match subcommand_attr s !! cmd_callback c with
  | Some _ => recorded_state n i c s
  | None => s
  end.

(** Among the commands [l], one is named [k] and carries a declaration
    other than [sid]. *)
Definition taken_later (o : gmap nat command) (attr : gmap nat _Subcommand)
           (sid : nat) (k : string) (l : list nat) : Prop :=
  exists j cj,
    In j l /\ o !! j = Some cj /\ cmd_name cj = k
    /\ cmd_callback cj <> sid /\ is_Some (attr !! cmd_callback cj).

(** In the enumeration [l], every command that carries the declaration
    [sid] is followed by a command of the same name that carries another
    declaration. *)
Fixpoint overwritten (o : gmap nat command) (attr : gmap nat _Subcommand)
         (sid : nat) (l : list nat) : Prop :=
  match l with
  | [] => True
  | i :: rest =>
      (forall c, o !! i = Some c -> cmd_callback c = sid ->
                 taken_later o attr sid (cmd_name c) rest)
      /\ overwritten o attr sid rest
  end.

(** While a load still has the commands [l] to record: wherever a
    registry holds [sid], it is for the cog [n] and under a name that one
    of [l] is going to take. *)
Definition awaits_overwrite (n : string) (sid : nat) (o : gmap nat command)
           (attr : gmap nat _Subcommand) (l : list nat) (s : state) : Prop :=
  forall c k, held s sid c k -> c = n /\ taken_later o attr sid k l.

(** Along the run [ops] from [s], every load the host accepts enumerates
    objects of the store, and enumerates the declaration [sid] only
    before a command of the same name that carries another declaration. *)
Fixpoint always_overwritten (sid : nat) (ops : list operation) (s : state)
  : Prop :=
  match ops with
  | [] => True
  | op :: rest =>
      match op with
      | Load cg =>
          forall s1,
            original_cog_add cg s = (Ok tt, s1) ->
            (forall j, In j (enumerated s1 cg) -> is_Some (objs s1 !! j))
            /\ overwritten (objs s1) (subcommand_attr s1) sid
                           (enumerated s1 cg)
      | _ => True
      end
      /\ always_overwritten sid rest (snd (perform op s))
  end.

(** The cog ["P"] has a prefix command and a slash command both named
    ["info"], declared for the groups ["user"] and ["member"]; none of
    them is recorded yet. *)
Definition same_name_store : gmap nat command :=
  <[0 := Command "info" PrefixCommand 10 None [] None]>
    (<[1 := Command "info" AppCommand 11 None [] None]> ∅).
Definition same_name_declarations : gmap nat _Subcommand :=
  <[10 := Subcommand "user" 0 None]> (<[11 := Subcommand "member" 1 None]> ∅).
Definition same_name_unrecorded : state :=
  MultiFilesSubcommandsManager same_name_store same_name_declarations
    false false.


(** The state after the host accepted the cog [cg] and entered its
    command [i], named [name], in the top-level table of its universe. *)
Definition registered (cg : cog) (app : bool) (name : string) (i : nat)
           (s : state) : state :=
  with_loaded_cogs (Dict.set (cog_qualified_name cg) cg)
    ((if app then with_tree else with_all_commands) (Dict.set name i) s).







(** A store whose one object is a slash group. *)
Definition slash_group_store : gmap nat command :=
  <[0 := Command "settings" AppGroup 10 None [] None]> ∅.

(** ** Further notions *)

(** The kinds a declared command and its group may have, as a table: a
    slash command or group goes under a slash group; a hybrid one under
    a hybrid or a prefix group; a prefix one under a prefix group only. *)
Definition accepts (ck gk : kind) : bool :=
  match gk, ck with
  | AppGroup, (AppCommand | AppGroup) => true
  | HybridGroup, (HybridCommand | HybridGroup) => true
  | PrefixGroup, (PrefixCommand | PrefixGroup | HybridCommand | HybridGroup) =>
      true
  | _, _ => false
  end.

(** The candidates [raise_for_remaining_commands] hands to
    [get_close_matches] for the declaration [sub]: the qualified names
    of the groups of the universe of its command. *)
Definition suggestions_for (s : state) (sub : _Subcommand) : list string :=
  map (qualified_name (objs s)) (__get_groups s (_command sub) true).

(** ** Installing and removing the manager

    [__init__] puts the manager's [__cog_add] and [__cog_remove] in the
    place of the bot's [add_cog] and [remove_cog]; [remove] puts the
    bot's own back. *)

(** What an entry point of the bot currently is. *)
Inductive entry_point := Original | Managed.

(** The bot as its callers see it: its two entry points, and the state
    of the host and of the manager they act on. *)
Record installation := Installation {
  bot_add_cog : entry_point;
  bot_remove_cog : entry_point;
  manager : state
}.

(** [MultiFilesSubcommandsManager(bot, ...)], seen from the bot. *)
Definition install (o : gmap nat command) (attr : gmap nat _Subcommand)
           (copy_group_error_handler check_group_type : bool)
  : installation :=
  Installation Managed Managed
    (MultiFilesSubcommandsManager o attr copy_group_error_handler
       check_group_type).

(** [bot.add_cog(cog)] *)
Definition add_cog (cg : cog) (b : installation)
  : result unit * installation :=
  let m := match bot_add_cog b with
           | Managed => __cog_add cg
           | Original => original_cog_add cg
           end in
  (fst (m (manager b)),
   Installation (bot_add_cog b) (bot_remove_cog b) (snd (m (manager b)))).

(** [bot.remove_cog(name)] *)
Definition remove_cog (name : string) (b : installation)
  : result unit * installation :=
  let m := match bot_remove_cog b with
           | Managed => __cog_remove name
           | Original => original_cog_remove name
           end in
  (fst (m (manager b)),
   Installation (bot_add_cog b) (bot_remove_cog b) (snd (m (manager b)))).

(** The loop body of [remove]: a declaration without a group is skipped;
    the handlers take the recorded group as argument, which their
    [REMOVE] branch does not read. *)
Definition teardown_entry (subcommand : nat) : M unit :=
  sub <-- get_sub subcommand ;;
  match _group sub with
  | None => ret tt
  | Some g =>
      c <-- get_cmd (_command sub) ;;
      if is_app (cmd_kind c)
      then __handle_app_command REMOVE subcommand (Some g)
      else __handle_prefix_hybrid_command REMOVE subcommand (Some g)
  end.

(** [remove], up to the two [clear]s. *)
Definition clear_registries : M unit :=
  known <-- gets __commands ;;
  for_each (Dict.values known)
           (fun _commands =>
              for_each (Dict.values _commands) teardown_entry) ;;;
  modify (with_commands (fun _ => [])) ;;;
  modify (with_not_found (fun _ => [])).

(** [remove]: the entry points are restored last, so only when nothing
    was raised before. *)
Definition remove (b : installation) : result unit * installation :=
  match clear_registries (manager b) with
  | (Ok _, s') => (Ok tt, Installation Original Original s')
  | (Raise e, s') =>
      (Raise e, Installation (bot_add_cog b) (bot_remove_cog b) s')
  end.

(** The host's top-level tables and its loaded cogs are untouched. *)
Definition keeps_tables (s s' : state) : Prop :=
  all_commands s' = all_commands s /\ tree s' = tree s
  /\ loaded_cogs s' = loaded_cogs s.

(** A group ["user"] that already has a child ["info"], and a cog ["P"]
    whose top-level command ["info"] is declared for ["user"]. *)
Definition name_taken : state :=
  State
    (<[0 := Command "user" PrefixGroup 10 None [("info", 2)] None]>
       (<[1 := Command "info" PrefixCommand 11 None [] None]>
          (<[2 := Command "info" PrefixCommand 12 (Some 0) [] None]> ∅)))
    [("user", 0); ("info", 1)] []
    [("G", Cog "G" [0] []); ("P", Cog "P" [1] [])]
    (<[11 := Subcommand "user" 1 None]> ∅)
    [("P", [("info", 11)])] [("P", [("info", 11)])]
    false false.

(** The exceptions a resolution pass ends with: the "Cannot add"
    [TypeError] of the search, the "already a subcommand" [ValueError]
    of the handlers, and the host's refusal of a taken name. *)
Definition pass_error (e : exn) : Prop :=
  match e with
  | TypeError_cannot_add _ _
  | ValueError_already_a_subcommand _ _
  | CommandRegistrationError _ => True
  | _ => False
  end.

(** The bucket of the cog [c] in "still unresolved" is not dropped. *)
Definition keeps_bucket (c : string) (s s' : state) : Prop :=
  Dict.mem c (_not_found s) = true -> Dict.mem c (_not_found s') = true.

(** A hybrid command ["info"] and its slash counterpart, which wraps the
    same callback; the callback carries a declaration for ["user"]. *)
Definition twin_store : gmap nat command :=
  <[0 := Command "info" HybridCommand 10 None [] None]>
    (<[1 := Command "info" AppCommand 10 None [] None]> ∅).
Definition twin_declarations : gmap nat _Subcommand :=
  <[10 := Subcommand "user" 0 None]> ∅.

(** [name_taken] after the pass that the group ["user"] refused:
    the declaration records the group, and the group still holds its own
    child ["info"]. *)
Definition name_taken_refused : state :=
  State
    (<[0 := Command "user" PrefixGroup 10 None [("info", 2)] None]>
       (<[1 := Command "info" PrefixCommand 11 None [] None]>
          (<[2 := Command "info" PrefixCommand 12 (Some 0) [] None]> ∅)))
    [("user", 0)] []
    [("G", Cog "G" [0] []); ("P", Cog "P" [1] [])]
    (<[11 := Subcommand "user" 1 (Some 0)]> ∅)
    [("P", [("info", 11)])] [("P", [("info", 11)])]
    false false.

(** [name_taken_refused] with two more commands of the cog ["P"],
    ["ban"] and ["kick"], declared for groups that are not there. *)
Definition refused_and_unresolved : state :=
  State
    (<[0 := Command "user" PrefixGroup 10 None [("info", 2)] None]>
       (<[1 := Command "info" PrefixCommand 11 None [] None]>
          (<[2 := Command "info" PrefixCommand 12 (Some 0) [] None]>
             (<[3 := Command "ban" PrefixCommand 13 None [] None]>
                (<[4 := Command "kick" PrefixCommand 14 None [] None]> ∅)))))
    [("user", 0); ("ban", 3); ("kick", 4)] []
    [("G", Cog "G" [0] []); ("P", Cog "P" [1; 3; 4] [])]
    (<[11 := Subcommand "user" 1 (Some 0)]>
       (<[13 := Subcommand "mod" 3 None]>
          (<[14 := Subcommand "staff" 4 None]> ∅)))
    [("P", [("info", 11); ("ban", 13); ("kick", 14)])]
    [("P", [("info", 11); ("ban", 13); ("kick", 14)])]
    false false.

(** The declaration [sid] is left as it is. *)
Definition keeps_declaration (sid : nat) (s s' : state) : Prop :=
  subcommand_attr s' !! sid = subcommand_attr s !! sid.

(** The score [get_close_matches] gives the candidate [x] for [word]:
    the ratio of the matcher whose first sequence is [x] and whose
    second is [word]. *)
Definition similarity (word x : string) : nat * nat :=
  Difflib.ratio (list_ascii_of_string x) (list_ascii_of_string word).
(** * Properties *)

(** ** Dictionaries *)

Section DictFacts.
Context {V : Type}.
Implicit Types (d : Dict.t V) (k : string) (v : V).

Lemma get_set_eq d k v : Dict.get k (Dict.set k v d) = Some v.
Proof.
  induction d as [|[k' v'] r IH]; simpl.
  - now rewrite String.eqb_refl.
  - destruct (String.eqb k k') eqn:E; simpl.
    + now rewrite String.eqb_refl.
    + now rewrite E.
Qed.

Lemma get_set_ne d k k' v :
  k' <> k -> Dict.get k' (Dict.set k v d) = Dict.get k' d.
Proof.
  intros Hne. induction d as [|[k0 v0] r IH]; simpl.
  - apply String.eqb_neq in Hne. now rewrite Hne.
  - destruct (String.eqb k k0) eqn:E; simpl.
    + apply String.eqb_eq in E. subst k0.
      apply String.eqb_neq in Hne. now rewrite Hne.
    + destruct (String.eqb k' k0); [reflexivity | exact IH].
Qed.

Lemma get_remove_eq d k : Dict.get k (Dict.remove k d) = None.
Proof.
  induction d as [|[k' v'] r IH]; simpl; [reflexivity|].
  destruct (String.eqb k k') eqn:E; simpl; [exact IH|].
  now rewrite E.
Qed.

Lemma get_remove_ne d k k' :
  k' <> k -> Dict.get k' (Dict.remove k d) = Dict.get k' d.
Proof.
  intros Hne. induction d as [|[k0 v0] r IH]; simpl; [reflexivity|].
  destruct (String.eqb k k0) eqn:E; simpl.
  - apply String.eqb_eq in E. subst k0.
    apply String.eqb_neq in Hne. now rewrite Hne.
  - destruct (String.eqb k' k0); [reflexivity | exact IH].
Qed.

Lemma get_remove_Some d k k' v :
  Dict.get k' (Dict.remove k d) = Some v -> Dict.get k' d = Some v.
Proof.
  destruct (String.eqb_spec k' k) as [->|Hne].
  - now rewrite get_remove_eq.
  - now rewrite get_remove_ne.
Qed.

Lemma get_In d k v : Dict.get k d = Some v -> In (k, v) d.
Proof.
  induction d as [|[k' v'] r IH]; simpl; [discriminate|].
  destruct (String.eqb_spec k k') as [->|Hne].
  - intros [= ->]. now left.
  - intros H. right. now apply IH.
Qed.

Lemma get_In_values d k v : Dict.get k d = Some v -> In v (Dict.values d).
Proof.
  intros H. apply get_In in H. unfold Dict.values.
  change v with (snd (k, v)). now apply in_map.
Qed.

Lemma mem_get d k : Dict.mem k d = true <-> exists v, Dict.get k d = Some v.
Proof.
  unfold Dict.mem. destruct (Dict.get k d); split; eauto; try discriminate.
  intros [v [=]].
Qed.

Lemma keys_remove_incl d k x :
  In x (Dict.keys (Dict.remove k d)) -> In x (Dict.keys d).
Proof.
  induction d as [|[k' v'] r IH]; simpl; [tauto|].
  destruct (String.eqb k k'); simpl; intuition.
Qed.

Lemma keys_remove_not_in d k : ~ In k (Dict.keys (Dict.remove k d)).
Proof.
  induction d as [|[k' v'] r IH]; simpl; [tauto|].
  destruct (String.eqb_spec k k'); simpl; [exact IH|].
  intros [E|H]; [congruence | now apply IH].
Qed.

Lemma NoDup_keys_remove d k :
  List.NoDup (Dict.keys d) -> List.NoDup (Dict.keys (Dict.remove k d)).
Proof.
  induction d as [|[k' v'] r IH]; simpl; [auto|].
  intros H. apply NoDup_cons_iff in H as [Hn Hr].
  destruct (String.eqb k k'); simpl; [now apply IH|].
  apply NoDup_cons_iff. split; [|now apply IH].
  intros Hin. apply Hn. eapply keys_remove_incl, Hin.
Qed.

Lemma keys_set d k v x :
  In x (Dict.keys (Dict.set k v d)) <-> x = k \/ In x (Dict.keys d).
Proof.
  induction d as [|[k' v'] r IH]; simpl.
  - intuition.
  - destruct (String.eqb_spec k k') as [->|Hne]; simpl.
    + intuition.
    + rewrite IH. intuition.
Qed.

Lemma NoDup_keys_set d k v :
  List.NoDup (Dict.keys d) -> List.NoDup (Dict.keys (Dict.set k v d)).
Proof.
  induction d as [|[k' v'] r IH]; simpl.
  - intros _. repeat constructor. simpl. tauto.
  - intros H. apply NoDup_cons_iff in H as [Hn Hr].
    destruct (String.eqb_spec k k') as [->|Hne]; simpl.
    + apply NoDup_cons_iff. now split.
    + apply NoDup_cons_iff. split; [|now apply IH].
      rewrite keys_set. intros [E|Hin]; [congruence | now apply Hn].
Qed.

Lemma get_None_keys d k : Dict.get k d = None <-> ~ In k (Dict.keys d).
Proof.
  induction d as [|[k' v'] r IH]; simpl; [tauto|].
  destruct (String.eqb_spec k k') as [->|Hne].
  - split; [discriminate | intros H; exfalso; apply H; now left].
  - rewrite IH. split; [intros H [E|Hin]; [congruence|tauto] | tauto].
Qed.

Lemma In_get_NoDup d k v :
  List.NoDup (Dict.keys d) -> In (k, v) d -> Dict.get k d = Some v.
Proof.
  induction d as [|[k' v'] r IH]; simpl; [tauto|].
  intros H. apply NoDup_cons_iff in H as [Hn Hr].
  intros [[= -> ->]|Hin].
  - now rewrite String.eqb_refl.
  - destruct (String.eqb_spec k k') as [->|Hne]; [|now apply IH].
    exfalso. apply Hn. change k' with (fst (k', v)). now apply in_map.
Qed.
End DictFacts.

(** ** Running computations *)

Lemma bind_Ok {A B} (m : M A) (k : A -> M B) s a s1 :
  m s = (Ok a, s1) -> bind m k s = k a s1.
Proof. unfold bind. now intros ->. Qed.

Lemma bind_Raise {A B} (m : M A) (k : A -> M B) s e s1 :
  m s = (Raise e, s1) -> bind m k s = (Raise e, s1).
Proof. unfold bind. now intros ->. Qed.

Lemma bind_inv {A B} (m : M A) (k : A -> M B) s r s' :
  bind m k s = (r, s') ->
  (exists a s1, m s = (Ok a, s1) /\ k a s1 = (r, s'))
  \/ (exists e, m s = (Raise e, s') /\ r = Raise e).
Proof.
  unfold bind. destruct (m s) as [[a|e] s1].
  - intros H. left. eauto.
  - intros [= <- <-]. right. eauto.
Qed.

Lemma for_each_app {A} (l1 l2 : list A) (body : A -> M unit) s :
  for_each (l1 ++ l2) body s =
  (for_each l1 body ;;; for_each l2 body) s.
Proof.
  revert s. induction l1 as [|x r IH]; intros s; simpl.
  - reflexivity.
  - unfold bind. destruct (body x s) as [[[]|e] s1]; [|reflexivity].
    rewrite IH. reflexivity.
Qed.

(** A loop whose body does nothing does nothing. *)
Lemma for_each_skip {A} (l : list A) (body : A -> M unit) s :
  (forall x, In x l -> body x s = (Ok tt, s)) ->
  for_each l body s = (Ok tt, s).
Proof.
  induction l as [|x r IH]; intros H; simpl; [reflexivity|].
  rewrite (bind_Ok _ _ _ _ _ (H x (or_introl eq_refl))).
  apply IH. intros y Hy. apply H. now right.
Qed.

(** ** Relations kept by every step of a computation *)


Section Preserves.
Context (R : state -> state -> Prop).
Context (R_refl : forall s, R s s).
Context (R_trans : forall s1 s2 s3, R s1 s2 -> R s2 s3 -> R s1 s3).

Lemma preserves_ret {A} (a : A) : preserves R (ret a).
Proof. intros s r s' [= <- <-]. apply R_refl. Qed.

Lemma preserves_raise {A} e : preserves R (@raise A e).
Proof. intros s r s' [= <- <-]. apply R_refl. Qed.

Lemma preserves_gets {A} (f : state -> A) : preserves R (gets f).
Proof. intros s r s' [= <- <-]. apply R_refl. Qed.

Lemma preserves_get_cmd i : preserves R (get_cmd i).
Proof.
  intros s r s'. unfold get_cmd. destruct (objs s !! i);
    intros [= <- <-]; apply R_refl.
Qed.

Lemma preserves_get_sub i : preserves R (get_sub i).
Proof.
  intros s r s'. unfold get_sub. destruct (subcommand_attr s !! i);
    intros [= <- <-]; apply R_refl.
Qed.

Lemma preserves_modify f : (forall s, R s (f s)) -> preserves R (modify f).
Proof. intros H s r s' [= <- <-]. apply H. Qed.

Lemma preserves_bind {A B} (m : M A) (k : A -> M B) :
  preserves R m -> (forall a, preserves R (k a)) -> preserves R (bind m k).
Proof.
  intros Hm Hk s r s' H. apply bind_inv in H as [(a & s1 & H1 & H2)|(e & H1 & _)].
  - eapply R_trans; [eapply Hm, H1 | eapply Hk, H2].
  - eapply Hm, H1.
Qed.

Lemma preserves_for_each {A} (l : list A) (body : A -> M unit) :
  (forall x, In x l -> preserves R (body x)) -> preserves R (for_each l body).
Proof.
  induction l as [|x r IH]; intros H; simpl.
  - apply preserves_ret.
  - apply preserves_bind; [apply H; now left|].
    intros _. apply IH. intros y Hy. apply H. now right.
Qed.
End Preserves.

(** ** The candidate pools of the group search *)


Lemma get_groups_unfold s command check :
  __get_groups s command check =
  if negb check then tree_groups s ++ prefix_groups s
  else if has_kind is_app (objs s) command then tree_groups s
  else prefix_groups s.
Proof. reflexivity. Qed.

Lemma tree_groups_kind s g :
  In g (tree_groups s) -> has_kind is_app_Group (objs s) g = true.
Proof. unfold tree_groups. rewrite filter_In. tauto. Qed.

Lemma prefix_groups_kind s g :
  In g (prefix_groups s) -> has_kind is_commands_Group (objs s) g = true.
Proof.
  unfold prefix_groups. rewrite filter_In. intros [_ H].
  unfold has_kind in *. destruct (objs s !! g) as [c|]; [|discriminate].
  destruct (cmd_kind c); simpl in *; congruence.
Qed.

Lemma utils_get_In o l qn g : utils_get o l qn = Some g -> In g l.
Proof. unfold utils_get. intros H. now apply find_some in H. Qed.


(** What [__find_group] returns, by the outcome of the search. *)
Lemma find_group_None s sid sub :
  subcommand_attr s !! sid = Some sub ->
  utils_get (objs s)
    (__get_groups s (_command sub) (negb (_check_group_type s)))
    (group_name sub) = None ->
  __find_group sid s = (Ok None, s).
Proof.
  intros Hs Hg. unfold __find_group, bind, get_sub, gets, ret. simpl.
  rewrite Hs. simpl. now rewrite Hg.
Qed.

Lemma find_group_Some s sid sub c g G :
  subcommand_attr s !! sid = Some sub ->
  objs s !! _command sub = Some c ->
  objs s !! g = Some G ->
  utils_get (objs s)
    (__get_groups s (_command sub) (negb (_check_group_type s)))
    (group_name sub) = Some g ->
  __find_group sid s =
  (match check_group (group_name sub)
           (qualified_name (objs s) (_command sub)) (cmd_kind c) (cmd_kind G)
   with
   | Ok _ => Ok (Some g)
   | Raise e => Raise e
   end, s).
Proof.
  intros Hs Hc HG Hg.
  unfold __find_group, bind, get_sub, get_cmd, gets, ret, raise. simpl.
  rewrite Hs. simpl. rewrite Hg, Hc, HG.
  now destruct (check_group _ _ _ _).
Qed.

(** [__find_group] only reads. *)
Lemma find_group_state s sid r s' : __find_group sid s = (r, s') -> s' = s.
Proof.
  unfold __find_group, bind, get_sub, get_cmd, gets, ret, raise. simpl.
  destruct (subcommand_attr s !! sid) as [sub|]; [|now intros [= _ <-]].
  destruct (utils_get _ _ _) as [g|]; [|now intros [= _ <-]].
  destruct (objs s !! _command sub) as [c|]; [|now intros [= _ <-]].
  destruct (objs s !! g) as [G|]; [|now intros [= _ <-]].
  destruct (check_group _ _ _ _); now intros [= _ <-].
Qed.

Lemma find_group_inv s sid g s' :
  __find_group sid s = (Ok (Some g), s') ->
  exists sub c G,
    subcommand_attr s !! sid = Some sub /\
    objs s !! _command sub = Some c /\
    objs s !! g = Some G /\
    utils_get (objs s)
      (__get_groups s (_command sub) (negb (_check_group_type s)))
      (group_name sub) = Some g /\
    check_group (group_name sub) (qualified_name (objs s) (_command sub))
                (cmd_kind c) (cmd_kind G) = Ok tt.
Proof.
  unfold __find_group, bind, get_sub, get_cmd, gets, ret, raise. simpl.
  destruct (subcommand_attr s !! sid) as [sub|]; [|discriminate].
  destruct (utils_get _ _ _) as [g'|] eqn:Hg; [|discriminate].
  destruct (objs s !! _command sub) as [c|] eqn:Hc; [|discriminate].
  destruct (objs s !! g') as [G|] eqn:HG; [|discriminate].
  destruct (check_group _ _ _ _) as [[]|e] eqn:Hk; [|discriminate].
  intros [= <- <-]. exists sub, c, G. auto.
Qed.






(** ** The unresolved report *)

Lemma for_each_map {A B} (f : A -> B) (l : list A) (body : B -> M unit) s :
  for_each (map f l) body s = for_each l (fun x => body (f x)) s.
Proof.
  revert s. induction l as [|x r IH]; intros s; simpl; [reflexivity|].
  unfold bind. destruct (body (f x) s) as [[[]|e] s1]; [apply IH|reflexivity].
Qed.

Lemma for_each_ext {A} (l : list A) (b1 b2 : A -> M unit) s :
  (forall x s0, b1 x s0 = b2 x s0) -> for_each l b1 s = for_each l b2 s.
Proof.
  intros H. revert s. induction l as [|x r IH]; intros s; simpl; [reflexivity|].
  unfold bind. rewrite H. destruct (b2 x s) as [[[]|e] s1]; [apply IH|reflexivity].
Qed.

(** The two nested loops of the report run over [entries]. *)
Lemma report_loops_entries (nf : Dict.t (Dict.t nat)) s :
  for_each nf (fun item => for_each (snd item) (report_entry (fst item))) s =
  for_each (entries nf)
           (fun e => report_entry (fst (fst e)) (snd (fst e), snd e)) s.
Proof.
  revert s. induction nf as [|[cg b] r IH]; intros s; [reflexivity|].
  change (entries ((cg, b) :: r))
    with (map (fun e : string * nat => (cg, fst e, snd e)) b ++ entries r).
  rewrite for_each_app. cbn [for_each fst snd]. unfold bind.
  assert (E : for_each (map (fun e : string * nat => (cg, fst e, snd e)) b)
                (fun e => report_entry (fst (fst e)) (snd (fst e), snd e)) s
              = for_each b (report_entry cg) s).
  { rewrite for_each_map. apply for_each_ext. intros [n i] s0. reflexivity. }
  rewrite E.
  destruct (for_each b (report_entry cg) s) as [[[]|e] s1]; [apply IH|reflexivity].
Qed.

Lemma report_entry_resolved s e :
  resolved_in s e ->
  report_entry (fst (fst e)) (snd (fst e), snd e) s = (Ok tt, s).
Proof.
  intros (sub & g & Hs & Hg). unfold report_entry, bind, get_sub. simpl.
  rewrite Hs. simpl. now rewrite Hg.
Qed.

Lemma report_entry_unresolved s e msg :
  unresolved_in s e -> diagnostic s e = Some msg ->
  report_entry (fst (fst e)) (snd (fst e), snd e) s
  = (Raise (RuntimeError msg), s).
Proof.
  intros (sub & Hs & Hg). unfold diagnostic. rewrite Hs.
  destruct (objs s !! _command sub) as [c|] eqn:Hc; [|discriminate].
  intros [= <-]. unfold report_entry, bind, get_sub, get_cmd, gets, raise.
  simpl. rewrite Hs. simpl. rewrite Hg. simpl. now rewrite Hc.
Qed.

Lemma append_cons x (a b : string) :
  (String x a ++ b)%string = String x (a ++ b)%string.
Proof. reflexivity. Qed.

Lemma append_nil (b : string) : (EmptyString ++ b)%string = b.
Proof. reflexivity. Qed.

Lemma append_assoc (a b c : string) : ((a ++ b) ++ c = a ++ b ++ c)%string.
Proof.
  induction a as [|x a IH]; [reflexivity|].
  now rewrite !append_cons, IH.
Qed.

Lemma is_prefix_app x s : is_prefix x (x ++ s) = true.
Proof.
  induction x as [|a x IH]; [reflexivity|].
  rewrite append_cons. simpl. now rewrite Ascii.eqb_refl, IH.
Qed.

Lemma is_substring_app x a b : is_substring x (a ++ x ++ b) = true.
Proof.
  induction a as [|c a IH].
  - rewrite append_nil.
    destruct (x ++ b)%string eqn:E; simpl; rewrite <- E, is_prefix_app; reflexivity.
  - rewrite append_cons. simpl. rewrite IH. apply orb_true_r.
Qed.

Ltac substring_between a b :=
  match goal with
  | |- is_substring ?x ?m = true =>
      replace m with (a ++ x ++ b)%string;
      [apply is_substring_app | rewrite ?append_assoc; reflexivity]
  end.

(** The message names the cog, the command and the group looked for. *)
Lemma not_found_message_identifies k g n cg d :
  is_substring (PyRepr.repr cg) (not_found_message k g n cg d) = true /\
  is_substring (PyRepr.repr n) (not_found_message k g n cg d) = true /\
  is_substring (PyRepr.repr g) (not_found_message k g n cg d) = true.
Proof.
  unfold not_found_message.
  set (G := _determine_command_group k). set (T := _determine_command_type k).
  destruct d as [|x d]; repeat split.
  - substring_between
      (G ++ " " ++ PyRepr.repr g ++ " for " ++ T ++ " " ++ PyRepr.repr n
       ++ " in cog ")%string " was not found.".
  - substring_between
      (G ++ " " ++ PyRepr.repr g ++ " for " ++ T ++ " ")%string
      (" in cog " ++ PyRepr.repr cg ++ " was not found.")%string.
  - substring_between
      (G ++ " ")%string
      (" for " ++ T ++ " " ++ PyRepr.repr n ++ " in cog " ++ PyRepr.repr cg
       ++ " was not found.")%string.
  - substring_between
      (G ++ " " ++ PyRepr.repr g ++ " for " ++ T ++ " " ++ PyRepr.repr n
       ++ " in cog ")%string
      (" was not found." ++ " Did you mean " ++ PyRepr.repr x ++ "?")%string.
  - substring_between
      (G ++ " " ++ PyRepr.repr g ++ " for " ++ T ++ " ")%string
      (" in cog " ++ PyRepr.repr cg ++ " was not found."
       ++ " Did you mean " ++ PyRepr.repr x ++ "?")%string.
  - substring_between
      (G ++ " ")%string
      (" for " ++ T ++ " " ++ PyRepr.repr n ++ " in cog " ++ PyRepr.repr cg
       ++ " was not found." ++ " Did you mean " ++ PyRepr.repr x ++ "?")%string.
Qed.

Lemma raise_for_remaining_unfold s :
  raise_for_remaining_commands s =
  for_each (entries (_not_found s))
           (fun e => report_entry (fst (fst e)) (snd (fst e), snd e)) s.
Proof.
  unfold raise_for_remaining_commands, bind, gets. simpl.
  rewrite <- report_loops_entries.
  destruct (_not_found s); reflexivity.
Qed.

(** C1, as stated, fails: with two unresolved entries the error carries
    the message of the first one only; the message for ["ban"] is not
    part of it. *)
Lemma report_stops_at_first_entry :
  entries (_not_found two_unresolved) = [("P", "info", 10); ("P", "ban", 11)] /\
  unresolved_in two_unresolved ("P", "info", 10) /\
  unresolved_in two_unresolved ("P", "ban", 11) /\
  ~ (exists msg,
       fst (raise_for_remaining_commands two_unresolved)
       = Raise (RuntimeError msg) /\
       forall e m, In e (entries (_not_found two_unresolved)) ->
                   diagnostic two_unresolved e = Some m ->
                   is_substring m msg = true).
Proof.
  split; [reflexivity|].
  split; [exists (Subcommand "user" 0 None); split; reflexivity|].
  split; [exists (Subcommand "mod" 1 None); split; reflexivity|].
  intros (msg & Hr & Hall).
  vm_compute in Hr. injection Hr as <-.
  specialize (Hall ("P", "ban", 11) _ (or_intror (or_introl eq_refl)) eq_refl).
  vm_compute in Hall. discriminate Hall.
Qed.

(** C1, amended: the report looks at the entries of "still unresolved"
    in iteration order and passes over those whose declaration records a
    group (an attach that the host refused leaves such entries behind).
    At the first entry whose declaration records no group it raises one
    [RuntimeError] whose message is the diagnostic of that entry, and of
    that entry only; the message names the cog, the command and the group
    that was not found, and the state is left as it was.  If every listed
    entry records a group, the report returns normally and changes
    nothing. *)
Theorem report_raises_for_first_unresolved (s : state) :
  (forall (pre post : list (string * string * nat))
          (e : string * string * nat) (msg : string),
      entries (_not_found s) = pre ++ e :: post ->
      (forall e', In e' pre -> resolved_in s e') ->
      unresolved_in s e ->
      diagnostic s e = Some msg ->
      raise_for_remaining_commands s = (Raise (RuntimeError msg), s)
      /\ (exists sub, subcommand_attr s !! snd e = Some sub
            /\ is_substring (PyRepr.repr (fst (fst e))) msg = true
            /\ is_substring (PyRepr.repr (snd (fst e))) msg = true
            /\ is_substring (PyRepr.repr (group_name sub)) msg = true))
  /\ ((forall e, In e (entries (_not_found s)) -> resolved_in s e) ->
      raise_for_remaining_commands s = (Ok tt, s)).
Proof.
  split.
  - intros pre post e msg Hent Hpre Hun Hmsg. split.
    + rewrite raise_for_remaining_unfold, Hent, for_each_app.
      erewrite bind_Ok.
      2:{ apply for_each_skip. intros x Hx.
          now apply report_entry_resolved, Hpre. }
      simpl. erewrite bind_Raise; [reflexivity|].
      now apply report_entry_unresolved.
    + destruct Hun as (sub & Hs & _). exists sub. split; [exact Hs|].
      unfold diagnostic in Hmsg. rewrite Hs in Hmsg.
      destruct (objs s !! _command sub); [|discriminate].
      injection Hmsg as <-. apply not_found_message_identifies.
  - intros Hall. rewrite raise_for_remaining_unfold.
    apply for_each_skip. intros x Hx. now apply report_entry_resolved, Hall.
Qed.

Lemma report_raises_for_first_unresolved_witness :
  (entries (_not_found refused_and_unresolved)
   = [("P", "info", 11); ("P", "ban", 13); ("P", "kick", 14)]
   /\ resolved_in refused_and_unresolved ("P", "info", 11)
   /\ unresolved_in refused_and_unresolved ("P", "ban", 13)
   /\ raise_for_remaining_commands refused_and_unresolved =
      (Raise (RuntimeError
         "Command group 'mod' for command 'ban' in cog 'P' was not found. Did you mean 'user'?"),
       refused_and_unresolved))
  /\ (entries (_not_found name_taken_refused) = [("P", "info", 11)]
      /\ raise_for_remaining_commands name_taken_refused
         = (Ok tt, name_taken_refused)).
Proof.
  assert (R : forall s,
             subcommand_attr s !! 11 = Some (Subcommand "user" 1 (Some 0)) ->
             resolved_in s ("P", "info", 11)).
  { intros s H. exists (Subcommand "user" 1 (Some 0)), 0. split; [exact H|].
    reflexivity. }
  split.
  - split; [reflexivity|]. split; [apply R; reflexivity|].
    assert (U : unresolved_in refused_and_unresolved ("P", "ban", 13))
      by (exists (Subcommand "mod" 3 None); split; reflexivity).
    split; [exact U|].
    apply (proj1 (report_raises_for_first_unresolved refused_and_unresolved)
             [("P", "info", 11)] [("P", "kick", 14)] ("P", "ban", 13)).
    + reflexivity.
    + intros e' [<-|[]]. apply R. reflexivity.
    + exact U.
    + vm_compute. reflexivity.
  - split; [reflexivity|].
    apply (proj2 (report_raises_for_first_unresolved name_taken_refused)).
    intros e [<-|[]]. apply R. reflexivity.
Defined.

(** With nothing unresolved the report returns. *)
Lemma report_returns_when_all_resolved s :
  (forall e, In e (entries (_not_found s)) -> resolved_in s e) ->
  raise_for_remaining_commands s = (Ok tt, s).
Proof.
  intros H. rewrite raise_for_remaining_unfold.
  apply for_each_skip. intros x Hx. now apply report_entry_resolved, H.
Qed.

(** ** The suggestion of the report *)

(** The suggestion is the candidate closest to the key of the entry, which
    is the name of the command; the group name looked for plays no part. *)
Lemma suggestion_ignores_target s e msg sub c :
  subcommand_attr s !! snd e = Some sub ->
  objs s !! _command sub = Some c ->
  diagnostic s e = Some msg ->
  msg = not_found_message (cmd_kind c) (group_name sub) (snd (fst e))
          (fst (fst e))
          (Difflib.get_close_matches (snd (fst e))
             (map (qualified_name (objs s))
                  (__get_groups s (_command sub) true))).
Proof.
  intros Hs Hc. unfold diagnostic. rewrite Hs, Hc. now intros [= <-].
Qed.

(** C2 on a failing input: the groups ["user"] and ["mode"] exist and the
    command ["mod"] is declared for ["users"].  The closest existing name
    to the target ["users"] is ["user"], yet the report suggests ["mode"],
    the closest name to the command's own name ["mod"]. *)
Theorem report_suggests_match_of_command_name :
  map (qualified_name (objs misspelt_target))
      (__get_groups misspelt_target 2 true) = ["user"; "mode"] /\
  Difflib.get_close_matches "users" ["user"; "mode"] = ["user"] /\
  Difflib.get_close_matches "mod" ["user"; "mode"] = ["mode"] /\
  raise_for_remaining_commands misspelt_target =
  (Raise (RuntimeError
     "Command group 'users' for command 'mod' in cog 'P' was not found. Did you mean 'mode'?"),
   misspelt_target).
Proof. vm_compute. repeat split; reflexivity. Qed.

(** The scenario of the specification: only ["user"] exists and the
    declaration targets ["user utils"]; with a single candidate the
    suggestion is that candidate. *)
Lemma report_suggests_only_candidate :
  raise_for_remaining_commands only_user_registered =
  (Raise (RuntimeError
     "Command group 'user utils' for command 'whenjoin' in cog 'P' was not found. Did you mean 'user'?"),
   only_user_registered).
Proof. vm_compute. reflexivity. Qed.

(** ** Attaching a declaration *)

Lemma get_cmd_Some s i c : objs s !! i = Some c -> get_cmd i s = (Ok c, s).
Proof. unfold get_cmd. now intros ->. Qed.

Lemma get_sub_Some s i sub :
  subcommand_attr s !! i = Some sub -> get_sub i s = (Ok sub, s).
Proof. unfold get_sub. now intros ->. Qed.

Lemma group_add_command_ok s g c G C :
  objs s !! g = Some G -> objs s !! c = Some C ->
  Dict.mem (cmd_name C) (cmd_children G) = false ->
  group_add_command g c s = (Ok tt, with_objs (attach_objs g c G C) s).
Proof.
  intros HG HC Hm. unfold group_add_command.
  rewrite (bind_Ok _ _ _ _ _ (get_cmd_Some _ _ _ HG)).
  rewrite (bind_Ok _ _ _ _ _ (get_cmd_Some _ _ _ HC)).
  rewrite Hm. reflexivity.
Qed.

Lemma group_add_command_refused s g c G C :
  objs s !! g = Some G -> objs s !! c = Some C ->
  Dict.mem (cmd_name C) (cmd_children G) = true ->
  group_add_command g c s = (Raise (CommandRegistrationError (cmd_name C)), s).
Proof.
  intros HG HC Hm. unfold group_add_command.
  rewrite (bind_Ok _ _ _ _ _ (get_cmd_Some _ _ _ HG)).
  rewrite (bind_Ok _ _ _ _ _ (get_cmd_Some _ _ _ HC)).
  rewrite Hm. reflexivity.
Qed.

(** Looking up the group after the attachment. *)
Lemma attach_objs_group g c G C o :
  o !! g = Some G -> o !! c = Some C ->
  exists G', attach_objs g c G C o !! g = Some G'
             /\ cmd_children G' = Dict.set (cmd_name C) c (cmd_children G)
             /\ cmd_on_error G' = cmd_on_error G
             /\ cmd_name G' = cmd_name G /\ cmd_kind G' = cmd_kind G.
Proof.
  intros HG HC. unfold attach_objs.
  destruct (decide (c = g)) as [->|Hne].
  - rewrite lookup_alter_eq, lookup_alter_eq, HG. simpl. eauto 10.
  - rewrite lookup_alter_ne by done. rewrite lookup_alter_eq, HG. simpl. eauto 10.
Qed.



Lemma modify_run f s : modify f s = (Ok tt, f s).
Proof. reflexivity. Qed.

Lemma gets_run {A} (f : state -> A) s : gets f s = (Ok (f s), s).
Proof. reflexivity. Qed.

Ltac step_ok :=
  cbv beta iota;
  first
    [ erewrite bind_Ok; [| solve [ apply get_cmd_Some; simpl; eassumption
                                 | apply get_sub_Some; simpl; eassumption
                                 | apply modify_run
                                 | apply gets_run ] ] ].

(** The ADD branch of the prefix/hybrid handler, when nothing is in the
    way. *)
Lemma handle_prefix_hybrid_ADD_ok s sid sub C g G :
  subcommand_attr s !! sid = Some sub ->
  objs s !! _command sub = Some C ->
  cmd_parent C = None ->
  objs s !! g = Some G ->
  Dict.mem (cmd_name C) (cmd_children G) = false ->
  __handle_prefix_hybrid_command ADD sid (Some g) s =
  (Ok tt,
   with_objs (copy_handler (_copy_group_error_handler s) (_command sub) G)
     (with_objs (attach_objs g (_command sub) G C)
        (with_all_commands (Dict.remove (cmd_name C))
           (with_subcommand_attr (alter (set_group (Some g)) sid) s)))).
Proof.
  intros Hs HC Hp HG Hm. unfold __handle_prefix_hybrid_command.
  do 2 step_ok. rewrite Hp. step_ok. unfold bot_remove_command. step_ok.
  erewrite bind_Ok.
  2:{ apply group_add_command_ok with (G := G) (C := C); simpl; assumption. }
  step_ok. simpl.
  destruct (attach_objs_group g (_command sub) G C (objs s) HG HC)
    as (G' & HG' & _ & Herr & _).
  erewrite bind_Ok by (apply get_cmd_Some; simpl; exact HG').
  unfold copy_handler, has_error_handler. rewrite Herr.
  destruct (_copy_group_error_handler s), (cmd_on_error G); reflexivity.
Qed.

Lemma handle_app_ADD_ok s sid sub C g G :
  subcommand_attr s !! sid = Some sub ->
  objs s !! _command sub = Some C ->
  cmd_parent C = None ->
  objs s !! g = Some G ->
  Dict.mem (cmd_name C) (cmd_children G) = false ->
  __handle_app_command ADD sid (Some g) s =
  (Ok tt,
   with_objs (attach_objs g (_command sub) G C)
     (with_tree (Dict.remove (cmd_name C))
        (with_subcommand_attr (alter (set_group (Some g)) sid) s))).
Proof.
  intros Hs HC Hp HG Hm. unfold __handle_app_command.
  do 2 step_ok. rewrite Hp. step_ok. unfold tree_remove_command. step_ok.
  apply group_add_command_ok with (G := G) (C := C); simpl; assumption.
Qed.

(** Both ADD handlers refuse a command that has a parent, before they
    change anything. *)
Lemma handle_ADD_already_subcommand s sid sub C p g :
  subcommand_attr s !! sid = Some sub ->
  objs s !! _command sub = Some C ->
  cmd_parent C = Some p ->
  __handle_prefix_hybrid_command ADD sid g s =
  (Raise (ValueError_already_a_subcommand
            (cmd_name C) (qualified_name (objs s) p)), s)
  /\ __handle_app_command ADD sid g s =
     (Raise (ValueError_already_a_subcommand
               (cmd_name C) (qualified_name (objs s) p)), s).
Proof.
  intros Hs HC Hp.
  unfold __handle_prefix_hybrid_command, __handle_app_command.
  split; do 2 step_ok; rewrite Hp; step_ok; reflexivity.
Qed.

(** One turn of the inner loop that finds its group and attaches. *)
Lemma handle_entry_attaches s cog_name sid sub C g G :
  subcommand_attr s !! sid = Some sub ->
  objs s !! _command sub = Some C ->
  cmd_parent C = None ->
  objs s !! g = Some G ->
  __find_group sid s = (Ok (Some g), s) ->
  Dict.mem (cmd_name C) (cmd_children G) = false ->
  dd_get cog_name (cmd_name C) (_not_found s) = Some sid ->
  handle_entry cog_name sid s =
  (Ok tt, attached_state cog_name sid g sub G C s).
Proof.
  intros Hs HC Hp HG Hf Hm Hnf. unfold handle_entry.
  erewrite bind_Ok by exact Hf. do 2 step_ok.
  unfold attached_state.
  assert (Hdel : forall s1,
    _not_found s1 = _not_found s ->
    del_not_found cog_name (cmd_name C) s1 =
    (Ok tt, with_not_found
              (Dict.set cog_name
                 (Dict.remove (cmd_name C)
                    (default [] (Dict.get cog_name (_not_found s))))) s1)).
  { intros s1 E. unfold del_not_found. rewrite E.
    unfold dd_get in Hnf. destruct (Dict.get cog_name (_not_found s)) as [b|];
      [|discriminate]. simpl.
    unfold Dict.mem. now rewrite Hnf. }
  destruct (is_app (cmd_kind C)) eqn:Happ.
  - erewrite bind_Ok by (eapply handle_app_ADD_ok; eassumption).
    rewrite Hdel by reflexivity. simpl. reflexivity.
  - erewrite bind_Ok by (eapply handle_prefix_hybrid_ADD_ok; eassumption).
    rewrite Hdel by reflexivity. simpl. reflexivity.
Qed.

Lemma dd_get_set_remove cog_name name d k1 k2 :
  dd_get k1 k2
    (Dict.set cog_name
       (Dict.remove name (default [] (Dict.get cog_name d))) d) =
  if String.eqb k1 cog_name && String.eqb k2 name then None
  else dd_get k1 k2 d.
Proof.
  unfold dd_get, Dict.t in *.
  destruct (String.eqb_spec k1 cog_name) as [->|Hne]; simpl.
  - rewrite get_set_eq.
    destruct (String.eqb_spec k2 name) as [->|Hne2].
    + apply get_remove_eq.
    + rewrite get_remove_ne by assumption.
      destruct (Dict.get cog_name d); reflexivity.
  - now rewrite get_set_ne.
Qed.

Lemma copy_handler_lookup copy c G o i :
  copy_handler copy c G o !! i =
  if decide (c = i)
  then (if copy && has_error_handler G
        then set_on_error (cmd_on_error G) <$> o !! i else o !! i)
  else o !! i.
Proof.
  unfold copy_handler. destruct (copy && has_error_handler G).
  - destruct (decide (c = i)) as [->|Hne].
    + apply lookup_alter_eq.
    + now apply lookup_alter_ne.
  - now destruct (decide (c = i)).
Qed.

(** ** What the operations leave alone *)

Lemma statics_refl s : statics s s.
Proof. unfold statics. auto. Qed.

Lemma statics_trans s1 s2 s3 : statics s1 s2 -> statics s2 s3 -> statics s1 s3.
Proof.
  unfold statics. intros (A1 & B1 & C1 & D1) (A2 & B2 & C2 & D2).
  repeat split; intros; congruence.
Qed.

Lemma keeps_registry_refl s : keeps_registry s s.
Proof. unfold keeps_registry. auto. Qed.

Lemma keeps_registry_trans s1 s2 s3 :
  keeps_registry s1 s2 -> keeps_registry s2 s3 -> keeps_registry s1 s3.
Proof. unfold keeps_registry. intros [] []. split; congruence. Qed.

Lemma static_alter_cmd (f : command -> command) i (o : gmap nat command) j :
  (forall c, static_cmd (f c) = static_cmd c) ->
  static_cmd <$> alter f i o !! j = static_cmd <$> o !! j.
Proof.
  intros Hf. destruct (decide (i = j)) as [->|Hne].
  - rewrite lookup_alter_eq. destruct (o !! j); simpl; [|reflexivity].
    now rewrite Hf.
  - now rewrite lookup_alter_ne.
Qed.

Lemma static_alter_sub (f : _Subcommand -> _Subcommand) i
      (o : gmap nat _Subcommand) j :
  (forall c, static_sub (f c) = static_sub c) ->
  static_sub <$> alter f i o !! j = static_sub <$> o !! j.
Proof.
  intros Hf. destruct (decide (i = j)) as [->|Hne].
  - rewrite lookup_alter_eq. destruct (o !! j); simpl; [|reflexivity].
    now rewrite Hf.
  - now rewrite lookup_alter_ne.
Qed.

Lemma preserves_find_group R (R_refl : forall s, R s s) sid :
  preserves R (__find_group sid).
Proof.
  intros s r s' H. apply find_group_state in H. subst. apply R_refl.
Qed.

(** Splits a computation into its primitive steps; [leaf] settles what a
    single write does to the relation. *)
Ltac pres_with Hrefl Htrans leaf :=
  repeat first
    [ solve [leaf]
    | apply (preserves_ret _ Hrefl)
    | apply (preserves_raise _ Hrefl)
    | apply (preserves_gets _ Hrefl)
    | apply (preserves_get_cmd _ Hrefl)
    | apply (preserves_get_sub _ Hrefl)
    | apply (preserves_find_group _ Hrefl)
    | apply (preserves_bind _ Htrans); [ | intros ? ]
    | apply (preserves_for_each _ Hrefl Htrans); intros ? ?
    | apply preserves_modify; intros ?; solve [leaf]
    | match goal with
      | |- preserves _ (match ?x with _ => _ end) => destruct x
      | |- preserves _ (if ?x then _ else _) => destruct x
      end ].

Ltac statics_leaf :=
  match goal with |- statics _ _ => idtac end;
  unfold statics; simpl; repeat split; intros;
  rewrite ?static_alter_cmd, ?static_alter_sub by (intros; reflexivity);
  reflexivity.

Ltac registry_leaf :=
  match goal with |- keeps_registry _ _ => idtac end;
  unfold keeps_registry; simpl; split; reflexivity.

Lemma statics_del_not_found c n : preserves statics (del_not_found c n).
Proof.
  intros s r s'. unfold del_not_found.
  destruct (Dict.mem _ _); intros [= <- <-]; statics_leaf.
Qed.

Lemma statics_handlers act sid g :
  preserves statics (__handle_prefix_hybrid_command act sid g)
  /\ preserves statics (__handle_app_command act sid g).
Proof.
  unfold __handle_prefix_hybrid_command, __handle_app_command,
    bot_remove_command, tree_remove_command, group_add_command,
    group_remove_command, command_error.
  split; pres_with statics_refl statics_trans statics_leaf.
Qed.

Lemma registry_handlers act sid g :
  preserves keeps_registry (__handle_prefix_hybrid_command act sid g)
  /\ preserves keeps_registry (__handle_app_command act sid g).
Proof.
  unfold __handle_prefix_hybrid_command, __handle_app_command,
    bot_remove_command, tree_remove_command, group_add_command,
    group_remove_command, command_error.
  split; pres_with keeps_registry_refl keeps_registry_trans registry_leaf.
Qed.

Lemma statics_handle_entry c sid : preserves statics (handle_entry c sid).
Proof.
  unfold handle_entry.
  pres_with statics_refl statics_trans
    ltac:(first [ apply statics_handlers | apply statics_del_not_found ]).
Qed.

Lemma statics_handle_bucket item : preserves statics (handle_bucket item).
Proof.
  unfold handle_bucket.
  pres_with statics_refl statics_trans
    ltac:(first [ apply statics_handle_entry | statics_leaf ]).
Qed.

Lemma statics_handle_commands : preserves statics __handle_commands.
Proof.
  unfold __handle_commands.
  pres_with statics_refl statics_trans ltac:(apply statics_handle_bucket).
Qed.

Lemma entry_name_statics s s' sid :
  statics s s' -> entry_name s' sid = entry_name s sid.
Proof.
  intros (Ho & Hs & _). unfold entry_name.
  specialize (Hs sid).
  destruct (subcommand_attr s' !! sid) as [sub'|],
           (subcommand_attr s !! sid) as [sub|]; simpl in Hs; try discriminate;
    [|reflexivity].
  injection Hs as _ Hc. rewrite Hc. specialize (Ho (_command sub)).
  destruct (objs s' !! _command sub) as [c'|],
           (objs s !! _command sub) as [c|]; simpl in Ho; try discriminate;
    [|reflexivity].
  now injection Ho as ->.
Qed.

Lemma group_add_command_no_group s g c :
  objs s !! g = None ->
  group_add_command g c s = (Raise (KeyError "object"), s).
Proof.
  intros HG. unfold group_add_command.
  erewrite bind_Raise; [reflexivity|]. unfold get_cmd. now rewrite HG.
Qed.

(** The ADD handlers end normally only when the command had no parent
    and the group took it. *)
Lemma handle_ADD_ok_inv s sid g s1 (app : bool) :
  (if app then __handle_app_command ADD sid (Some g) s
   else __handle_prefix_hybrid_command ADD sid (Some g) s) = (Ok tt, s1) ->
  exists sub C G,
    subcommand_attr s !! sid = Some sub /\
    objs s !! _command sub = Some C /\
    objs s !! g = Some G /\
    cmd_parent C = None /\
    Dict.mem (cmd_name C) (cmd_children G) = false /\
    s1 = with_objs
           (copy_handler (negb app && _copy_group_error_handler s)
                         (_command sub) G)
           (with_objs (attach_objs g (_command sub) G C)
              ((if app then with_tree else with_all_commands)
                 (Dict.remove (cmd_name C))
                 (with_subcommand_attr (alter (set_group (Some g)) sid) s))).
Proof.
  intros H.
  destruct (subcommand_attr s !! sid) as [sub|] eqn:Hs.
  2:{ exfalso. destruct app;
      unfold __handle_app_command, __handle_prefix_hybrid_command in H;
      erewrite bind_Raise in H by (unfold get_sub; rewrite Hs; reflexivity);
      discriminate. }
  destruct (objs s !! _command sub) as [C|] eqn:HC.
  2:{ exfalso. destruct app;
      unfold __handle_app_command, __handle_prefix_hybrid_command in H;
      erewrite bind_Ok in H by (apply get_sub_Some; eassumption);
      erewrite bind_Raise in H by (unfold get_cmd; rewrite HC; reflexivity);
      discriminate. }
  destruct (cmd_parent C) as [p|] eqn:Hp.
  { exfalso.
    destruct (handle_ADD_already_subcommand s sid sub C p (Some g) Hs HC Hp)
      as [H1 H2].
    destruct app; congruence. }
  destruct (objs s !! g) as [G|] eqn:HG.
  2:{ exfalso. destruct app;
      unfold __handle_app_command, __handle_prefix_hybrid_command in H;
      erewrite bind_Ok in H by (apply get_sub_Some; eassumption);
      erewrite bind_Ok in H by (apply get_cmd_Some; eassumption);
      rewrite Hp in H;
      erewrite bind_Ok in H by apply modify_run;
      unfold bot_remove_command, tree_remove_command in H;
      erewrite bind_Ok in H by apply modify_run.
    - erewrite group_add_command_no_group in H by (simpl; eassumption).
      discriminate.
    - erewrite bind_Raise in H
        by (apply group_add_command_no_group; simpl; eassumption).
      discriminate. }
  destruct (Dict.mem (cmd_name C) (cmd_children G)) eqn:Hm.
  { exfalso. destruct app;
      unfold __handle_app_command, __handle_prefix_hybrid_command in H;
      erewrite bind_Ok in H by (apply get_sub_Some; eassumption);
      erewrite bind_Ok in H by (apply get_cmd_Some; eassumption);
      rewrite Hp in H;
      erewrite bind_Ok in H by apply modify_run;
      unfold bot_remove_command, tree_remove_command in H;
      erewrite bind_Ok in H by apply modify_run.
    - erewrite group_add_command_refused in H by (simpl; eassumption).
      discriminate.
    - erewrite bind_Raise in H
        by (apply group_add_command_refused with (G := G); simpl; eassumption).
      discriminate. }
  exists sub, C, G. repeat split; try assumption.
  destruct app.
  - rewrite (handle_app_ADD_ok s sid sub C g G Hs HC Hp HG Hm) in H.
    injection H as <-. unfold copy_handler. reflexivity.
  - rewrite (handle_prefix_hybrid_ADD_ok s sid sub C g G Hs HC Hp HG Hm) in H.
    injection H as <-. reflexivity.
Qed.

Lemma handle_ADD_refused s sid sub C g G (app : bool) :
  subcommand_attr s !! sid = Some sub ->
  objs s !! _command sub = Some C ->
  cmd_parent C = None ->
  objs s !! g = Some G ->
  Dict.mem (cmd_name C) (cmd_children G) = true ->
  (if app then __handle_app_command ADD sid (Some g) s
   else __handle_prefix_hybrid_command ADD sid (Some g) s) =
  (Raise (CommandRegistrationError (cmd_name C)),
   (if app then with_tree else with_all_commands)
     (Dict.remove (cmd_name C))
     (with_subcommand_attr (alter (set_group (Some g)) sid) s)).
Proof.
  intros Hs HC Hp HG Hm.
  destruct app; unfold __handle_app_command, __handle_prefix_hybrid_command;
    do 2 step_ok; rewrite Hp; step_ok;
    unfold bot_remove_command, tree_remove_command; step_ok.
  - apply group_add_command_refused with (G := G); simpl; assumption.
  - erewrite bind_Raise; [reflexivity|].
    apply group_add_command_refused with (G := G); simpl; assumption.
Qed.




(** Every way one turn of the inner loop can go. *)
Lemma handle_entry_inv cog_name sid s r s' :
  handle_entry cog_name sid s = (r, s') ->
  (s' = s /\ (r = Ok tt -> __find_group sid s = (Ok None, s)))
  \/ exists g sub C G,
       __find_group sid s = (Ok (Some g), s) /\
       subcommand_attr s !! sid = Some sub /\
       objs s !! _command sub = Some C /\
       objs s !! g = Some G /\
       ((exists p, cmd_parent C = Some p /\ s' = s /\
                   r = Raise (ValueError_already_a_subcommand
                                (cmd_name C) (qualified_name (objs s) p)))
        \/ (cmd_parent C = None /\
            Dict.mem (cmd_name C) (cmd_children G) = true /\
            s' = refused_state sid g C s /\
            r = Raise (CommandRegistrationError (cmd_name C)))
        \/ (cmd_parent C = None /\
            Dict.mem (cmd_name C) (cmd_children G) = false /\
            del_not_found cog_name (cmd_name C)
              (attached_before_del sid g sub G C s) = (r, s'))).
Proof.
  intros H. unfold handle_entry in H.
  destruct (__find_group sid s) as [[[g|]|e] s0] eqn:Hf.
  - assert (s0 = s) by (eapply find_group_state; eassumption). subst s0.
    right.
    destruct (find_group_inv _ _ _ _ Hf) as (sub & C & G & Hs & HC & HG & _ & _).
    exists g, sub, C, G. repeat (split; [first [assumption | reflexivity]|]).
    erewrite bind_Ok in H by exact Hf. cbv beta iota in H.
    erewrite bind_Ok in H by (apply get_sub_Some; eassumption).
    erewrite bind_Ok in H by (apply get_cmd_Some; eassumption).
    destruct (cmd_parent C) as [p|] eqn:Hp.
    + left. exists p.
      destruct (handle_ADD_already_subcommand s sid sub C p (Some g) Hs HC Hp)
        as [H1 H2].
      destruct (is_app (cmd_kind C));
        erewrite bind_Raise in H by eassumption; injection H as <- <-; auto.
    + right. destruct (Dict.mem (cmd_name C) (cmd_children G)) eqn:Hm.
      * left.
        pose proof (handle_ADD_refused s sid sub C g G (is_app (cmd_kind C))
                      Hs HC Hp HG Hm) as Hr.
        unfold refused_state.
        destruct (is_app (cmd_kind C));
          erewrite bind_Raise in H by exact Hr; injection H as <- <-; auto.
      * right. unfold attached_before_del.
        destruct (is_app (cmd_kind C)).
        -- erewrite bind_Ok in H
             by (eapply handle_app_ADD_ok; eassumption).
           auto.
        -- erewrite bind_Ok in H
             by (eapply handle_prefix_hybrid_ADD_ok; eassumption).
           auto.
  - assert (s0 = s) by (eapply find_group_state; eassumption). subst s0.
    erewrite bind_Ok in H by exact Hf. injection H as <- <-. left. auto.
  - assert (s0 = s) by (eapply find_group_state; eassumption). subst s0.
    erewrite bind_Raise in H by exact Hf. injection H as <- <-. left.
    split; [reflexivity | discriminate].
Qed.

Lemma del_not_found_inv cog_name name s r s' :
  del_not_found cog_name name s = (r, s') ->
  (r = Ok tt
   /\ Dict.mem name (default [] (Dict.get cog_name (_not_found s))) = true
   /\ s' = with_not_found
             (Dict.set cog_name
                (Dict.remove name
                   (default [] (Dict.get cog_name (_not_found s))))) s)
  \/ (r = Raise (KeyError name)
      /\ Dict.mem name (default [] (Dict.get cog_name (_not_found s))) = false
      /\ s' = with_not_found
                (Dict.set cog_name
                   (default [] (Dict.get cog_name (_not_found s)))) s).
Proof.
  unfold del_not_found.
  destruct (Dict.mem _ _) eqn:E; intros [= <- <-]; auto.
Qed.

(** ** Well-formed states *)

Section DictIn.
Context {V : Type}.
Implicit Types (d : Dict.t V) (k : string) (v : V).

Lemma In_set d k v k' v' :
  In (k', v') (Dict.set k v d) -> (k' = k /\ v' = v) \/ In (k', v') d.
Proof.
  induction d as [|[k0 v0] r IH]; simpl.
  - intros [[= <- <-]|[]]. now left.
  - destruct (String.eqb_spec k k0) as [->|Hne]; simpl.
    + intros [[= <- <-]|H]; [now left | right; now right].
    + intros [E|H]; [right; now left|].
      destruct (IH H) as [?|?]; [now left | right; now right].
Qed.

Lemma In_remove d k k' v' : In (k', v') (Dict.remove k d) -> In (k', v') d.
Proof.
  induction d as [|[k0 v0] r IH]; simpl; [tauto|].
  destruct (String.eqb k k0); simpl; intuition.
Qed.

Lemma In_get d k v : In (k, v) d -> exists v', Dict.get k d = Some v'.
Proof.
  induction d as [|[k0 v0] r IH]; simpl; [tauto|].
  intros [[= -> ->]|H].
  - rewrite String.eqb_refl. eauto.
  - destruct (String.eqb k k0); eauto.
Qed.
End DictIn.

Lemma statics_decorated s s' :
  statics s s' -> decorated (objs s) (subcommand_attr s) ->
  decorated (objs s') (subcommand_attr s').
Proof.
  intros (Ho & Hs & _) Hd sid sub' Hsub'.
  specialize (Hs sid). rewrite Hsub' in Hs.
  destruct (subcommand_attr s !! sid) as [sub|] eqn:Hsub; [|discriminate].
  simpl in Hs. injection Hs as _ Hc.
  destruct (Hd sid sub Hsub) as (c & Hc0 & Hcb).
  specialize (Ho (_command sub')). rewrite Hc, Hc0 in Ho.
  destruct (objs s' !! _command sub) as [c'|] eqn:Hc'; [|discriminate].
  simpl in Ho. injection Ho as _ _ Hcb'. exists c'. rewrite Hc.
  split; [assumption | congruence].
Qed.

Lemma statics_callbacks s s' :
  statics s s' -> callbacks_name (objs s) -> callbacks_name (objs s').
Proof.
  intros (Ho & _) Hc i j ci cj Hi Hj Hcb.
  pose proof (Ho i) as Hoi. pose proof (Ho j) as Hoj.
  rewrite Hi in Hoi. rewrite Hj in Hoj.
  destruct (objs s !! i) as [ci0|] eqn:Hi0; [|discriminate].
  destruct (objs s !! j) as [cj0|] eqn:Hj0; [|discriminate].
  simpl in Hoi, Hoj. injection Hoi as Hn1 _ Hc1. injection Hoj as Hn2 _ Hc2.
  rewrite Hn1, Hn2. eapply Hc; eauto. congruence.
Qed.

Lemma statics_is_Some s s' i :
  statics s s' -> is_Some (objs s !! i) -> is_Some (objs s' !! i).
Proof.
  intros (Ho & _) [c Hc]. specialize (Ho i). rewrite Hc in Ho.
  destruct (objs s' !! i); [eauto | discriminate].
Qed.

(** The frame of a step inside a pass or an unload: with the objects and
    declarations the same ones and the registries at most shrunk, a state
    stays well formed as long as the groups recorded are objects. *)
Lemma well_formed_frame s s' :
  statics s s' ->
  __commands s' = __commands s ->
  (forall sid sub g,
      subcommand_attr s' !! sid = Some sub -> _group sub = Some g ->
      is_Some (objs s' !! g)) ->
  (forall k1 k2 sid,
      dd_get k1 k2 (_not_found s') = Some sid ->
      dd_get k1 k2 (_not_found s) = Some sid) ->
  List.NoDup (Dict.keys (_not_found s')) ->
  (forall c b, In (c, b) (_not_found s') -> List.NoDup (Dict.keys b)) ->
  well_formed s -> well_formed s'.
Proof.
  intros Hst Hk Hg Hnf Hnd Hnb [W1 W2 W3 W4 W5 W6 W7 W8 W9].
  constructor; try assumption.
  - intros k1 k2 sid H. rewrite Hk. auto.
  - intros k1 k2 sid H. rewrite Hk in H.
    rewrite (entry_name_statics _ _ _ Hst). eauto.
  - eapply statics_decorated; eassumption.
  - eapply statics_callbacks; eassumption.
  - now rewrite Hk.
  - now rewrite Hk.
Qed.

Lemma statics_attached_before_del sid g sub G C s :
  statics s (attached_before_del sid g sub G C s).
Proof.
  unfold attached_before_del, copy_handler, attach_objs.
  destruct (is_app (cmd_kind C)); simpl;
    destruct (_copy_group_error_handler s); simpl;
    try destruct (has_error_handler G); statics_leaf.
Qed.

Lemma statics_refused_state sid g C s : statics s (refused_state sid g C s).
Proof. unfold refused_state. destruct (is_app (cmd_kind C)); statics_leaf. Qed.

Lemma statics_with_not_found f s : statics s (with_not_found f s).
Proof. statics_leaf. Qed.

Lemma dd_get_set_default cog_name d k1 k2 :
  dd_get k1 k2 (Dict.set cog_name (default [] (Dict.get cog_name d)) d)
  = dd_get k1 k2 d.
Proof.
  unfold dd_get, Dict.t in *.
  destruct (String.eqb_spec k1 cog_name) as [->|Hne].
  - rewrite get_set_eq. destruct (Dict.get cog_name d); [reflexivity|].
    reflexivity.
  - now rewrite get_set_ne.
Qed.

Lemma bucket_NoDup (d : Dict.t (Dict.t nat)) k :
  (forall c b, In (c, b) d -> List.NoDup (Dict.keys b)) ->
  List.NoDup (Dict.keys (default [] (Dict.get k d))).
Proof.
  intros H. destruct (Dict.get k d) as [b|] eqn:E; simpl.
  - eapply H, get_In, E.
  - constructor.
Qed.

(** Recording a group that is an object keeps the recorded groups
    objects. *)
Lemma groups_valid_after_set s s' sid g :
  statics s s' ->
  subcommand_attr s' = alter (set_group (Some g)) sid (subcommand_attr s) ->
  is_Some (objs s !! g) ->
  well_formed s ->
  forall sid' sub' g',
    subcommand_attr s' !! sid' = Some sub' -> _group sub' = Some g' ->
    is_Some (objs s' !! g').
Proof.
  intros Hst Ha Hg W sid' sub' g' Hs' Hg'. rewrite Ha in Hs'.
  apply (statics_is_Some _ _ _ Hst).
  destruct (decide (sid = sid')) as [->|Hne].
  - rewrite lookup_alter_eq in Hs'.
    destruct (subcommand_attr s !! sid') as [sub|]; [|discriminate].
    simpl in Hs'. injection Hs' as <-. simpl in Hg'. now injection Hg' as <-.
  - rewrite lookup_alter_ne in Hs' by assumption.
    eapply wf_group; eassumption.
Qed.

Lemma attr_attached_before_del sid g sub G C s :
  subcommand_attr (attached_before_del sid g sub G C s)
  = alter (set_group (Some g)) sid (subcommand_attr s).
Proof. unfold attached_before_del. now destruct (is_app (cmd_kind C)). Qed.

Lemma attr_refused_state sid g C s :
  subcommand_attr (refused_state sid g C s)
  = alter (set_group (Some g)) sid (subcommand_attr s).
Proof. unfold refused_state. now destruct (is_app (cmd_kind C)). Qed.

Lemma registry_attached_before_del sid g sub G C s :
  __commands (attached_before_del sid g sub G C s) = __commands s
  /\ _not_found (attached_before_del sid g sub G C s) = _not_found s
  /\ loaded_cogs (attached_before_del sid g sub G C s) = loaded_cogs s.
Proof. unfold attached_before_del. now destruct (is_app (cmd_kind C)). Qed.

Lemma registry_refused_state sid g C s :
  __commands (refused_state sid g C s) = __commands s
  /\ _not_found (refused_state sid g C s) = _not_found s
  /\ loaded_cogs (refused_state sid g C s) = loaded_cogs s.
Proof. unfold refused_state. now destruct (is_app (cmd_kind C)). Qed.

(** One turn of the inner loop keeps the state well formed, however it
    ends. *)
Lemma handle_entry_well_formed cog_name sid :
  preserves keeps_well_formed (handle_entry cog_name sid).
Proof.
  intros s r s' H W.
  apply handle_entry_inv in H as [[-> _]|(g & sub & C & G & Hf & Hs & HC & HG & H)];
    [assumption|].
  destruct H as [(p & _ & -> & _)|[(Hp & Hm & -> & _)|(Hp & Hm & Hdel)]];
    [assumption| |].
  - destruct (registry_refused_state sid g C s) as (E1 & E2 & E3).
    apply (well_formed_frame s); try assumption.
    + apply statics_refused_state.
    + eapply groups_valid_after_set; eauto using statics_refused_state,
        attr_refused_state.
    + intros k1 k2 v. now rewrite E2.
    + rewrite E2. now apply wf_keys.
    + rewrite E2. now apply wf_bucket_keys.
  - set (s1 := attached_before_del sid g sub G C s) in *.
    destruct (registry_attached_before_del sid g sub G C s) as (E1 & E2 & E3).
    fold s1 in E1, E2, E3.
    assert (Hst : statics s s1) by apply statics_attached_before_del.
    assert (Hgr : forall sid' sub' g',
               subcommand_attr s1 !! sid' = Some sub' -> _group sub' = Some g' ->
               is_Some (objs s1 !! g')).
    { eapply groups_valid_after_set; eauto using attr_attached_before_del. }
    clearbody s1.
    apply del_not_found_inv in Hdel as [(_ & _ & ->)|(_ & _ & ->)];
      (apply (well_formed_frame s);
       [ eapply statics_trans; [exact Hst | apply statics_with_not_found]
       | exact E1 | exact Hgr | .. | exact W ]);
      simpl; rewrite ?E2.
    + intros k1 k2 v. rewrite dd_get_set_remove.
      destruct (_ && _); [discriminate | auto].
    + apply NoDup_keys_set, wf_keys, W.
    + intros c b Hin. apply In_set in Hin as [[_ ->]|Hin].
      * apply NoDup_keys_remove, bucket_NoDup, wf_bucket_keys, W.
      * eapply wf_bucket_keys; eassumption.
    + intros k1 k2 v. now rewrite dd_get_set_default.
    + apply NoDup_keys_set, wf_keys, W.
    + intros c b Hin. apply In_set in Hin as [[_ ->]|Hin].
      * apply bucket_NoDup, wf_bucket_keys, W.
      * eapply wf_bucket_keys; eassumption.
Qed.

Lemma keeps_well_formed_refl s : keeps_well_formed s s.
Proof. unfold keeps_well_formed. auto. Qed.

Lemma keeps_well_formed_trans s1 s2 s3 :
  keeps_well_formed s1 s2 -> keeps_well_formed s2 s3 -> keeps_well_formed s1 s3.
Proof. unfold keeps_well_formed. auto. Qed.

Lemma dd_get_remove_Some c (d : Dict.t (Dict.t nat)) k1 k2 v :
  dd_get k1 k2 (Dict.remove c d) = Some v -> dd_get k1 k2 d = Some v.
Proof.
  unfold dd_get, Dict.t in *.
  destruct (Dict.get k1 (Dict.remove c d)) as [b|] eqn:E; [|discriminate].
  apply get_remove_Some in E. now rewrite E.
Qed.

Lemma well_formed_drop_unresolved c s :
  well_formed s -> well_formed (with_not_found (Dict.remove c) s).
Proof.
  intros W. apply (well_formed_frame s); simpl; auto.
  - apply statics_with_not_found.
  - apply W.
  - intros k1 k2 v. apply dd_get_remove_Some.
  - apply NoDup_keys_remove, W.
  - intros c' b Hin. apply In_remove in Hin. eapply wf_bucket_keys; eassumption.
Qed.

Lemma handle_bucket_well_formed item :
  preserves keeps_well_formed (handle_bucket item).
Proof.
  unfold handle_bucket.
  pres_with keeps_well_formed_refl keeps_well_formed_trans
    ltac:(first [ apply handle_entry_well_formed
                | intros W; now apply well_formed_drop_unresolved ]).
Qed.

Lemma handle_commands_well_formed :
  preserves keeps_well_formed __handle_commands.
Proof.
  unfold __handle_commands.
  pres_with keeps_well_formed_refl keeps_well_formed_trans
    ltac:(apply handle_bucket_well_formed).
Qed.

(** ** Unloading *)

Lemma only_detaches_refl s : only_detaches s s.
Proof. unfold only_detaches. split; intros; eauto. Qed.

Lemma only_detaches_trans s1 s2 s3 :
  only_detaches s1 s2 -> only_detaches s2 s3 -> only_detaches s1 s3.
Proof.
  intros [A1 B1] [A2 B2]. split.
  - intros i sub' g H1 H2. destruct (A2 _ _ _ H1 H2) as (sub & H3 & H4). eauto.
  - intros i C' p H1 H2. destruct (B2 _ _ _ H1 H2) as (C & H3 & H4). eauto.
Qed.

Lemma lookup_alter_Some_inv {A} (f : A -> A) i (m : gmap nat A) j y :
  alter f i m !! j = Some y ->
  exists x, m !! j = Some x /\ (y = x \/ (i = j /\ y = f x)).
Proof.
  destruct (decide (i = j)) as [->|Hne].
  - rewrite lookup_alter_eq. destruct (m !! j) as [x|]; [|discriminate].
    simpl. intros [= <-]. eauto.
  - rewrite lookup_alter_ne by assumption. eauto.
Qed.

Ltac detaches_case :=
  let H1 := fresh "H" in
  let H2 := fresh "H" in
  intros ? ? ? H1 H2;
  repeat (apply lookup_alter_Some_inv in H1 as (? & H1 & [->|[_ ->]]));
  simpl in *; try discriminate; eauto.

Ltac detaches_leaf :=
  match goal with |- only_detaches _ _ => idtac end;
  unfold only_detaches; simpl; split; detaches_case.

Lemma detaches_REMOVE sid g :
  preserves only_detaches (__handle_prefix_hybrid_command REMOVE sid g)
  /\ preserves only_detaches (__handle_app_command REMOVE sid g).
Proof.
  unfold __handle_prefix_hybrid_command, __handle_app_command,
    group_remove_command.
  split; pres_with only_detaches_refl only_detaches_trans detaches_leaf.
Qed.

Lemma remove_entry_frames sid :
  preserves statics (remove_entry sid)
  /\ preserves keeps_registry (remove_entry sid)
  /\ preserves only_detaches (remove_entry sid).
Proof.
  unfold remove_entry. split; [|split].
  - pres_with statics_refl statics_trans ltac:(apply statics_handlers).
  - pres_with keeps_registry_refl keeps_registry_trans
      ltac:(apply registry_handlers).
  - pres_with only_detaches_refl only_detaches_trans
      ltac:(apply detaches_REMOVE).
Qed.

Lemma original_cog_remove_frames n :
  preserves statics (original_cog_remove n)
  /\ preserves keeps_registry (original_cog_remove n)
  /\ preserves only_detaches (original_cog_remove n).
Proof.
  unfold original_cog_remove, unregister_top, bot_remove_command,
    tree_remove_command.
  split; [|split].
  - pres_with statics_refl statics_trans statics_leaf.
  - pres_with keeps_registry_refl keeps_registry_trans registry_leaf.
  - pres_with only_detaches_refl only_detaches_trans detaches_leaf.
Qed.

Lemma well_formed_detach_frame s s' :
  statics s s' -> keeps_registry s s' -> only_detaches s s' ->
  well_formed s -> well_formed s'.
Proof.
  intros Hst [Hk Hnf] [Hg _] W.
  apply (well_formed_frame s); try assumption.
  - intros sid sub g H1 H2. destruct (Hg _ _ _ H1 H2) as (sub0 & H3 & H4).
    eapply statics_is_Some; [eassumption|]. eapply wf_group; eassumption.
  - intros k1 k2 v. now rewrite Hnf.
  - rewrite Hnf. apply W.
  - rewrite Hnf. apply W.
Qed.

(** Detaching a declaration that was never attached does nothing and
    raises nothing. *)
Lemma remove_entry_unattached s sid sub C :
  subcommand_attr s !! sid = Some sub ->
  objs s !! _command sub = Some C ->
  _group sub = None ->
  remove_entry sid s = (Ok tt, s).
Proof.
  intros Hs HC Hg. unfold remove_entry. do 2 step_ok.
  destruct (is_app (cmd_kind C));
    unfold __handle_app_command, __handle_prefix_hybrid_command;
    do 2 step_ok; now rewrite Hg.
Qed.

Lemma remove_entry_attached s sid sub C g G :
  subcommand_attr s !! sid = Some sub ->
  objs s !! _command sub = Some C ->
  _group sub = Some g ->
  objs s !! g = Some G ->
  remove_entry sid s = (Ok tt, detached_state sid g (cmd_name C) G s).
Proof.
  intros Hs HC Hg HG. unfold remove_entry. do 2 step_ok.
  unfold detached_state.
  destruct (is_app (cmd_kind C));
    unfold __handle_app_command, __handle_prefix_hybrid_command;
    do 2 step_ok; rewrite Hg; unfold group_remove_command;
    destruct (Dict.get (cmd_name C) (cmd_children G)) as [x|] eqn:Hx;
    (erewrite bind_Ok;
     [| erewrite bind_Ok by (apply get_cmd_Some; eassumption);
        rewrite Hx; reflexivity ]);
    reflexivity.
Qed.

(** What detaching does to an object of the store. *)
Lemma detach_lookup g name G (o : gmap nat command) i Ci :
  o !! i = Some Ci ->
  exists Ci',
    alter (set_children (Dict.remove name (cmd_children G))) g o !! i
    = Some Ci'
    /\ cmd_name Ci' = cmd_name Ci
    /\ cmd_parent Ci' = cmd_parent Ci
    /\ cmd_children Ci' =
       (if decide (g = i) then Dict.remove name (cmd_children G)
        else cmd_children Ci).
Proof.
  intros Hi.
  destruct (decide (g = i)) as [->|Hg];
    rewrite ?lookup_alter_eq, ?lookup_alter_ne by assumption;
    rewrite Hi; simpl; eauto.
Qed.

Lemma remove_loop_runs l : forall s,
  well_formed s ->
  (forall sid, In sid l -> exists k1 k2, dd_get k1 k2 (__commands s) = Some sid) ->
  exists s',
    for_each l remove_entry s = (Ok tt, s')
    /\ statics s s' /\ keeps_registry s s' /\ only_detaches s s'
    /\ well_formed s'.
Proof.
  induction l as [|sid l IH]; intros s W Hl.
  - exists s. simpl. unfold ret.
    auto using statics_refl, keeps_registry_refl, only_detaches_refl.
  - destruct (Hl sid (or_introl eq_refl)) as (k1 & k2 & Hk).
    pose proof (wf_entry s W _ _ _ Hk) as Hn. unfold entry_name in Hn.
    destruct (subcommand_attr s !! sid) as [sub|] eqn:Hs; [|discriminate].
    destruct (objs s !! _command sub) as [C|] eqn:HC; [|discriminate].
    assert (Hrun : exists s1, remove_entry sid s = (Ok tt, s1)).
    { destruct (_group sub) as [g|] eqn:Hg.
      - destruct (wf_group s W _ _ _ Hs Hg) as [G HG].
        eexists. eapply remove_entry_attached; eassumption.
      - eexists. eapply remove_entry_unattached; eassumption. }
    destruct Hrun as [s1 Hrun].
    destruct (remove_entry_frames sid) as (F1 & F2 & F3).
    pose proof (F1 _ _ _ Hrun) as S1. pose proof (F2 _ _ _ Hrun) as S2.
    pose proof (F3 _ _ _ Hrun) as S3.
    assert (W1 : well_formed s1) by (eapply well_formed_detach_frame; eassumption).
    destruct (IH s1 W1) as (s' & Hrun' & S1' & S2' & S3' & W').
    { intros sid' Hin. destruct (Hl sid' (or_intror Hin)) as (a & b & Hab).
      exists a, b. destruct S2 as [-> _]. exact Hab. }
    exists s'. simpl. rewrite (bind_Ok _ _ _ _ _ Hrun).
    eauto 10 using statics_trans, keeps_registry_trans, only_detaches_trans.
Qed.

Lemma remove_entry_inv s sid s' :
  remove_entry sid s = (Ok tt, s') ->
  exists sub C,
    subcommand_attr s !! sid = Some sub /\
    objs s !! _command sub = Some C /\
    ((_group sub = None /\ s' = s)
     \/ exists g G, _group sub = Some g /\ objs s !! g = Some G /\
                    s' = detached_state sid g (cmd_name C) G s).
Proof.
  intros H.
  destruct (subcommand_attr s !! sid) as [sub|] eqn:Hs.
  2:{ unfold remove_entry in H.
      erewrite bind_Raise in H by (unfold get_sub; rewrite Hs; reflexivity).
      discriminate. }
  destruct (objs s !! _command sub) as [C|] eqn:HC.
  2:{ unfold remove_entry in H.
      erewrite bind_Ok in H by (apply get_sub_Some; eassumption).
      erewrite bind_Raise in H by (unfold get_cmd; rewrite HC; reflexivity).
      discriminate. }
  exists sub, C. split; [reflexivity|]. split; [assumption|].
  destruct (_group sub) as [g|] eqn:Hg.
  - right. destruct (objs s !! g) as [G|] eqn:HG.
    + rewrite (remove_entry_attached s sid sub C g G Hs HC Hg HG) in H.
      injection H as <-. eauto.
    + exfalso. unfold remove_entry in H.
      erewrite bind_Ok in H by (apply get_sub_Some; eassumption).
      erewrite bind_Ok in H by (apply get_cmd_Some; eassumption).
      destruct (is_app (cmd_kind C));
        unfold __handle_app_command, __handle_prefix_hybrid_command in H;
        erewrite bind_Ok in H by (apply get_sub_Some; eassumption);
        erewrite bind_Ok in H by (apply get_cmd_Some; eassumption);
        rewrite Hg in H; unfold group_remove_command in H;
        (erewrite bind_Raise in H;
         [| erewrite bind_Raise; [reflexivity|];
            unfold get_cmd; rewrite HG; reflexivity ]);
        discriminate.
  - left. rewrite (remove_entry_unattached s sid sub C Hs HC Hg) in H.
    injection H as <-. auto.
Qed.


Lemma only_drops_children_trans s1 s2 s3 :
  only_drops_children s1 s2 -> only_drops_children s2 s3 ->
  only_drops_children s1 s3.
Proof.
  intros H1 H2 i C H.
  destruct (H1 i C H) as (C2 & E2 & N2 & P2 & K2).
  destruct (H2 i C2 E2) as (C3 & E3 & N3 & P3 & K3).
  exists C3. repeat split; [assumption|congruence|congruence|auto].
Qed.







Lemma same_store_refl s : same_store s s.
Proof. split; reflexivity. Qed.

Lemma same_store_trans s1 s2 s3 :
  same_store s1 s2 -> same_store s2 s3 -> same_store s1 s3.
Proof. intros [] []. split; congruence. Qed.

Ltac store_leaf :=
  match goal with |- same_store _ _ => idtac end;
  unfold same_store; simpl; split; reflexivity.

Lemma original_cog_remove_store n :
  preserves same_store (original_cog_remove n).
Proof.
  unfold original_cog_remove, unregister_top, bot_remove_command,
    tree_remove_command.
  pres_with same_store_refl same_store_trans store_leaf.
Qed.

Lemma unregister_loop_runs app l : forall s,
  exists s', for_each l (unregister_top app) s = (Ok tt, s').
Proof.
  induction l as [|i l IH]; intros s; simpl; [eexists; reflexivity|].
  assert (H : exists s1, unregister_top app i s = (Ok tt, s1)).
  { unfold unregister_top, bind, gets. simpl.
    destruct (objs s !! i) as [c|]; [|eexists; reflexivity].
    destruct (cmd_parent c); [eexists; reflexivity|].
    destruct app; eexists; reflexivity. }
  destruct H as [s1 H]. rewrite (bind_Ok _ _ _ _ _ H). apply IH.
Qed.

(** The host's plugin-remove returns and touches neither the objects,
    nor the declarations, nor the registries. *)
Lemma original_cog_remove_runs n s :
  exists s0,
    original_cog_remove n s = (Ok tt, s0)
    /\ same_store s s0 /\ keeps_registry s s0.
Proof.
  assert (H : exists s0, original_cog_remove n s = (Ok tt, s0)).
  { unfold original_cog_remove. erewrite bind_Ok by apply gets_run.
    destruct (Dict.get n (loaded_cogs s)) as [cg|]; [|eexists; reflexivity].
    erewrite bind_Ok by apply modify_run.
    destruct (unregister_loop_runs false (cog_commands cg)
                (with_loaded_cogs (Dict.remove n) s)) as [s1 H1].
    rewrite (bind_Ok _ _ _ _ _ H1). apply unregister_loop_runs. }
  destruct H as [s0 H]. exists s0. split; [assumption|]. split.
  - eapply original_cog_remove_store, H.
  - eapply original_cog_remove_frames, H.
Qed.

Lemma well_formed_same_store s s' :
  same_store s s' -> keeps_registry s s' -> well_formed s -> well_formed s'.
Proof.
  intros [Ho Ha] [Hk Hn] [W1 W2 W3 W4 W5 W6 W7 W8 W9].
  constructor; rewrite ?Ho, ?Ha, ?Hk, ?Hn; try assumption.
  intros k1 k2 sid H. specialize (W2 k1 k2 sid H).
  unfold entry_name in *. now rewrite Ho, Ha.
Qed.

Lemma attached_to_same_store s s' sid g :
  same_store s s' -> attached_to s sid g -> attached_to s' sid g.
Proof. intros [Ho Ha]. unfold attached_to. now rewrite Ho, Ha. Qed.

Lemma In_values_get (b : Dict.t nat) v :
  List.NoDup (Dict.keys b) -> In v (Dict.values b) ->
  exists k, Dict.get k b = Some v.
Proof.
  intros Hnd Hin. unfold Dict.values in Hin. apply in_map_iff in Hin
    as ([k v'] & E & Hin). simpl in E. subst v'.
  exists k. now apply In_get_NoDup.
Qed.


(** ** Loading *)

Lemma dd_get_dd_set n k v (d : Dict.t (Dict.t nat)) k1 k2 :
  dd_get k1 k2 (dd_set n k v d) =
  if String.eqb k1 n && String.eqb k2 k then Some v else dd_get k1 k2 d.
Proof.
  unfold dd_get, dd_set, Dict.t in *.
  destruct (String.eqb_spec k1 n) as [->|Hne]; simpl.
  - rewrite get_set_eq.
    destruct (String.eqb_spec k2 k) as [->|Hne2].
    + apply get_set_eq.
    + rewrite get_set_ne by assumption.
      destruct (Dict.get n d); reflexivity.
  - now rewrite get_set_ne.
Qed.

Lemma dd_set_NoDup n k v (d : Dict.t (Dict.t nat)) :
  List.NoDup (Dict.keys d) ->
  (forall c b, In (c, b) d -> List.NoDup (Dict.keys b)) ->
  List.NoDup (Dict.keys (dd_set n k v d))
  /\ (forall c b, In (c, b) (dd_set n k v d) -> List.NoDup (Dict.keys b)).
Proof.
  intros H1 H2. unfold dd_set. split.
  - now apply NoDup_keys_set.
  - intros c b Hin. apply In_set in Hin as [[_ ->]|Hin]; [|eauto].
    apply NoDup_keys_set. now apply bucket_NoDup.
Qed.

Lemma record_command_inv cog_name i s r s' :
  record_command cog_name i s = (r, s') ->
  s' = s
  \/ exists c sub0,
       objs s !! i = Some c /\
       subcommand_attr s !! cmd_callback c = Some sub0 /\
       r = Ok tt /\ s' = recorded_state cog_name i c s.
Proof.
  unfold record_command, __get_subcommand. intros H.
  destruct (objs s !! i) as [c|] eqn:Hc.
  2:{ erewrite bind_Raise in H
        by (erewrite bind_Raise; [reflexivity|];
            unfold get_cmd; rewrite Hc; reflexivity).
      injection H as _ <-. now left. }
  destruct (subcommand_attr s !! cmd_callback c) as [sub0|] eqn:Hs.
  - right. exists c, sub0. split; [reflexivity|]. split; [assumption|].
    erewrite bind_Ok in H.
    2:{ erewrite bind_Ok by (apply get_cmd_Some; eassumption).
        erewrite bind_Ok by apply gets_run. rewrite Hs.
        erewrite bind_Ok by apply modify_run. reflexivity. }
    cbv beta iota in H.
    erewrite bind_Ok in H by (apply get_cmd_Some; simpl; eassumption).
    erewrite bind_Ok in H by apply modify_run.
    unfold modify in H. injection H as <- <-. split; reflexivity.
  - left. erewrite bind_Ok in H.
    2:{ erewrite bind_Ok by (apply get_cmd_Some; eassumption).
        erewrite bind_Ok by apply gets_run. rewrite Hs. reflexivity. }
    now injection H as _ <-.
Qed.

Lemma entry_name_recorded cog_name i c sub0 s sid :
  well_formed s ->
  objs s !! i = Some c ->
  subcommand_attr s !! cmd_callback c = Some sub0 ->
  entry_name (recorded_state cog_name i c s) sid =
  if decide (cmd_callback c = sid) then Some (cmd_name c)
  else entry_name s sid.
Proof.
  intros W Hc Hs. unfold entry_name, recorded_state. simpl.
  case_decide as E.
  - subst sid. rewrite lookup_alter_eq, Hs. simpl. now rewrite Hc.
  - now rewrite lookup_alter_ne.
Qed.

Lemma recorded_state_well_formed cog_name i c sub0 s :
  objs s !! i = Some c ->
  subcommand_attr s !! cmd_callback c = Some sub0 ->
  well_formed s -> well_formed (recorded_state cog_name i c s).
Proof.
  intros Hc Hs W.
  destruct (dd_set_NoDup cog_name (cmd_name c) (cmd_callback c) (_not_found s))
    as [N1 N2]; [apply W | apply W |].
  destruct (dd_set_NoDup cog_name (cmd_name c) (cmd_callback c) (__commands s))
    as [N3 N4]; [apply W | apply W |].
  constructor; try assumption.
  - intros k1 k2 sid. simpl. rewrite !dd_get_dd_set.
    destruct (_ && _); [auto | apply W].
  - intros k1 k2 sid. rewrite (entry_name_recorded _ _ _ sub0) by assumption.
    simpl. rewrite dd_get_dd_set.
    destruct (String.eqb_spec k1 cog_name) as [->|Hne1];
      destruct (String.eqb_spec k2 (cmd_name c)) as [->|Hne2]; simpl.
    + intros [= <-]. now rewrite decide_True.
    + intros H. case_decide as E; [|eapply wf_entry; eassumption].
      subst sid. pose proof (wf_entry s W _ _ _ H) as Hn.
      unfold entry_name in Hn. rewrite Hs in Hn.
      destruct (wf_decorated s W _ _ Hs) as (c0 & Hc0 & Hcb).
      rewrite Hc0 in Hn. injection Hn as Hn.
      assert (Hnm : cmd_name c0 = cmd_name c)
        by (eapply (wf_callbacks s W); eauto).
      congruence.
    + intros H. case_decide as E; [|eapply wf_entry; eassumption].
      subst sid. pose proof (wf_entry s W _ _ _ H) as Hn.
      unfold entry_name in Hn. rewrite Hs in Hn.
      destruct (wf_decorated s W _ _ Hs) as (c0 & Hc0 & Hcb).
      rewrite Hc0 in Hn. injection Hn as Hn.
      assert (Hnm : cmd_name c0 = cmd_name c)
        by (eapply (wf_callbacks s W); eauto).
      congruence.
    + intros H. case_decide as E; [|eapply wf_entry; eassumption].
      subst sid. pose proof (wf_entry s W _ _ _ H) as Hn.
      unfold entry_name in Hn. rewrite Hs in Hn.
      destruct (wf_decorated s W _ _ Hs) as (c0 & Hc0 & Hcb).
      rewrite Hc0 in Hn. injection Hn as Hn.
      assert (Hnm : cmd_name c0 = cmd_name c)
        by (eapply (wf_callbacks s W); eauto).
      congruence.
  - intros sid sub Hsub. simpl in Hsub.
    apply lookup_alter_Some_inv in Hsub as (sub1 & H1 & [->|[<- ->]]).
    + simpl. eapply (wf_decorated s W); eassumption.
    + simpl. eauto.
  - intros sid sub g Hsub Hg. simpl in Hsub.
    apply lookup_alter_Some_inv in Hsub as (sub1 & H1 & [->|[<- ->]]).
    + simpl. eapply (wf_group s W); eassumption.
    + simpl in *. eapply (wf_group s W); eassumption.
  - apply W.
Qed.

Lemma record_command_well_formed cog_name i :
  preserves keeps_well_formed (record_command cog_name i).
Proof.
  intros s r s' H W. apply record_command_inv in H
    as [->|(c & sub0 & Hc & Hs & _ & ->)]; [assumption|].
  eapply recorded_state_well_formed; eassumption.
Qed.

Lemma same_known_refl s : same_known s s.
Proof. split; reflexivity. Qed.

Lemma same_known_trans s1 s2 s3 :
  same_known s1 s2 -> same_known s2 s3 -> same_known s1 s3.
Proof. intros [] []. split; congruence. Qed.

Ltac known_leaf :=
  match goal with |- same_known _ _ => idtac end;
  unfold same_known; simpl; split; reflexivity.

Lemma same_known_del_not_found c n : preserves same_known (del_not_found c n).
Proof.
  intros s r s'. unfold del_not_found.
  destruct (Dict.mem _ _); intros [= <- <-]; known_leaf.
Qed.

Lemma same_known_handlers act sid g :
  preserves same_known (__handle_prefix_hybrid_command act sid g)
  /\ preserves same_known (__handle_app_command act sid g).
Proof.
  unfold __handle_prefix_hybrid_command, __handle_app_command,
    bot_remove_command, tree_remove_command, group_add_command,
    group_remove_command, command_error.
  split; pres_with same_known_refl same_known_trans known_leaf.
Qed.

Lemma same_known_handle_commands : preserves same_known __handle_commands.
Proof.
  unfold __handle_commands, handle_bucket, handle_entry.
  pres_with same_known_refl same_known_trans
    ltac:(first [ apply same_known_handlers
                | apply same_known_del_not_found
                | known_leaf ]).
Qed.

Lemma same_known_remove_entry sid : preserves same_known (remove_entry sid).
Proof.
  unfold remove_entry.
  pres_with same_known_refl same_known_trans ltac:(apply same_known_handlers).
Qed.

Lemma register_top_frames app i :
  preserves same_store (register_top app i)
  /\ preserves keeps_registry (register_top app i)
  /\ preserves same_known (register_top app i).
Proof.
  unfold register_top. split; [|split].
  - pres_with same_store_refl same_store_trans
      ltac:(destruct app; store_leaf).
  - pres_with keeps_registry_refl keeps_registry_trans
      ltac:(destruct app; registry_leaf).
  - pres_with same_known_refl same_known_trans
      ltac:(destruct app; known_leaf).
Qed.

Lemma register_loops_frames cg :
  let m := (for_each (cog_commands cg) (register_top false) ;;;
            for_each (cog_app_commands cg) (register_top true)) in
  preserves same_store m /\ preserves keeps_registry m
  /\ preserves same_known m.
Proof.
  cbv zeta. split; [|split].
  - pres_with same_store_refl same_store_trans
      ltac:(apply register_top_frames).
  - pres_with keeps_registry_refl keeps_registry_trans
      ltac:(apply register_top_frames).
  - pres_with same_known_refl same_known_trans
      ltac:(apply register_top_frames).
Qed.

(** The host's plugin-add either refuses and changes nothing, or enters
    the cog among the loaded ones and touches only the top-level
    tables. *)
Lemma original_cog_add_inv cg s r s' :
  original_cog_add cg s = (r, s') ->
  (s' = s /\ exists e, r = Raise e)
  \/ (r = Ok tt
      /\ exists s1,
           same_store s s1 /\ keeps_registry s s1 /\ same_known s s1
           /\ s' = with_loaded_cogs (Dict.set (cog_qualified_name cg) cg) s1).
Proof.
  unfold original_cog_add.
  destruct (Dict.mem _ _); [intros [= <- <-]; left; eauto|].
  destruct ((for_each (cog_commands cg) (register_top false);;;
             for_each (cog_app_commands cg) (register_top true)) s)
    as [[[]|e] s1] eqn:E; intros [= <- <-]; [|left; eauto].
  right. split; [reflexivity|]. exists s1.
  destruct (register_loops_frames cg) as (F1 & F2 & F3).
  specialize (F1 _ _ _ E). specialize (F2 _ _ _ E). specialize (F3 _ _ _ E).
  auto.
Qed.

(** ** The invariant of the manager *)

Lemma mem_set {V} (d : Dict.t V) k v k' :
  Dict.mem k' (Dict.set k v d) = String.eqb k' k || Dict.mem k' d.
Proof.
  unfold Dict.mem. destruct (String.eqb_spec k' k) as [->|Hne]; simpl.
  - now rewrite get_set_eq.
  - now rewrite get_set_ne.
Qed.

Lemma mem_remove {V} (d : Dict.t V) k k' :
  Dict.mem k' (Dict.remove k d) = negb (String.eqb k' k) && Dict.mem k' d.
Proof.
  unfold Dict.mem. destruct (String.eqb_spec k' k) as [->|Hne]; simpl.
  - now rewrite get_remove_eq.
  - now rewrite get_remove_ne.
Qed.

Lemma dd_get_remove n (d : Dict.t (Dict.t nat)) k1 k2 :
  dd_get k1 k2 (Dict.remove n d) =
  if String.eqb k1 n then None else dd_get k1 k2 d.
Proof.
  unfold dd_get, Dict.t in *.
  destruct (String.eqb_spec k1 n) as [->|Hne].
  - now rewrite get_remove_eq.
  - now rewrite get_remove_ne.
Qed.

Lemma unchanged_refl s : unchanged s s.
Proof. reflexivity. Qed.

Lemma unchanged_trans s1 s2 s3 :
  unchanged s1 s2 -> unchanged s2 s3 -> unchanged s1 s3.
Proof. unfold unchanged. congruence. Qed.

(** The report only reads. *)
Lemma report_unchanged : preserves unchanged raise_for_remaining_commands.
Proof.
  unfold raise_for_remaining_commands, report_entry.
  pres_with unchanged_refl unchanged_trans fail.
Qed.

Lemma known_are_loaded_same s s' :
  same_known s s' -> known_are_loaded s -> known_are_loaded s'.
Proof. intros [Hk Hl] H k. rewrite Hk, Hl. apply H. Qed.

Lemma pass_invariant s r s' :
  __handle_commands s = (r, s') ->
  manager_invariant s -> manager_invariant s'.
Proof.
  intros H [W L]. split.
  - eapply handle_commands_well_formed; eassumption.
  - eapply known_are_loaded_same; [|eassumption].
    eapply same_known_handle_commands, H.
Qed.

Lemma record_loop_invariant n l : forall s r s',
  for_each l (record_command n) s = (r, s') ->
  manager_invariant s -> Dict.mem n (loaded_cogs s) = true ->
  manager_invariant s' /\ Dict.mem n (loaded_cogs s') = true.
Proof.
  induction l as [|i l IH]; intros s r s' H I Hn.
  - injection H as _ <-. auto.
  - simpl in H.
    assert (Hstep : forall r1 s1, record_command n i s = (r1, s1) ->
              manager_invariant s1 /\ Dict.mem n (loaded_cogs s1) = true).
    { intros r1 s1 H1. destruct I as [W L].
      pose proof (record_command_well_formed n i _ _ _ H1 W) as W1.
      apply record_command_inv in H1 as [->|(c & sub0 & Hc & Hs & _ & ->)];
        [split; [split|]; assumption|].
      split; [split; [assumption|]|exact Hn].
      intros k. simpl. unfold dd_set. rewrite mem_set.
      destruct (String.eqb_spec k n) as [->|Hne]; simpl; [auto | apply L]. }
    apply bind_inv in H as [([] & s1 & H1 & H2)|(e & H1 & _)].
    + destruct (Hstep _ _ H1) as [I1 Hn1]. eapply IH; eassumption.
    + eapply Hstep, H1.
Qed.

Lemma load_invariant cg s r s' :
  __cog_add cg s = (r, s') ->
  manager_invariant s -> manager_invariant s'.
Proof.
  unfold __cog_add. intros H I.
  apply bind_inv in H as [([] & s1 & H1 & H2)|(e & H1 & _)].
  2:{ apply original_cog_add_inv in H1 as [[-> _]|[[=] _]]. assumption. }
  apply original_cog_add_inv in H1
    as [[_ [e [=]]]|(_ & s0 & St & Rg & Kn & ->)].
  set (n := cog_qualified_name cg) in *.
  assert (I1 : manager_invariant (with_loaded_cogs (Dict.set n cg) s0)
               /\ Dict.mem n (loaded_cogs
                                (with_loaded_cogs (Dict.set n cg) s0)) = true).
  { destruct I as [W L]. split; [split|].
    - eapply (well_formed_same_store s0); [split; reflexivity
                                          |split; reflexivity|].
      eapply well_formed_same_store; eassumption.
    - intros k. simpl. destruct Kn as [-> ->]. rewrite mem_set.
      intros Hk. rewrite (L k Hk). apply orb_true_r.
    - simpl. rewrite mem_set, String.eqb_refl. reflexivity. }
  destruct I1 as [I1 Hn].
  apply bind_inv in H2 as [(s2 & s3 & [= <- <-] & H2)|(e & [=] & _)].
  apply bind_inv in H2 as [([] & s4 & H3 & H4)|(e & H3 & _)].
  - destruct (record_loop_invariant _ _ _ _ _ H3 I1 Hn) as [I4 _].
    eapply pass_invariant; eassumption.
  - eapply record_loop_invariant; eassumption.
Qed.

Lemma well_formed_drop_cog n s :
  well_formed s ->
  well_formed (with_not_found (Dict.remove n)
                 (with_commands (Dict.remove n) s)).
Proof.
  intros W. constructor; simpl.
  - intros k1 k2 sid. rewrite !dd_get_remove.
    destruct (String.eqb k1 n); [discriminate | apply W].
  - intros k1 k2 sid H. apply dd_get_remove_Some in H.
    exact (wf_entry s W _ _ _ H).
  - apply W.
  - apply W.
  - apply W.
  - apply NoDup_keys_remove, W.
  - intros c b Hin. apply In_remove in Hin. eapply wf_bucket_keys; eassumption.
  - apply NoDup_keys_remove, W.
  - intros c b Hin. apply In_remove in Hin.
    eapply wf_known_bucket_keys; eassumption.
Qed.

Lemma loaded_but_refl n s : loaded_but n s s.
Proof. unfold loaded_but. auto. Qed.

Lemma loaded_but_trans n s1 s2 s3 :
  loaded_but n s1 s2 -> loaded_but n s2 s3 -> loaded_but n s1 s3.
Proof. unfold loaded_but. auto. Qed.

Lemma original_cog_remove_loaded n :
  preserves (loaded_but n) (original_cog_remove n).
Proof.
  unfold original_cog_remove, unregister_top, bot_remove_command,
    tree_remove_command.
  pres_with (loaded_but_refl n) (loaded_but_trans n)
    ltac:(match goal with |- loaded_but _ _ _ => idtac end;
          unfold loaded_but; simpl; intros k Hk Hm;
          first [ exact Hm
                | rewrite mem_remove, Hm;
                  apply String.eqb_neq in Hk; now rewrite Hk ]).
Qed.

(** In a well-formed state an unload runs to its end. *)
Lemma cog_remove_runs n s :
  well_formed s ->
  exists s0 s1,
    original_cog_remove n s = (Ok tt, s0)
    /\ same_store s s0 /\ keeps_registry s s0 /\ loaded_but n s s0
    /\ for_each (Dict.values (default [] (Dict.get n (__commands s0))))
         remove_entry s0 = (Ok tt, s1)
    /\ statics s0 s1 /\ keeps_registry s0 s1 /\ only_detaches s0 s1
    /\ same_known s0 s1 /\ well_formed s1
    /\ __cog_remove n s =
       (Ok tt, with_not_found (Dict.remove n)
                 (with_commands (Dict.remove n) s1)).
Proof.
  intros W.
  destruct (original_cog_remove_runs n s) as (s0 & H0 & St & Rg).
  assert (W0 : well_formed s0) by (eapply well_formed_same_store; eassumption).
  set (l := Dict.values (default [] (Dict.get n (__commands s0)))).
  destruct (remove_loop_runs l s0 W0) as (s1 & H1 & S1 & R1 & D1 & W1).
  { intros sid' Hin'. subst l.
    destruct (Dict.get n (__commands s0)) as [b|] eqn:Hb; [|destruct Hin'].
    simpl in Hin'.
    destruct (In_values_get b sid') as [k Hget]; [|assumption|].
    - eapply wf_known_bucket_keys; [exact W0|]. eapply get_In, Hb.
    - exists n, k. unfold dd_get. now rewrite Hb. }
  exists s0, s1. repeat (split; [first [assumption
                                      | eapply original_cog_remove_loaded, H0]|]).
  split.
  { eapply (preserves_for_each _ same_known_refl same_known_trans);
      [|exact H1]. intros x _. apply same_known_remove_entry. }
  split; [assumption|].
  unfold __cog_remove. rewrite (bind_Ok _ _ _ _ _ H0).
  erewrite bind_Ok by apply gets_run. fold l.
  rewrite (bind_Ok _ _ _ _ _ H1). reflexivity.
Qed.

Lemma unload_invariant n s r s' :
  __cog_remove n s = (r, s') ->
  manager_invariant s -> manager_invariant s'.
Proof.
  intros H [W L].
  destruct (cog_remove_runs n s W)
    as (s0 & s1 & _ & _ & Rg & Lb & _ & _ & Rg1 & _ & Kn & W1 & Hrun).
  rewrite Hrun in H. injection H as _ <-. split.
  - now apply well_formed_drop_cog.
  - intros k. simpl. rewrite mem_remove.
    destruct (String.eqb_spec k n) as [->|Hne]; simpl; [discriminate|].
    destruct Kn as [-> ->]. destruct Rg as [-> _].
    intros Hk. apply Lb; [assumption|]. now apply L.
Qed.

(** Every operation keeps the invariant, however it ends. *)
Lemma perform_invariant op s :
  manager_invariant s -> manager_invariant (snd (perform op s)).
Proof.
  intros I. destruct (perform op s) as [r s'] eqn:H. simpl.
  destruct op; simpl in H.
  - eapply load_invariant; eassumption.
  - eapply unload_invariant; eassumption.
  - eapply pass_invariant; eassumption.
  - apply report_unchanged in H. now rewrite H.
Qed.

Lemma run_invariant ops : forall s,
  manager_invariant s -> manager_invariant (run ops s).
Proof.
  induction ops as [|op ops IH]; intros s I; simpl; [assumption|].
  apply IH. now apply perform_invariant.
Qed.

(** A manager built over a decorated store starts in the invariant. *)
Lemma init_invariant o attr copy check :
  decorated o attr -> callbacks_name o -> fresh_declarations attr ->
  manager_invariant (MultiFilesSubcommandsManager o attr copy check).
Proof.
  intros Hd Hc Hf. split.
  - constructor; simpl.
    + discriminate.
    + discriminate.
    + assumption.
    + intros sid sub g Hs Hg. rewrite (Hf _ _ Hs) in Hg. discriminate.
    + assumption.
    + constructor.
    + intros c b [].
    + constructor.
    + intros c b [].
  - intros k. simpl. discriminate.
Qed.

(** ** What a pass strikes from "still unresolved" *)

(** One turn strikes at most the entry of its cog under the name of its
    command. *)
Lemma handle_entry_touches c sid s r s' :
  handle_entry c sid s = (r, s') ->
  forall k1 k2,
    (k1 = c -> entry_name s sid <> Some k2) ->
    dd_get k1 k2 (_not_found s') = dd_get k1 k2 (_not_found s).
Proof.
  intros H k1 k2 Hk.
  apply handle_entry_inv in H as [[-> _]|(g & sub & C & G & Hf & Hs & HC & HG & H)];
    [reflexivity|].
  destruct H as [(p & _ & -> & _)|[(Hp & Hm & -> & _)|(Hp & Hm & Hdel)]];
    [reflexivity| |].
  - now destruct (registry_refused_state sid g C s) as (_ & -> & _).
  - destruct (registry_attached_before_del sid g sub G C s) as (_ & E2 & _).
    set (s1 := attached_before_del sid g sub G C s) in *. clearbody s1.
    apply del_not_found_inv in Hdel as [(_ & _ & ->)|(_ & _ & ->)];
      simpl; rewrite E2.
    + rewrite dd_get_set_remove.
      destruct (String.eqb_spec k1 c) as [->|Hne]; simpl; [|reflexivity].
      destruct (String.eqb_spec k2 (cmd_name C)) as [->|Hne2]; [|reflexivity].
      exfalso. apply Hk; [reflexivity|]. unfold entry_name. now rewrite Hs, HC.
    + apply dd_get_set_default.
Qed.









Lemma In_dd_get (d : Dict.t (Dict.t nat)) c b k v :
  List.NoDup (Dict.keys d) ->
  (forall c b, In (c, b) d -> List.NoDup (Dict.keys b)) ->
  In (c, b) d -> In (k, v) b -> dd_get c k d = Some v.
Proof.
  intros H1 H2 Hc Hk. unfold dd_get.
  rewrite (In_get_NoDup d c b H1 Hc).
  apply In_get_NoDup; [eapply H2; eassumption | assumption].
Qed.


(** ** Concrete states *)

Ltac lookup_cases H :=
  repeat (apply lookup_insert_Some in H as [[<- <-]|[_ H]]);
  [ .. | rewrite lookup_empty in H; discriminate H ].

Ltac dd_cases H :=
  unfold dd_get in H; simpl in H;
  repeat (cbv [Dict.get] in H;
          match type of H with
          | context [String.eqb ?a ?b] =>
              destruct (String.eqb_spec a b); [subst|try discriminate H]
          end);
  try discriminate H; try (injection H as <-).

Ltac nodup_keys :=
  repeat (constructor; [simpl; intuition discriminate|]); constructor.

Ltac buckets_nodup :=
  let H := fresh in
  intros ? ? H; simpl in H;
  repeat (destruct H as [H|H]; [injection H as <- <-; nodup_keys|]);
  destruct H.

Ltac concrete_well_formed :=
  constructor;
  [ intros k1 k2 sid H; dd_cases H; reflexivity
  | intros k1 k2 sid H; dd_cases H; reflexivity
  | intros sid sub H; simpl in H; lookup_cases H;
    eexists; split; reflexivity
  | intros sid sub g H Hg; simpl in H; lookup_cases H; simpl in Hg;
    try discriminate Hg; injection Hg as <-; eexists; reflexivity
  | intros i j ci cj Hi Hj Hc; simpl in Hi, Hj;
    lookup_cases Hi; lookup_cases Hj; simpl in Hc;
    first [reflexivity | discriminate Hc]
  | nodup_keys
  | buckets_nodup
  | nodup_keys
  | buckets_nodup ].

Lemma strict_two_universes_well_formed : well_formed strict_two_universes.
Proof. concrete_well_formed. Qed.

Lemma attached_info_well_formed : well_formed attached_info.
Proof. concrete_well_formed. Qed.

Lemma pending_info_well_formed : well_formed pending_info.
Proof. concrete_well_formed. Qed.

Lemma two_unresolved_well_formed : well_formed two_unresolved.
Proof. concrete_well_formed. Qed.





(** ** Entries leave "still unresolved" by being attached *)

(** What attaching does to an object of the store. *)
Lemma attached_before_del_lookup sid g sub G C s i Ci :
  objs s !! i = Some Ci ->
  exists Ci',
    objs (attached_before_del sid g sub G C s) !! i = Some Ci'
    /\ cmd_name Ci' = cmd_name Ci
    /\ cmd_parent Ci' =
       (if decide (_command sub = i) then Some g else cmd_parent Ci)
    /\ cmd_children Ci' =
       (if decide (g = i)
        then Dict.set (cmd_name C) (_command sub) (cmd_children G)
        else cmd_children Ci).
Proof.
  intros Hi.
  assert (H : exists Ci',
    attach_objs g (_command sub) G C (objs s) !! i = Some Ci'
    /\ cmd_name Ci' = cmd_name Ci
    /\ cmd_parent Ci' =
       (if decide (_command sub = i) then Some g else cmd_parent Ci)
    /\ cmd_children Ci' =
       (if decide (g = i)
        then Dict.set (cmd_name C) (_command sub) (cmd_children G)
        else cmd_children Ci)).
  { unfold attach_objs.
    destruct (decide (_command sub = i)) as [->|Hx], (decide (g = i)) as [->|Hg];
      rewrite ?lookup_alter_eq, ?lookup_alter_ne by assumption;
      rewrite ?lookup_alter_eq, ?lookup_alter_ne by assumption;
      rewrite Hi; simpl; eauto. }
  destruct H as (Ci' & H1 & H2 & H3 & H4).
  unfold attached_before_del.
  assert (E : forall (b : bool) (o : gmap nat command),
    o !! i = Some Ci' ->
    exists Ci'', copy_handler b (_command sub) G o !! i = Some Ci''
                 /\ cmd_name Ci'' = cmd_name Ci'
                 /\ cmd_parent Ci'' = cmd_parent Ci'
                 /\ cmd_children Ci'' = cmd_children Ci').
  { intros b o Ho. rewrite copy_handler_lookup, Ho.
    destruct (decide (_command sub = i)), (b && has_error_handler G);
      simpl; eauto. }
  destruct (is_app (cmd_kind C)); simpl;
    edestruct E as (Ci'' & E1 & E2 & E3 & E4); try exact H1;
    exists Ci''; (split; [exact E1|]); rewrite E2, E3, E4; auto.
Qed.

(** Attaching a declaration attaches it. *)
Lemma attached_before_del_attached sid g sub G C s :
  subcommand_attr s !! sid = Some sub ->
  objs s !! _command sub = Some C ->
  objs s !! g = Some G ->
  attached_to (attached_before_del sid g sub G C s) sid g.
Proof.
  intros Hs HC HG.
  destruct (attached_before_del_lookup sid g sub G C s _ _ HC)
    as (C1 & E1 & N1 & P1 & _).
  destruct (attached_before_del_lookup sid g sub G C s _ _ HG)
    as (G1 & E2 & _ & _ & K2).
  exists (set_group (Some g) sub), C1, G1.
  rewrite attr_attached_before_del, lookup_alter_eq, Hs. simpl.
  repeat split; try assumption.
  - rewrite P1. now rewrite decide_True.
  - rewrite K2, decide_True, N1 by reflexivity. apply get_set_eq.
Qed.

(** An attached declaration stays attached when another one is. *)
Lemma attached_before_del_stable sid' g' sub' G' C' s sid g :
  subcommand_attr s !! sid' = Some sub' ->
  objs s !! _command sub' = Some C' ->
  objs s !! g' = Some G' ->
  cmd_parent C' = None ->
  Dict.mem (cmd_name C') (cmd_children G') = false ->
  attached_to s sid g ->
  attached_to (attached_before_del sid' g' sub' G' C' s) sid g.
Proof.
  intros Hs' HC' HG' Hp' Hm' (sub & C & G & Hs & Hg & HC & Hp & HG & Hch).
  assert (Hsid : sid' <> sid).
  { intros ->. assert (sub' = sub) by congruence. subst sub'.
    congruence. }
  assert (Hc : _command sub' <> _command sub).
  { intros E. rewrite E in HC'. congruence. }
  destruct (attached_before_del_lookup sid' g' sub' G' C' s _ _ HC)
    as (C1 & E1 & N1 & P1 & _).
  destruct (attached_before_del_lookup sid' g' sub' G' C' s _ _ HG)
    as (G1 & E2 & _ & _ & K2).
  exists sub, C1, G1.
  rewrite attr_attached_before_del, lookup_alter_ne by assumption.
  repeat split; try assumption.
  - rewrite P1, decide_False by assumption. exact Hp.
  - rewrite K2, N1. case_decide as E; [|exact Hch].
    subst g'. assert (G' = G) by congruence. subst G'.
    rewrite get_set_ne; [exact Hch|].
    intros En. rewrite En in Hch. unfold Dict.mem in Hm'.
    now rewrite Hch in Hm'.
Qed.

Lemma attached_to_with_not_found f s sid g :
  attached_to (with_not_found f s) sid g <-> attached_to s sid g.
Proof. reflexivity. Qed.

Lemma handle_entry_attached_stable c sid' s r s' sid g :
  handle_entry c sid' s = (r, s') ->
  attached_to s sid g -> attached_to s' sid g.
Proof.
  intros H Hatt.
  apply handle_entry_inv in H
    as [[-> _]|(g' & sub' & C' & G' & Hf & Hs' & HC' & HG' & H)];
    [assumption|].
  destruct H as [(p & _ & -> & _)|[(Hp & Hm & -> & _)|(Hp & Hm & Hdel)]];
    [assumption| |].
  - destruct Hatt as (sub & C & G & Hs & Hg & HC & Hpar & HG & Hch).
    assert (Hsid : sid' <> sid).
    { intros ->. assert (sub' = sub) by congruence. subst sub'. congruence. }
    exists sub, C, G. rewrite attr_refused_state, lookup_alter_ne by assumption.
    unfold refused_state. destruct (is_app (cmd_kind C')); simpl; auto 10.
  - pose proof (attached_before_del_stable sid' g' sub' G' C' s sid g
                  Hs' HC' HG' Hp Hm Hatt) as Hst.
    apply del_not_found_inv in Hdel as [(_ & _ & ->)|(_ & _ & ->)];
      now apply attached_to_with_not_found.
Qed.

(** One turn of the inner loop either leaves an entry of "still
    unresolved" as it is, or strikes the entry of its own declaration,
    which it has attached. *)
Lemma handle_entry_strikes c sid s r s' :
  handle_entry c sid s = (r, s') ->
  forall k1 k2,
    dd_get k1 k2 (_not_found s') = dd_get k1 k2 (_not_found s)
    \/ (k1 = c /\ entry_name s sid = Some k2
        /\ dd_get k1 k2 (_not_found s') = None
        /\ exists g, attached_to s' sid g).
Proof.
  intros H k1 k2.
  destruct (String.eqb_spec k1 c) as [->|Hne].
  2:{ left. eapply handle_entry_touches; [eassumption|]. congruence. }
  destruct (entry_name s sid) as [n|] eqn:En.
  2:{ left. eapply handle_entry_touches; [eassumption|]. rewrite En.
      discriminate. }
  destruct (String.eqb_spec n k2) as [->|Hne].
  2:{ left. eapply handle_entry_touches; [eassumption|]. rewrite En.
      congruence. }
  apply handle_entry_inv in H
    as [[-> _]|(g & sub & C & G & Hf & Hs & HC & HG & H)]; [now left|].
  destruct H as [(p & _ & -> & _)|[(Hp & Hm & -> & _)|(Hp & Hm & Hdel)]];
    [now left| |].
  - left. now destruct (registry_refused_state sid g C s) as (_ & -> & _).
  - pose proof (attached_before_del_attached sid g sub G C s Hs HC HG) as Hatt.
    destruct (registry_attached_before_del sid g sub G C s) as (_ & E2 & _).
    assert (Hn : cmd_name C = k2).
    { unfold entry_name in En. rewrite Hs, HC in En. congruence. }
    set (s1 := attached_before_del sid g sub G C s) in *. clearbody s1.
    apply del_not_found_inv in Hdel as [(_ & _ & ->)|(_ & _ & ->)];
      simpl; rewrite E2.
    + right. split; [reflexivity|]. split; [reflexivity|]. split.
      * rewrite dd_get_set_remove, Hn, !String.eqb_refl. reflexivity.
      * exists g. exact Hatt.
    + left. apply dd_get_set_default.
Qed.

Section PassFromSnapshot.
Variable s0 : state.
Hypothesis W0 : well_formed s0.

Let pass_inv (s : state) : Prop :=
  well_formed s /\ statics s0 s /\ struck_only_attached s0 s.

Lemma pass_inv_start : pass_inv s0.
Proof.
  split; [assumption|]. split; [apply statics_refl|].
  split; intros; auto.
Qed.

Lemma pass_inv_turn c sid s r s' :
  (exists key, dd_get c key (_not_found s0) = Some sid) ->
  handle_entry c sid s = (r, s') ->
  pass_inv s -> pass_inv s'.
Proof.
  intros [key Hkey] H (W & St & S1 & S2).
  pose proof (statics_handle_entry c sid _ _ _ H) as St'.
  split; [eapply handle_entry_well_formed; eassumption|].
  split; [eapply statics_trans; eassumption|].
  assert (Hname : entry_name s sid = Some key).
  { rewrite (entry_name_statics s0 s sid St).
    eapply (wf_entry s0 W0), (wf_covers s0 W0), Hkey. }
  split.
  - intros k1 k2 v Hv.
    destruct (handle_entry_strikes _ _ _ _ _ H k1 k2)
      as [E|(-> & En & Enone & g & Hatt)].
    + rewrite E. destruct (S1 _ _ _ Hv) as [?|[? [g Hatt]]]; [now left|].
      right. split; [assumption|]. exists g.
      eapply handle_entry_attached_stable; eassumption.
    + right. split; [assumption|].
      destruct (S1 _ _ _ Hv) as [Hs|[_ [g' Hatt']]].
      * assert (key = k2) by congruence. subst k2.
        assert (v = sid) by congruence. subst v. eauto.
      * exists g'. eapply handle_entry_attached_stable; eassumption.
  - intros k1 k2 v Hv.
    destruct (handle_entry_strikes _ _ _ _ _ H k1 k2)
      as [E|(_ & _ & Enone & _)]; [|congruence].
    apply S2. congruence.
Qed.

Lemma pass_inv_turns c l : forall s r s',
  (forall sid, In sid l -> exists key, dd_get c key (_not_found s0) = Some sid) ->
  for_each l (handle_entry c) s = (r, s') ->
  pass_inv s -> pass_inv s'.
Proof.
  induction l as [|sid l IH]; intros s r s' Hl H I.
  - now injection H as _ <-.
  - simpl in H. apply bind_inv in H as [([] & s1 & H1 & H2)|(e & H1 & _)].
    + eapply IH; [|exact H2|].
      * intros sid' Hin. apply Hl. now right.
      * eapply pass_inv_turn; [|exact H1|exact I]. apply Hl. now left.
    + eapply pass_inv_turn; [|exact H1|exact I]. apply Hl. now left.
Qed.

Lemma pass_inv_drop c s :
  Dict.get c (_not_found s) = Some [] ->
  pass_inv s -> pass_inv (with_not_found (Dict.remove c) s).
Proof.
  intros E (W & St & S1 & S2).
  assert (Hsame : forall k1 k2,
    dd_get k1 k2 (Dict.remove c (_not_found s)) = dd_get k1 k2 (_not_found s)).
  { intros k1 k2. rewrite dd_get_remove.
    destruct (String.eqb_spec k1 c) as [->|Hne]; [|reflexivity].
    unfold dd_get. now rewrite E. }
  split; [now apply well_formed_drop_unresolved|].
  split; [eapply statics_trans; [exact St | apply statics_with_not_found]|].
  split; intros k1 k2 v; simpl; rewrite Hsame; auto.
Qed.

Lemma pass_inv_bucket item s r s' :
  In item (_not_found s0) ->
  handle_bucket item s = (r, s') ->
  pass_inv s -> pass_inv s'.
Proof.
  intros Hin H I. unfold handle_bucket in H.
  assert (Hl : forall sid, In sid (Dict.values (snd item)) ->
             exists key, dd_get (fst item) key (_not_found s0) = Some sid).
  { intros sid Hs. destruct item as [c b]. simpl in *.
    destruct (In_values_get b sid) as [key Hk]; [|assumption|].
    - eapply (wf_bucket_keys s0 W0), Hin.
    - exists key. unfold dd_get.
      now rewrite (In_get_NoDup _ c b (wf_keys s0 W0) Hin). }
  apply bind_inv in H as [([] & s1 & H1 & H2)|(e & H1 & _)].
  - pose proof (pass_inv_turns _ _ _ _ _ Hl H1 I) as I1.
    apply bind_inv in H2 as [(nf & s2 & [= <- <-] & H2)|(e & [=] & _)].
    destruct (Dict.get (fst item) (_not_found s1)) as [[|x b]|] eqn:E.
    + injection H2 as _ <-. now apply pass_inv_drop.
    + now injection H2 as _ <-.
    + now injection H2 as _ <-.
  - eapply pass_inv_turns; eassumption.
Qed.

Lemma pass_inv_buckets l : forall s r s',
  (forall item, In item l -> In item (_not_found s0)) ->
  for_each l handle_bucket s = (r, s') ->
  pass_inv s -> pass_inv s'.
Proof.
  induction l as [|item l IH]; intros s r s' Hl H I.
  - now injection H as _ <-.
  - simpl in H. apply bind_inv in H as [([] & s1 & H1 & H2)|(e & H1 & _)].
    + eapply IH; [|exact H2|].
      * intros item' Hin. apply Hl. now right.
      * eapply pass_inv_bucket; [|exact H1|exact I]. apply Hl. now left.
    + eapply pass_inv_bucket; [|exact H1|exact I]. apply Hl. now left.
Qed.

(** A pass strikes an entry from "still unresolved" only after it has
    attached the declaration to a group, and it adds none. *)
Lemma pass_strikes_only_attached r s' :
  __handle_commands s0 = (r, s') -> struck_only_attached s0 s'.
Proof.
  unfold __handle_commands. intros H.
  apply bind_inv in H as [(nf & s1 & [= <- <-] & H)|(e & [=] & _)].
  eapply pass_inv_buckets; [|exact H|apply pass_inv_start]. auto.
Qed.

End PassFromSnapshot.

(** ** The registry over runs of operations *)

Lemma keeps_other_buckets_refl n s : keeps_other_buckets n s s.
Proof. unfold keeps_other_buckets. auto. Qed.

Lemma keeps_other_buckets_trans n s1 s2 s3 :
  keeps_other_buckets n s1 s2 -> keeps_other_buckets n s2 s3 ->
  keeps_other_buckets n s1 s3.
Proof.
  intros H1 H2 k1 k2 Hk. destruct (H1 k1 k2 Hk), (H2 k1 k2 Hk).
  split; congruence.
Qed.

Lemma record_command_other_buckets n i :
  preserves (keeps_other_buckets n) (record_command n i).
Proof.
  intros s r s' H. apply record_command_inv in H
    as [->|(c & sub0 & _ & _ & _ & ->)]; [apply keeps_other_buckets_refl|].
  intros k1 k2 Hk. simpl. rewrite !dd_get_dd_set.
  apply String.eqb_neq in Hk. rewrite Hk. simpl. auto.
Qed.




(** ** Running the pass again *)


Lemma in_entries (d : Dict.t (Dict.t nat)) c k v :
  In (c, k, v) (entries d) <-> exists b, In (c, b) d /\ In (k, v) b.
Proof.
  unfold entries. rewrite in_flat_map. split.
  - intros ([c' b] & Hin & H). simpl in H. apply in_map_iff in H
      as ([k' v'] & [= <- <- <-] & H). eauto.
  - intros (b & Hc & Hk). exists (c, b). split; [assumption|].
    simpl. apply in_map_iff. exists (k, v). auto.
Qed.



Lemma two_declarations_decorated : decorated two_commands two_declarations.
Proof.
  intros sid sub H. unfold two_declarations in H. lookup_cases H;
    eexists; split; reflexivity.
Qed.

Lemma two_commands_callbacks : callbacks_name two_commands.
Proof.
  intros i j ci cj Hi Hj Hc. unfold two_commands in Hi, Hj.
  lookup_cases Hi; lookup_cases Hj; simpl in Hc;
    first [reflexivity | discriminate Hc].
Qed.

Lemma two_declarations_fresh : fresh_declarations two_declarations.
Proof.
  intros sid sub H. unfold two_declarations in H. lookup_cases H; reflexivity.
Qed.


(** ** Two declarations under one name *)

Lemma shadowed_refl sid s : shadowed sid s s.
Proof. unfold shadowed. auto. Qed.

Lemma shadowed_trans sid s1 s2 s3 :
  shadowed sid s1 s2 -> shadowed sid s2 s3 -> shadowed sid s1 s3.
Proof.
  unfold shadowed. intros H1 H2 U. destruct (H1 U) as [U2 E2].
  destruct (H2 U2) as [U3 E3]. split; [assumption | congruence].
Qed.

Ltac shadowed_leaf :=
  match goal with |- shadowed _ _ _ => idtac end;
  let U := fresh in
  intros U; split; [exact U | simpl; rewrite ?lookup_alter_ne by assumption;
                              reflexivity].

Lemma shadowed_handlers sid act sid' g :
  sid' <> sid ->
  preserves (shadowed sid) (__handle_prefix_hybrid_command act sid' g)
  /\ preserves (shadowed sid) (__handle_app_command act sid' g).
Proof.
  intros Hne.
  unfold __handle_prefix_hybrid_command, __handle_app_command,
    bot_remove_command, tree_remove_command, group_add_command,
    group_remove_command, command_error.
  split; pres_with (shadowed_refl sid) (shadowed_trans sid) shadowed_leaf.
Qed.

Lemma values_remove_incl {V} (d : Dict.t V) k v :
  In v (Dict.values (Dict.remove k d)) -> In v (Dict.values d).
Proof.
  unfold Dict.values. rewrite !in_map_iff.
  intros ([k' v'] & E & Hin). apply In_remove in Hin. eauto.
Qed.

Lemma shadowed_del_not_found sid c n :
  preserves (shadowed sid) (del_not_found c n).
Proof.
  intros s r s' H U.
  assert (Hb : ~ In sid (Dict.values
                           (default [] (Dict.get c (_not_found s))))).
  { destruct (Dict.get c (_not_found s)) as [b|] eqn:E; simpl; [|tauto].
    apply (U c b). right. eapply get_In, E. }
  apply del_not_found_inv in H as [(_ & _ & ->)|(_ & _ & ->)];
    (split; [|reflexivity]); intros c' b' [Hin|Hin]; simpl in Hin;
    try (apply (U c' b'); now left);
    apply In_set in Hin as [[_ ->]|Hin];
    try (apply (U c' b'); now right); try assumption.
  intros Hv. apply Hb. eapply values_remove_incl, Hv.
Qed.

Lemma shadowed_handle_entry sid c sid' :
  sid' <> sid -> preserves (shadowed sid) (handle_entry c sid').
Proof.
  intros Hne. unfold handle_entry.
  pres_with (shadowed_refl sid) (shadowed_trans sid)
    ltac:(first [ apply shadowed_handlers; assumption
                | apply shadowed_del_not_found ]).
Qed.

Lemma shadowed_handle_bucket sid item :
  ~ In sid (Dict.values (snd item)) ->
  preserves (shadowed sid) (handle_bucket item).
Proof.
  intros Hni. unfold handle_bucket.
  apply (preserves_bind _ (shadowed_trans sid)).
  - apply (preserves_for_each _ (shadowed_refl sid) (shadowed_trans sid)).
    intros x Hx. apply shadowed_handle_entry. intros ->. contradiction.
  - intros _.
    pres_with (shadowed_refl sid) (shadowed_trans sid)
      ltac:(match goal with |- shadowed _ _ _ => idtac end;
            let U := fresh in
            intros U; split; [|reflexivity];
            let c := fresh in let b := fresh in let H := fresh in
            intros c b [H|H]; simpl in H;
            [ apply (U c b); now left
            | apply In_remove in H; apply (U c b); now right ]).
Qed.

Lemma shadowed_pass sid s r s' :
  __handle_commands s = (r, s') -> shadowed sid s s'.
Proof.
  unfold __handle_commands. intros H U.
  apply bind_inv in H as [(nf & s1 & [= <- <-] & H)|(e & [=] & _)].
  pose proof U as U0. revert U.
  eapply (preserves_for_each _ (shadowed_refl sid) (shadowed_trans sid));
    [|exact H].
  intros [c b] Hin. apply shadowed_handle_bucket. simpl.
  apply (U0 c b). now right.
Qed.

Lemma shadowed_remove_entry sid sid' :
  sid' <> sid -> preserves (shadowed sid) (remove_entry sid').
Proof.
  intros Hne. unfold remove_entry.
  pres_with (shadowed_refl sid) (shadowed_trans sid)
    ltac:(apply shadowed_handlers; assumption).
Qed.

Lemma unreferenced_same_registry s s' sid :
  keeps_registry s s' -> unreferenced s sid -> unreferenced s' sid.
Proof. intros [E1 E2] U c b. rewrite E1, E2. apply U. Qed.

Lemma shadowed_unload sid n : preserves (shadowed sid) (__cog_remove n).
Proof.
  intros s r s' H U. unfold __cog_remove in H.
  destruct (original_cog_remove_runs n s) as (s0 & H0 & [_ Hattr] & Hreg).
  rewrite (bind_Ok _ _ _ _ _ H0) in H.
  erewrite bind_Ok in H by apply gets_run.
  pose proof (unreferenced_same_registry _ _ _ Hreg U) as U0.
  rewrite <- Hattr.
  assert (Hloop : forall r1 s1,
             for_each (Dict.values (default [] (Dict.get n (__commands s0))))
                      remove_entry s0 = (r1, s1) -> shadowed sid s0 s1).
  { intros r1 s1 H1.
    eapply (preserves_for_each _ (shadowed_refl sid) (shadowed_trans sid));
      [|exact H1].
    intros x Hx. apply shadowed_remove_entry. intros ->.
    destruct (Dict.get n (__commands s0)) as [b|] eqn:E; [|destruct Hx].
    apply (U0 n b); [left; eapply get_In, E | exact Hx]. }
  apply bind_inv in H as [([] & s1 & H1 & H)|(e & H1 & _)].
  2:{ exact (Hloop _ _ H1 U0). }
  destruct (Hloop _ _ H1 U0) as [U1 E1]. rewrite <- E1.
  unfold bind, modify in H. injection H as _ <-. split; [|reflexivity].
  intros c b [Hin|Hin]; simpl in Hin; apply In_remove in Hin;
    apply (U1 c b); auto.
Qed.

(** *** The recording loop *)

Lemma record_command_run n i s c :
  objs s !! i = Some c ->
  record_command n i s = (Ok tt, after_record n i c s).
Proof.
  intros Hc. unfold record_command, __get_subcommand, after_record.
  destruct (subcommand_attr s !! cmd_callback c) as [sub0|] eqn:Hs.
  - erewrite bind_Ok.
    2:{ erewrite bind_Ok by (apply get_cmd_Some; eassumption).
        erewrite bind_Ok by apply gets_run. rewrite Hs.
        erewrite bind_Ok by apply modify_run. reflexivity. }
    cbv beta iota.
    erewrite bind_Ok by (apply get_cmd_Some; simpl; eassumption).
    erewrite bind_Ok by apply modify_run. reflexivity.
  - erewrite bind_Ok.
    2:{ erewrite bind_Ok by (apply get_cmd_Some; eassumption).
        erewrite bind_Ok by apply gets_run. rewrite Hs. reflexivity. }
    reflexivity.
Qed.

Lemma after_record_store n i c s :
  objs (after_record n i c s) = objs s
  /\ (forall x, is_Some (subcommand_attr (after_record n i c s) !! x)
                <-> is_Some (subcommand_attr s !! x))
  /\ (forall x, _group <$> subcommand_attr (after_record n i c s) !! x
                = _group <$> subcommand_attr s !! x).
Proof.
  unfold after_record.
  destruct (subcommand_attr s !! cmd_callback c) as [sub0|] eqn:Hs;
    [|split; [reflexivity|split; [reflexivity|reflexivity]]].
  simpl. split; [reflexivity|].
  split; intros x; destruct (decide (x = cmd_callback c)) as [->|Hne];
    rewrite ?lookup_alter_eq, ?lookup_alter_ne by congruence;
    try reflexivity; rewrite Hs; simpl; [|reflexivity].
  split; intros _; eauto.
Qed.

Lemma after_record_get n i c s k1 k2 :
  dd_get k1 k2 (__commands (after_record n i c s)) =
  (if String.eqb k1 n && String.eqb k2 (cmd_name c)
      && bool_decide (is_Some (subcommand_attr s !! cmd_callback c))
   then Some (cmd_callback c) else dd_get k1 k2 (__commands s))
  /\ dd_get k1 k2 (_not_found (after_record n i c s)) =
     (if String.eqb k1 n && String.eqb k2 (cmd_name c)
         && bool_decide (is_Some (subcommand_attr s !! cmd_callback c))
      then Some (cmd_callback c) else dd_get k1 k2 (_not_found s)).
Proof.
  unfold after_record.
  destruct (subcommand_attr s !! cmd_callback c) as [sub0|] eqn:Hs.
  - rewrite bool_decide_eq_true_2 by eauto. rewrite andb_true_r.
    simpl. rewrite !dd_get_dd_set. split; reflexivity.
  - rewrite bool_decide_eq_false_2 by (intros [? [=]]).
    rewrite andb_false_r. split; reflexivity.
Qed.

Lemma held_after_record n i c s sid c' k :
  held (after_record n i c s) sid c' k ->
  (c' = n /\ k = cmd_name c /\ cmd_callback c = sid)
  \/ (held s sid c' k
      /\ ~ (c' = n /\ k = cmd_name c
            /\ is_Some (subcommand_attr s !! cmd_callback c))).
Proof.
  unfold held. destruct (after_record_get n i c s c' k) as [-> ->].
  destruct (String.eqb_spec c' n) as [->|N1];
    destruct (String.eqb_spec k (cmd_name c)) as [->|N2];
    destruct (bool_decide_reflect
                (is_Some (subcommand_attr s !! cmd_callback c))) as [D|D];
    simpl; intros H; try (right; split; [exact H|tauto]).
  left. destruct H as [[= <-]|[= <-]]; auto.
Qed.

Lemma held_unreferenced s sid :
  unreferenced s sid -> forall c k, ~ held s sid c k.
Proof.
  intros U c k [H|H]; unfold dd_get, Dict.t in *;
    destruct (Dict.get c _) as [b|] eqn:E; try discriminate;
    (eapply (U c b); [|eapply get_In_values, H]);
    [left|right]; eapply get_In, E.
Qed.

Lemma unheld_unreferenced s sid :
  well_formed s -> (forall c k, ~ held s sid c k) -> unreferenced s sid.
Proof.
  intros W H c b Hin Hv. unfold Dict.values in Hv.
  apply in_map_iff in Hv as ([k v] & Hk & Hkv). simpl in Hk. subst v.
  apply (H c k). destruct Hin as [Hin|Hin]; [left|right];
    (eapply In_dd_get; [apply W | apply W | eassumption | eassumption]).
Qed.

Lemma record_loop_overwrites n sid o attr0 l : forall s,
  objs s = o ->
  (forall x, is_Some (subcommand_attr s !! x) <-> is_Some (attr0 !! x)) ->
  (forall j, In j l -> is_Some (o !! j)) ->
  overwritten o attr0 sid l ->
  awaits_overwrite n sid o attr0 l s ->
  exists s',
    for_each l (record_command n) s = (Ok tt, s')
    /\ (forall x, _group <$> subcommand_attr s' !! x
                  = _group <$> subcommand_attr s !! x)
    /\ (forall c k, ~ held s' sid c k).
Proof.
  induction l as [|i l IH]; intros s Ho Ha Hex Hov Haw.
  - exists s. split; [reflexivity|]. split; [reflexivity|].
    intros c k Hh. destruct (Haw c k Hh) as (_ & j & cj & [] & _).
  - destruct (Hex i (or_introl eq_refl)) as [c Hc].
    destruct Hov as [Hi Hov].
    destruct (after_record_store n i c s) as (So & Sa & Sg).
    destruct (IH (after_record n i c s)) as (s' & Hs' & Hg' & Hh').
    + congruence.
    + intros x. rewrite Sa. apply Ha.
    + intros j Hj. apply Hex. now right.
    + exact Hov.
    + intros c' k Hh.
      apply held_after_record in Hh as [(-> & -> & E)|[Hh Hn]].
      * split; [reflexivity|]. now apply Hi.
      * destruct (Haw c' k Hh) as (-> & j & cj & [<-|Hj] & Hcj & Hk & Hcb & Hd).
        -- exfalso. apply Hn. rewrite Hc in Hcj. injection Hcj as <-.
           split; [reflexivity|]. split; [now symmetry|]. now apply Ha.
        -- split; [reflexivity|]. exists j, cj. auto.
    + exists s'. split; [|split; [|exact Hh']].
      * simpl. erewrite bind_Ok; [exact Hs'|].
        apply record_command_run. congruence.
      * intros x. rewrite Hg'. apply Sg.
Qed.

Lemma record_loop_keeps_name n name l : forall s r s',
  for_each l (record_command n) s = (r, s') ->
  (forall j cj, In j l -> objs s !! j = Some cj -> cmd_name cj <> name) ->
  dd_get n name (__commands s') = dd_get n name (__commands s).
Proof.
  induction l as [|i l IH]; intros s r s' H Hl.
  - now injection H as _ <-.
  - simpl in H.
    assert (Hstep : forall r1 s1, record_command n i s = (r1, s1) ->
              objs s1 = objs s
              /\ dd_get n name (__commands s1) = dd_get n name (__commands s)).
    { intros r1 s1 H1.
      apply record_command_inv in H1 as [->|(c & sub0 & Hc & Hs & _ & ->)];
        [split; reflexivity|].
      split; [reflexivity|]. simpl. rewrite dd_get_dd_set.
      destruct (String.eqb_spec name (cmd_name c)) as [->|Hne];
        [|now rewrite andb_false_r].
      exfalso. eapply Hl; [now left | exact Hc | reflexivity]. }
    apply bind_inv in H as [([] & s1 & H1 & H2)|(e & H1 & _)].
    + destruct (Hstep _ _ H1) as [Eo Eg]. rewrite <- Eg.
      eapply IH; [exact H2|]. intros j cj Hj. rewrite Eo.
      apply Hl. now right.
    + now apply Hstep in H1.
Qed.

Lemma record_loop_runs n l : forall s,
  (forall j, In j l -> is_Some (objs s !! j)) ->
  exists s',
    for_each l (record_command n) s = (Ok tt, s')
    /\ objs s' = objs s
    /\ (forall x, is_Some (subcommand_attr s' !! x)
                  <-> is_Some (subcommand_attr s !! x)).
Proof.
  induction l as [|i l IH]; intros s Hex.
  - exists s. split; [reflexivity|]. split; reflexivity.
  - destruct (Hex i (or_introl eq_refl)) as [c Hc].
    destruct (after_record_store n i c s) as (So & Sa & _).
    destruct (IH (after_record n i c s)) as (s' & Hs' & Ho' & Ha').
    { intros j Hj. rewrite So. apply Hex. now right. }
    exists s'. split; [|split].
    + simpl. erewrite bind_Ok; [exact Hs'|]. now apply record_command_run.
    + congruence.
    + intros x. rewrite Ha'. apply Sa.
Qed.

(** What the host's plugin-add leaves of a state in the invariant. *)
Lemma original_cog_add_ok cg s s1 :
  original_cog_add cg s = (Ok tt, s1) ->
  manager_invariant s ->
  manager_invariant s1
  /\ Dict.mem (cog_qualified_name cg) (loaded_cogs s1) = true
  /\ same_store s s1 /\ keeps_registry s s1.
Proof.
  intros H1 I.
  apply original_cog_add_inv in H1
    as [[_ [e [=]]]|(_ & s0 & St & Rg & Kn & ->)].
  set (n := cog_qualified_name cg) in *.
  destruct I as [W L]. split; [split|split; [|split]].
  - eapply (well_formed_same_store s0); [split; reflexivity
                                        |split; reflexivity|].
    eapply well_formed_same_store; eassumption.
  - intros k. simpl. destruct Kn as [-> ->]. rewrite mem_set.
    intros Hk. rewrite (L k Hk). apply orb_true_r.
  - simpl. rewrite mem_set, String.eqb_refl. reflexivity.
  - exact St.
  - exact Rg.
Qed.

Lemma load_keeps_overwritten cg s r s' sid :
  manager_invariant s -> unreferenced s sid ->
  (forall s1,
      original_cog_add cg s = (Ok tt, s1) ->
      (forall j, In j (enumerated s1 cg) -> is_Some (objs s1 !! j))
      /\ overwritten (objs s1) (subcommand_attr s1) sid (enumerated s1 cg)) ->
  __cog_add cg s = (r, s') ->
  unreferenced s' sid
  /\ _group <$> subcommand_attr s' !! sid = _group <$> subcommand_attr s !! sid.
Proof.
  unfold __cog_add. intros I U Hov H.
  apply bind_inv in H as [([] & s1 & H1 & H2)|(e & H1 & _)].
  2:{ apply original_cog_add_inv in H1 as [[-> _]|[[=] _]]. auto. }
  destruct (Hov s1 H1) as [Hex Ho].
  destruct (original_cog_add_ok _ _ _ H1 I) as (I1 & Hn & [_ St] & Rg).
  pose proof (unreferenced_same_registry _ _ _ Rg U) as U1.
  apply bind_inv in H2 as [(s2 & s3 & [= <- <-] & H2)|(e & [=] & _)].
  destruct (record_loop_overwrites (cog_qualified_name cg) sid
              (objs s1) (subcommand_attr s1) (enumerated s1 cg) s1
              eq_refl (fun x => iff_refl _) Hex Ho)
    as (s4 & H3 & Hg & Hh).
  { intros c k Hh. now apply held_unreferenced in Hh. }
  unfold enumerated in H3. rewrite (bind_Ok _ _ _ _ _ H3) in H2.
  destruct (record_loop_invariant _ _ _ _ _ H3 I1 Hn) as [[W4 _] _].
  pose proof (unheld_unreferenced _ _ W4 Hh) as U4.
  destruct (shadowed_pass _ _ _ _ H2 U4) as [U' E'].
  split; [exact U'|]. now rewrite E', Hg, St.
Qed.

Lemma run_keeps_overwritten sid ops : forall s,
  manager_invariant s -> unreferenced s sid ->
  always_overwritten sid ops s ->
  unreferenced (run ops s) sid
  /\ _group <$> subcommand_attr (run ops s) !! sid
     = _group <$> subcommand_attr s !! sid.
Proof.
  induction ops as [|op ops IH]; intros s I U A; simpl; [auto|].
  destruct A as [A1 A2].
  pose proof (perform_invariant op s I) as I1.
  destruct (perform op s) as [r s1] eqn:H. simpl in *.
  assert (Hstep : unreferenced s1 sid
                  /\ _group <$> subcommand_attr s1 !! sid
                     = _group <$> subcommand_attr s !! sid).
  { destruct op; simpl in H.
    - eapply load_keeps_overwritten; eassumption.
    - destruct (shadowed_unload sid name _ _ _ H U) as [U1 E1].
      now rewrite E1.
    - destruct (shadowed_pass _ _ _ _ H U) as [U1 E1]. now rewrite E1.
    - apply report_unchanged in H. now rewrite H. }
  destruct Hstep as [U1 E1].
  destruct (IH s1 I1 U1 A2) as [U2 E2]. split; [exact U2|congruence].
Qed.

(** *** What the report names *)

Lemma report_entry_inv cog item s r s' :
  report_entry cog item s = (r, s') ->
  s' = s
  /\ forall msg, r = Raise (RuntimeError msg) ->
       unresolved_in s (cog, fst item, snd item)
       /\ diagnostic s (cog, fst item, snd item) = Some msg.
Proof.
  unfold report_entry, diagnostic, unresolved_in, bind, get_sub, get_cmd,
    gets, raise, ret. simpl.
  destruct (subcommand_attr s !! snd item) as [sub|] eqn:Hs;
    [|intros [= <- <-]; split; [reflexivity|discriminate]].
  destruct (_group sub) as [g|] eqn:Hg;
    [intros [= <- <-]; split; [reflexivity|discriminate]|].
  simpl. destruct (objs s !! _command sub) as [c|];
    intros [= <- <-]; (split; [reflexivity|]); [|discriminate].
  intros msg [= <-]. split; [eauto | reflexivity].
Qed.

Lemma report_loop_inv l : forall s r s',
  for_each l (fun e => report_entry (fst (fst e)) (snd (fst e), snd e)) s
  = (r, s') ->
  s' = s
  /\ forall msg, r = Raise (RuntimeError msg) ->
       exists e, In e l /\ unresolved_in s e /\ diagnostic s e = Some msg.
Proof.
  induction l as [|[[c k] v] l IH]; intros s r s' H.
  - injection H as <- <-. split; [reflexivity|discriminate].
  - simpl in H. apply bind_inv in H as [([] & s1 & H1 & H2)|(e & H1 & ->)].
    + apply report_entry_inv in H1 as [-> _].
      apply IH in H2 as [-> H2]. split; [reflexivity|].
      intros msg Hr. destruct (H2 msg Hr) as (e & He & Hu).
      exists e. split; [now right | exact Hu].
    + apply report_entry_inv in H1 as [-> H1]. split; [reflexivity|].
      intros msg [= ->]. exists (c, k, v). split; [now left|].
      now apply H1.
Qed.

(** An error of the report is the diagnostic of an entry of "still
    unresolved". *)
Lemma report_names_an_entry s msg s' :
  raise_for_remaining_commands s = (Raise (RuntimeError msg), s') ->
  exists e, In e (entries (_not_found s))
            /\ unresolved_in s e /\ diagnostic s e = Some msg.
Proof.
  rewrite raise_for_remaining_unfold. intros H.
  apply report_loop_inv in H as [_ H]. now apply H.
Qed.

(** *** The last command of a name *)

Lemma load_retains_last cg s s1 r s' l1 i l3 c :
  manager_invariant s ->
  original_cog_add cg s = (Ok tt, s1) ->
  enumerated s1 cg = l1 ++ i :: l3 ->
  (forall j, In j l1 -> is_Some (objs s1 !! j)) ->
  objs s1 !! i = Some c ->
  is_Some (subcommand_attr s1 !! cmd_callback c) ->
  (forall j cj, In j l3 -> objs s1 !! j = Some cj ->
                cmd_name cj <> cmd_name c) ->
  __cog_add cg s = (r, s') ->
  dd_get (cog_qualified_name cg) (cmd_name c) (__commands s')
  = Some (cmd_callback c)
  /\ forall v,
       dd_get (cog_qualified_name cg) (cmd_name c) (_not_found s') = Some v ->
       v = cmd_callback c.
Proof.
  intros I H1 Henum Hex Hc Hd Hlast H.
  assert (Hk : dd_get (cog_qualified_name cg) (cmd_name c) (__commands s')
               = Some (cmd_callback c)).
  { unfold __cog_add in H. rewrite (bind_Ok _ _ _ _ _ H1) in H.
    erewrite bind_Ok in H by apply gets_run. cbv beta in H.
    change (cog_walk_commands (id s1) cg ++ cog_walk_app_commands (id s1) cg)
      with (enumerated s1 cg) in H.
    rewrite Henum in H.
    destruct (record_loop_runs (cog_qualified_name cg) l1 s1 Hex)
      as (sa & Ha & Eo & Ea).
    set (sb := after_record (cog_qualified_name cg) i c sa).
    destruct (for_each l3 (record_command (cog_qualified_name cg)) sb)
      as [r3 s3] eqn:H3.
    assert (Hb : dd_get (cog_qualified_name cg) (cmd_name c) (__commands sb)
                 = Some (cmd_callback c)).
    { subst sb.
      destruct (after_record_get (cog_qualified_name cg) i c sa
                  (cog_qualified_name cg) (cmd_name c)) as [-> _].
      rewrite !String.eqb_refl, bool_decide_eq_true_2 by now apply Ea.
      reflexivity. }
    assert (H3' : dd_get (cog_qualified_name cg) (cmd_name c) (__commands s3)
                  = Some (cmd_callback c)).
    { rewrite <- Hb. eapply record_loop_keeps_name; [exact H3|].
      intros j cj Hj Hcj. apply (Hlast j cj Hj).
      subst sb. destruct (after_record_store (cog_qualified_name cg) i c sa)
        as (So & _). now rewrite So, Eo in Hcj. }
    assert (Hloop : for_each (l1 ++ i :: l3)
                      (record_command (cog_qualified_name cg)) s1 = (r3, s3)).
    { rewrite for_each_app. rewrite (bind_Ok _ _ _ _ _ Ha). simpl.
      erewrite bind_Ok; [exact H3|].
      apply record_command_run. now rewrite Eo. }
    apply bind_inv in H as [([] & s4 & H4 & H5)|(e & H4 & _)].
    - rewrite Hloop in H4. injection H4 as _ <-.
      apply same_known_handle_commands in H5 as [-> _]. exact H3'.
    - rewrite Hloop in H4. injection H4 as _ <-. exact H3'. }
  split; [exact Hk|]. intros v Hv.
  destruct (load_invariant _ _ _ _ H I) as [W _].
  apply (wf_covers _ W) in Hv. congruence.
Qed.

Lemma NoDup_keys_functional {V} (b : Dict.t V) k v1 v2 :
  List.NoDup (Dict.keys b) -> In (k, v1) b -> In (k, v2) b -> v1 = v2.
Proof.
  intros N H1 H2. apply (In_get_NoDup _ _ _ N) in H1, H2. congruence.
Qed.

Lemma same_name_decorated : decorated same_name_store same_name_declarations.
Proof.
  intros sid sub H. unfold same_name_declarations in H. lookup_cases H;
    eexists; split; reflexivity.
Qed.

Lemma same_name_callbacks : callbacks_name same_name_store.
Proof.
  intros i j ci cj Hi Hj Hc. unfold same_name_store in Hi, Hj.
  lookup_cases Hi; lookup_cases Hj; simpl in Hc;
    first [reflexivity | discriminate Hc].
Qed.

Lemma same_name_fresh : fresh_declarations same_name_declarations.
Proof.
  intros sid sub H. unfold same_name_declarations in H.
  lookup_cases H; reflexivity.
Qed.

(** C10: the registries are keyed by the cog and the command's own name.
    Take a manager in its invariant and a declaration [sid] that no
    registry holds and that records no group, and run any loads, unloads,
    passes and reports in which a load enumerates the command of [sid]
    only before a command of the same name that carries another
    declaration.  In the state reached: each bucket of "all known" and of
    "still unresolved" holds at most one declaration per name; a load
    leaves under a name the declaration of the command enumerated last
    under it, in "all known" and, as long as it is unresolved, in "still
    unresolved"; the overwritten declaration [sid] is in neither
    registry and still records no group; and an error of the report is
    the diagnostic of an entry of "still unresolved", never of [sid]. *)
Theorem same_name_keeps_last_declaration
        (s : state) (sid : nat) (sub : _Subcommand) (ops : list operation) :
  manager_invariant s ->
  unreferenced s sid ->
  subcommand_attr s !! sid = Some sub ->
  _group sub = None ->
  always_overwritten sid ops s ->
  let s' := run ops s in
  (forall c b k v1 v2,
      In (c, b) (__commands s') \/ In (c, b) (_not_found s') ->
      In (k, v1) b -> In (k, v2) b -> v1 = v2)
  /\ (forall cg s1 r s2 l1 i l3 c,
        original_cog_add cg s' = (Ok tt, s1) ->
        enumerated s1 cg = l1 ++ i :: l3 ->
        (forall j, In j l1 -> is_Some (objs s1 !! j)) ->
        objs s1 !! i = Some c ->
        is_Some (subcommand_attr s1 !! cmd_callback c) ->
        (forall j cj, In j l3 -> objs s1 !! j = Some cj ->
                      cmd_name cj <> cmd_name c) ->
        __cog_add cg s' = (r, s2) ->
        dd_get (cog_qualified_name cg) (cmd_name c) (__commands s2)
        = Some (cmd_callback c)
        /\ forall v,
             dd_get (cog_qualified_name cg) (cmd_name c) (_not_found s2)
             = Some v ->
             v = cmd_callback c)
  /\ unreferenced s' sid
  /\ (exists sub', subcommand_attr s' !! sid = Some sub'
                   /\ _group sub' = None)
  /\ (forall msg s2,
        raise_for_remaining_commands s' = (Raise (RuntimeError msg), s2) ->
        exists e, In e (entries (_not_found s'))
                  /\ snd e <> sid /\ diagnostic s' e = Some msg).
Proof.
  intros I U Hs Hg A s'.
  pose proof (run_invariant ops s I) as I'. fold s' in I'.
  destruct (run_keeps_overwritten sid ops s I U A) as [U' E']. fold s' in U', E'.
  split; [|split; [|split; [exact U'|split]]].
  - intros c b k v1 v2 [Hin|Hin]; apply NoDup_keys_functional;
      [eapply (wf_known_bucket_keys _ (proj1 I')), Hin
      |eapply (wf_bucket_keys _ (proj1 I')), Hin].
  - intros cg s1 r s2 l1 i l3 c. now apply load_retains_last.
  - rewrite Hs in E'. simpl in E'.
    destruct (subcommand_attr s' !! sid) as [sub'|]; [|discriminate].
    exists sub'. split; [reflexivity|]. injection E' as ->. exact Hg.
  - intros msg s2 H. apply report_names_an_entry in H
      as ([[c k] v] & Hin & _ & Hd).
    exists (c, k, v). split; [exact Hin|]. split; [|exact Hd].
    simpl. intros ->. apply in_entries in Hin as (b & Hc & Hk).
    apply (U' c b); [now right|].
    unfold Dict.values. change sid with (snd (k, sid)). now apply in_map.
Qed.

Lemma same_name_keeps_last_declaration_witness :
  let s' := run [Load (Cog "P" [0] [1]); Pass; Report] same_name_unrecorded in
  dd_get "P" "info" (__commands s') = Some 11
  /\ dd_get "P" "info" (_not_found s') = Some 11
  /\ unreferenced s' 10
  /\ (exists sub', subcommand_attr s' !! 10 = Some sub'
                   /\ _group sub' = None)
  /\ (forall msg s2,
        raise_for_remaining_commands s' = (Raise (RuntimeError msg), s2) ->
        exists e, In e (entries (_not_found s'))
                  /\ snd e <> 10 /\ diagnostic s' e = Some msg).
Proof.
  destruct (same_name_keeps_last_declaration same_name_unrecorded 10
              (Subcommand "user" 0 None)
              [Load (Cog "P" [0] [1]); Pass; Report])
    as (_ & _ & H3 & H4 & H5).
  - apply init_invariant;
      [apply same_name_decorated | apply same_name_callbacks
      | apply same_name_fresh].
  - intros c b [[]|[]].
  - reflexivity.
  - reflexivity.
  - split; [|split; [exact I|split; [exact I|exact I]]].
    intros s1 H1. vm_compute in H1. injection H1 as <-. split.
    + intros j Hj. vm_compute in Hj.
      destruct Hj as [<-|[<-|[]]]; eexists; reflexivity.
    + split; [|split; [|exact I]].
      * intros c Hc _. vm_compute in Hc. injection Hc as <-.
        exists 1, (Command "info" AppCommand 11 None [] None).
        split; [now left|]. split; [reflexivity|]. split; [reflexivity|].
        split; [discriminate|]. eexists; reflexivity.
      * intros c Hc Hcb. vm_compute in Hc. injection Hc as <-.
        discriminate Hcb.
  - split; [reflexivity|]. split; [reflexivity|].
    split; [exact H3|]. split; [exact H4|exact H5].
Defined.

(** ** The order of loading *)













Lemma registered_fields cg app name i s :
  objs (registered cg app name i s) = objs s
  /\ subcommand_attr (registered cg app name i s) = subcommand_attr s
  /\ __commands (registered cg app name i s) = __commands s
  /\ _not_found (registered cg app name i s) = _not_found s
  /\ _check_group_type (registered cg app name i s) = _check_group_type s
  /\ loaded_cogs (registered cg app name i s)
     = Dict.set (cog_qualified_name cg) cg (loaded_cogs s)
  /\ tree (registered cg app name i s)
     = (if app then Dict.set name i (tree s) else tree s)
  /\ all_commands (registered cg app name i s)
     = (if app then all_commands s else Dict.set name i (all_commands s)).
Proof. unfold registered. destruct app; repeat split; reflexivity. Qed.




Section LoadOrder.

Variables (o : gmap nat command) (attr : gmap nat _Subcommand).
Variables (copy check : bool).
Variables (ic ig : nat) (C G : command) (sub : _Subcommand).
Variables (an bn : string).

Hypothesis HC : o !! ic = Some C.
Hypothesis HG : o !! ig = Some G.
Hypothesis HCp : cmd_parent C = None.
Hypothesis HCc : cmd_children C = [].
Hypothesis HGp : cmd_parent G = None.
Hypothesis HGc : cmd_children G = [].
Hypothesis Hsub : attr !! cmd_callback C = Some sub.
Hypothesis Htarget : group_name sub = cmd_name G.
Hypothesis HGplain : attr !! cmd_callback G = None.
Hypothesis Hnames : cmd_name C <> cmd_name G.
Hypothesis Hcogs : an <> bn.
Hypothesis Hcompat :
  check_group (cmd_name G) (cmd_name C) (cmd_kind C) (cmd_kind G) = Ok tt.





End LoadOrder.



(** * Further properties of the code *)

(** ** The checks of the group search *)

(** X1: the four [isinstance] checks of [__find_group] accept exactly the
    pairs of the table [accepts], for a group of any of the three group
    classes: slash under slash, hybrid under hybrid or prefix, prefix
    under prefix only.  The message arguments play no part. *)
Theorem check_group_accepts (name qn : string) (ck gk : kind) :
  is_any_group gk = true ->
  (check_group name qn ck gk = Ok tt <-> accepts ck gk = true)
  /\ (accepts ck gk = false ->
      check_group name qn ck gk = Raise (TypeError_cannot_add ck gk)).
Proof.
  destruct ck, gk; simpl; intros H; try discriminate H;
    (split; [split|]); intros H1; try reflexivity; discriminate H1.
Qed.

Lemma check_group_accepts_witness :
  (check_group "g" "info" HybridCommand PrefixGroup = Ok tt
   <-> accepts HybridCommand PrefixGroup = true)
  /\ (accepts PrefixCommand HybridGroup = false ->
      check_group "g" "info" PrefixCommand HybridGroup
      = Raise (TypeError_cannot_add PrefixCommand HybridGroup)).
Proof.
  split.
  - apply (check_group_accepts "g" "info" HybridCommand PrefixGroup).
    reflexivity.
  - apply (check_group_accepts "g" "info" PrefixCommand HybridGroup).
    reflexivity.
Defined.

Lemma get_groups_are_groups s c chk g :
  In g (__get_groups s c chk) ->
  exists G, objs s !! g = Some G /\ is_any_group (cmd_kind G) = true
            /\ (chk = true ->
                if has_kind is_app (objs s) c
                then cmd_kind G = AppGroup
                else is_commands_Group (cmd_kind G) = true).
Proof.
  rewrite get_groups_unfold. intros H.
  assert (Ht : In g (tree_groups s) ->
               exists G, objs s !! g = Some G /\ cmd_kind G = AppGroup).
  { intros Hg. apply tree_groups_kind in Hg. unfold has_kind in Hg.
    destruct (objs s !! g) as [G|]; [|discriminate]. exists G.
    split; [reflexivity|]. now destruct (cmd_kind G). }
  assert (Hp : In g (prefix_groups s) ->
               exists G, objs s !! g = Some G
                         /\ is_commands_Group (cmd_kind G) = true).
  { intros Hg. apply prefix_groups_kind in Hg. unfold has_kind in Hg.
    destruct (objs s !! g) as [G|]; [|discriminate]. eauto. }
  destruct chk; simpl in H.
  - destruct (has_kind is_app (objs s) c).
    + destruct (Ht H) as (G & HG & Hk). exists G. rewrite Hk. auto.
    + destruct (Hp H) as (G & HG & Hk). exists G.
      split; [exact HG|]. split; [|auto].
      now destruct (cmd_kind G).
  - apply in_app_iff in H as [H|H].
    + destruct (Ht H) as (G & HG & Hk). exists G. rewrite Hk.
      split; [exact HG|]. split; [reflexivity|discriminate].
    + destruct (Hp H) as (G & HG & Hk). exists G.
      split; [exact HG|]. split; [|discriminate].
      now destruct (cmd_kind G).
Qed.



(** ** The words of the diagnostic *)

(** X3: the labels [_determine_command_type] and
    [_determine_command_group] put in the diagnostic.  The ["unknown"]
    branch is never taken.  Since [commands.Group] derives from
    [commands.Command], a prefix or hybrid group is called ["command"]
    and its target ["Command group"]; only a slash group is called
    ["group"]. *)
Theorem labels_of_kinds (k : kind) :
  _determine_command_type k <> "unknown"
  /\ _determine_command_group k <> "unknown"
  /\ (_determine_command_type k = "group" <-> k = AppGroup)
  /\ (_determine_command_group k = "Group" <-> k = AppGroup)
  /\ (is_commands_Command k = true ->
      _determine_command_type k = "command"
      /\ _determine_command_group k = "Command group")
  /\ (k = AppCommand ->
      _determine_command_type k = "app command"
      /\ _determine_command_group k = "App command group").
Proof.
  destruct k; simpl; repeat split; intros; try discriminate; auto.
Qed.

(** ** The suggestion of the diagnostic *)

Lemma max_from_member cur l :
  snd (Difflib.max_from cur l) = snd cur
  \/ In (snd (Difflib.max_from cur l)) (map snd l).
Proof.
  revert cur. induction l as [|p l IH]; intros cur; simpl; [now left|].
  destruct (IH (if Difflib.scored_lt cur p then p else cur)) as [E|Hin];
    [|now right; right].
  rewrite E. destruct (Difflib.scored_lt cur p); auto.
Qed.

Lemma get_close_matches_member word possibilities :
  (possibilities = [] /\ Difflib.get_close_matches word possibilities = [])
  \/ exists x, In x possibilities
               /\ Difflib.get_close_matches word possibilities = [x].
Proof.
  unfold Difflib.get_close_matches.
  destruct possibilities as [|p ps]; [now left|]. right. simpl.
  eexists. split; [|reflexivity].
  destruct (max_from_member
              (Difflib.ratio (list_ascii_of_string p)
                             (list_ascii_of_string word), p)
              (map (fun x => (Difflib.ratio (list_ascii_of_string x)
                                (list_ascii_of_string word), x)) ps))
    as [->|Hin]; [now left|].
  right. rewrite map_map in Hin. simpl in Hin. now rewrite map_id in Hin.
Qed.

(** X4: what the report says of an unresolved entry.  For a declaration
    without a group whose command is an object of the store, the body of
    the report raises a [RuntimeError] and changes nothing.  When no
    group of the universe of the declared command is registered the
    message is the bare sentence; otherwise it ends with one "Did you
    mean" suggestion, and the name suggested is the qualified name of
    such a group.  Groups of the other universe are never suggested,
    whatever [check_group_type] is. *)
Theorem report_suggests_a_registered_group
        (s : state) (cog name : string) (sid : nat) (sub : _Subcommand)
        (C : command) :
  subcommand_attr s !! sid = Some sub ->
  _group sub = None ->
  objs s !! _command sub = Some C ->
  let sentence :=
    not_found_message (cmd_kind C) (group_name sub) name cog [] in
  (suggestions_for s sub = []
   /\ report_entry cog (name, sid) s = (Raise (RuntimeError sentence), s))
  \/ exists g G,
       In g (__get_groups s (_command sub) true)
       /\ objs s !! g = Some G
       /\ (if is_app (cmd_kind C) then cmd_kind G = AppGroup
           else is_commands_Group (cmd_kind G) = true)
       /\ report_entry cog (name, sid) s =
          (Raise (RuntimeError
                    (sentence ++ " Did you mean "
                     ++ PyRepr.repr (qualified_name (objs s) g) ++ "?")), s).
Proof.
  intros Hs Hg HC sentence.
  assert (Hrun : report_entry cog (name, sid) s =
                 (Raise (RuntimeError
                           (not_found_message (cmd_kind C) (group_name sub)
                              name cog
                              (Difflib.get_close_matches name
                                 (suggestions_for s sub)))), s)).
  { unfold report_entry, bind, get_sub, get_cmd, gets, raise. simpl.
    rewrite Hs. simpl. rewrite Hg. simpl. now rewrite HC. }
  destruct (get_close_matches_member name (suggestions_for s sub))
    as [[E1 E2]|(x & Hin & E)].
  - left. split; [exact E1|]. now rewrite Hrun, E2.
  - right. unfold suggestions_for in Hin. apply in_map_iff in Hin
      as (g & <- & Hin).
    destruct (get_groups_are_groups _ _ _ _ Hin) as (G & HG & _ & Hk).
    specialize (Hk eq_refl). unfold has_kind in Hk. rewrite HC in Hk.
    exists g, G. split; [exact Hin|]. split; [exact HG|].
    split; [exact Hk|]. rewrite Hrun, E. reflexivity.
Qed.

Lemma report_suggests_a_registered_group_witness :
  exists g G,
    In g (__get_groups misspelt_target 2 true)
    /\ objs misspelt_target !! g = Some G
    /\ is_commands_Group (cmd_kind G) = true
    /\ fst (report_entry "P" ("mod", 12) misspelt_target) =
       Raise (RuntimeError
                ("Command group 'users' for command 'mod' in cog 'P' was not found."
                 ++ " Did you mean "
                 ++ PyRepr.repr (qualified_name (objs misspelt_target) g)
                 ++ "?")).
Proof.
  destruct (report_suggests_a_registered_group misspelt_target "P" "mod" 12
              (Subcommand "users" 2 None)
              (Command "mod" PrefixCommand 12 None [] None)
              eq_refl eq_refl eq_refl)
    as [[E _]|(g & G & Hin & HG & Hk & Hr)]; [discriminate E|].
  exists g, G. split; [exact Hin|]. split; [exact HG|].
  split; [exact Hk|]. now rewrite Hr.
Defined.

(** ** When the report is silent *)

Lemma report_entry_Ok cog item s s' :
  report_entry cog item s = (Ok tt, s') ->
  resolved_in s (cog, fst item, snd item).
Proof.
  unfold report_entry, resolved_in, bind, get_sub, get_cmd, gets, raise, ret.
  simpl.
  destruct (subcommand_attr s !! snd item) as [sub|]; [|discriminate].
  destruct (_group sub) as [g|] eqn:Hg; [eauto|].
  simpl. destruct (objs s !! _command sub); discriminate.
Qed.

Lemma report_loop_Ok l : forall s s',
  for_each l (fun e => report_entry (fst (fst e)) (snd (fst e), snd e)) s
  = (Ok tt, s') ->
  forall e, In e l -> resolved_in s e.
Proof.
  induction l as [|[[c k] v] l IH]; intros s s' H e Hin; [destruct Hin|].
  simpl in H. apply bind_inv in H as [([] & s1 & H1 & H2)|(x & _ & [=])].
  pose proof (report_entry_inv _ _ _ _ _ H1) as [-> _].
  destruct Hin as [<-|Hin].
  - now apply report_entry_Ok in H1.
  - eapply IH; eassumption.
Qed.

(** X5: the report returns normally exactly when every entry of "still
    unresolved" records a group.  So it is silent on an empty registry,
    and also on an entry that is still listed but whose declaration had
    its group recorded by an attach that the group then refused. *)
Theorem report_silent_iff_groups_recorded (s : state) :
  fst (raise_for_remaining_commands s) = Ok tt
  <-> forall e, In e (entries (_not_found s)) -> resolved_in s e.
Proof.
  split.
  - intros H. destruct (raise_for_remaining_commands s) as [r s'] eqn:E.
    simpl in H. subst r. rewrite raise_for_remaining_unfold in E.
    eapply report_loop_Ok, E.
  - intros H. now rewrite (report_returns_when_all_resolved s H).
Qed.

(** ** An attach the group refuses *)

(** X6: an attach that the group refuses.  Let the search find the group
    [g] for the parentless command [C] of the declaration [sid], and let
    [g] already hold a child of that name, so that its [add_command]
    refuses.  The turn of the pass ends with the host's error.  By then
    the declaration records [g] and the name of [C] is gone from the
    top-level table of its universe, while the children of [g] and both
    registries are as before.  The entry is still listed as unresolved,
    yet the report passes over it. *)
Theorem refused_attach_leaves_group_recorded
        (s : state) (cog_name : string) (sid : nat) (sub : _Subcommand)
        (C : command) (g : nat) (G : command) :
  subcommand_attr s !! sid = Some sub ->
  objs s !! _command sub = Some C ->
  cmd_parent C = None ->
  objs s !! g = Some G ->
  __find_group sid s = (Ok (Some g), s) ->
  Dict.mem (cmd_name C) (cmd_children G) = true ->
  exists s',
    handle_entry cog_name sid s
    = (Raise (CommandRegistrationError (cmd_name C)), s')
    /\ subcommand_attr s' !! sid = Some (set_group (Some g) sub)
    /\ objs s' !! g = Some G
    /\ (if is_app (cmd_kind C)
        then tree s' = Dict.remove (cmd_name C) (tree s)
        else all_commands s' = Dict.remove (cmd_name C) (all_commands s))
    /\ __commands s' = __commands s
    /\ _not_found s' = _not_found s
    /\ report_entry cog_name (cmd_name C, sid) s' = (Ok tt, s').
Proof.
  intros Hs HC Hp HG Hf Hm. exists (refused_state sid g C s).
  assert (Ha : subcommand_attr (refused_state sid g C s) !! sid
               = Some (set_group (Some g) sub)).
  { unfold refused_state. destruct (is_app (cmd_kind C)); simpl;
      now rewrite lookup_alter_eq, Hs. }
  split.
  { unfold handle_entry. erewrite bind_Ok by exact Hf. do 2 step_ok.
    erewrite bind_Raise; [reflexivity|].
    pose proof (handle_ADD_refused s sid sub C g G (is_app (cmd_kind C))
                  Hs HC Hp HG Hm) as H.
    unfold refused_state. destruct (is_app (cmd_kind C)); exact H. }
  split; [exact Ha|].
  split; [unfold refused_state; destruct (is_app (cmd_kind C)); exact HG|].
  split; [unfold refused_state; destruct (is_app (cmd_kind C)); reflexivity|].
  split; [unfold refused_state; destruct (is_app (cmd_kind C)); reflexivity|].
  split; [unfold refused_state; destruct (is_app (cmd_kind C)); reflexivity|].
  unfold report_entry, bind, get_sub. simpl. now rewrite Ha.
Qed.

Lemma refused_attach_leaves_group_recorded_witness :
  exists s',
    handle_entry "P" 11 name_taken
    = (Raise (CommandRegistrationError "info"), s')
    /\ subcommand_attr s' !! 11 = Some (Subcommand "user" 1 (Some 0))
    /\ all_commands s' = [("user", 0)]
    /\ _not_found s' = [("P", [("info", 11)])]
    /\ fst (raise_for_remaining_commands s') = Ok tt.
Proof.
  destruct (refused_attach_leaves_group_recorded name_taken "P" 11
              (Subcommand "user" 1 None)
              (Command "info" PrefixCommand 11 None [] None) 0
              (Command "user" PrefixGroup 10 None [("info", 2)] None))
    as (s' & H1 & H2 & _ & H4 & _ & H6 & H7); try reflexivity.
  exists s'. split; [exact H1|]. split; [exact H2|].
  split; [exact H4|]. split; [exact H6|].
  rewrite raise_for_remaining_unfold, H6. simpl.
  unfold bind. simpl in H7. now rewrite H7.
Defined.

(** ** Removing the manager *)

Lemma keeps_tables_refl s : keeps_tables s s.
Proof. repeat split. Qed.

Lemma keeps_tables_trans s1 s2 s3 :
  keeps_tables s1 s2 -> keeps_tables s2 s3 -> keeps_tables s1 s3.
Proof. intros (A1 & A2 & A3) (B1 & B2 & B3). repeat split; congruence. Qed.

Ltac tables_leaf :=
  match goal with |- keeps_tables _ _ => idtac end;
  unfold keeps_tables; simpl; repeat split; reflexivity.

Lemma keeps_tables_remove_entry sid : preserves keeps_tables (remove_entry sid).
Proof.
  unfold remove_entry, __handle_prefix_hybrid_command, __handle_app_command,
    group_remove_command.
  pres_with keeps_tables_refl keeps_tables_trans tables_leaf.
Qed.

(** The loop body of [remove] does what the loop body of [__cog_remove]
    does, on a declaration whose command is an object of the store. *)
Lemma teardown_entry_eq s sid sub C :
  subcommand_attr s !! sid = Some sub ->
  objs s !! _command sub = Some C ->
  teardown_entry sid s = remove_entry sid s.
Proof.
  intros Hs HC. unfold teardown_entry, remove_entry.
  rewrite !(bind_Ok _ _ _ _ _ (get_sub_Some _ _ _ Hs)).
  rewrite (bind_Ok _ _ _ _ _ (get_cmd_Some _ _ _ HC)).
  destruct (_group sub) as [g|] eqn:Hg.
  - rewrite (bind_Ok _ _ _ _ _ (get_cmd_Some _ _ _ HC)). reflexivity.
  - unfold __handle_app_command, __handle_prefix_hybrid_command.
    destruct (is_app (cmd_kind C));
      rewrite (bind_Ok _ _ _ _ _ (get_sub_Some _ _ _ Hs)),
        (bind_Ok _ _ _ _ _ (get_cmd_Some _ _ _ HC)), Hg; reflexivity.
Qed.

Lemma for_each_concat {A} (ll : list (list A)) (body : A -> M unit) s :
  for_each ll (fun l => for_each l body) s = for_each (concat ll) body s.
Proof.
  revert s. induction ll as [|l ll IH]; intros s; [reflexivity|].
  simpl. rewrite for_each_app. unfold bind.
  destruct (for_each l body s) as [[[]|e] s1]; [apply IH|reflexivity].
Qed.

Lemma known_entry_exists s c k sid :
  well_formed s -> dd_get c k (__commands s) = Some sid ->
  exists sub C, subcommand_attr s !! sid = Some sub
                /\ objs s !! _command sub = Some C.
Proof.
  intros W H. apply (wf_entry s W) in H. unfold entry_name in H.
  destruct (subcommand_attr s !! sid) as [sub|]; [|discriminate].
  destruct (objs s !! _command sub) as [C|] eqn:HC; [|discriminate]. eauto.
Qed.

Lemma cleared_stable s s' sid :
  statics s s' -> only_detaches s s' ->
  (exists sub, subcommand_attr s !! sid = Some sub /\ _group sub = None) ->
  exists sub, subcommand_attr s' !! sid = Some sub /\ _group sub = None.
Proof.
  intros (_ & Sa & _) [D _] (sub & Hs & Hg).
  specialize (Sa sid). rewrite Hs in Sa.
  destruct (subcommand_attr s' !! sid) as [sub'|] eqn:Hs'; [|discriminate].
  exists sub'. split; [reflexivity|].
  destruct (_group sub') as [g|] eqn:Hg'; [|reflexivity].
  destruct (D sid sub' g Hs' Hg') as (sub0 & H0 & Hg0). congruence.
Qed.

(** The loop of [remove] over the declarations [l], all known: it
    returns, and every one of them ends without a group. *)
Lemma teardown_loop_runs l : forall s,
  well_formed s ->
  (forall sid, In sid l ->
               exists k1 k2, dd_get k1 k2 (__commands s) = Some sid) ->
  exists s',
    for_each l teardown_entry s = (Ok tt, s')
    /\ statics s s' /\ keeps_registry s s' /\ only_detaches s s'
    /\ keeps_tables s s' /\ well_formed s'
    /\ forall sid, In sid l ->
         exists sub, subcommand_attr s' !! sid = Some sub
                     /\ _group sub = None.
Proof.
  induction l as [|x l IH]; intros s W Hl.
  - exists s. split; [reflexivity|].
    split; [apply statics_refl|]. split; [apply keeps_registry_refl|].
    split; [apply only_detaches_refl|]. split; [apply keeps_tables_refl|].
    split; [exact W|]. intros sid [].
  - destruct (Hl x (or_introl eq_refl)) as (k1 & k2 & Hx).
    destruct (known_entry_exists _ _ _ _ W Hx) as (sub & C & Hs & HC).
    destruct (remove_loop_runs [x] s W) as (s1 & H1 & St1 & Rg1 & D1 & W1).
    { intros sid [<-|[]]. eauto. }
    simpl in H1.
    apply bind_inv in H1 as [([] & s1' & H1 & [= ->])|(e & _ & [=])].
    pose proof (keeps_tables_remove_entry x _ _ _ H1) as T1.
    destruct (IH s1 W1) as (s' & H2 & St2 & Rg2 & D2 & T2 & W2 & C2).
    { intros sid Hin. destruct (Hl sid (or_intror Hin)) as (c & k & Hk).
      exists c, k. destruct Rg1 as [-> _]. exact Hk. }
    exists s'. split.
    { cbn [for_each]. unfold bind at 1.
      rewrite (teardown_entry_eq s x sub C Hs HC), H1. exact H2. }
    split; [eapply statics_trans; eassumption|].
    split; [eapply keeps_registry_trans; eassumption|].
    split; [eapply only_detaches_trans; eassumption|].
    split; [eapply keeps_tables_trans; eassumption|].
    split; [exact W2|].
    intros sid [<-|Hin]; [|now apply C2].
    apply (cleared_stable s1 s' x St2 D2).
    apply remove_entry_inv in H1 as (sub1 & C1 & Hs1 & HC1 & Hcase).
    destruct Hcase as [[Hg ->]|(g & G & Hg & HG & ->)]; [eauto|].
    unfold detached_state.
    destruct (Dict.get (cmd_name C1) (cmd_children G)); simpl;
      rewrite lookup_alter_eq, Hs1; simpl; eauto.
Qed.

Lemma In_concat_values (d : Dict.t (Dict.t nat)) sid :
  In sid (concat (map Dict.values (Dict.values d))) ->
  exists c b k, In (c, b) d /\ In (k, sid) b.
Proof.
  intros H. apply in_concat in H as (vs & Hvs & Hin).
  apply in_map_iff in Hvs as (b & <- & Hb).
  unfold Dict.values in Hb, Hin.
  apply in_map_iff in Hb as ([c b'] & Eb & Hb). simpl in Eb. subst b'.
  apply in_map_iff in Hin as ([k v] & Ev & Hin). simpl in Ev. subst v.
  eauto.
Qed.

Lemma clear_registries_runs s :
  well_formed s ->
  exists s1,
    clear_registries s
    = (Ok tt, with_not_found (fun _ => []) (with_commands (fun _ => []) s1))
    /\ statics s s1 /\ only_detaches s s1 /\ keeps_tables s s1
    /\ forall c k sid,
         dd_get c k (__commands s) = Some sid ->
         exists sub, subcommand_attr s1 !! sid = Some sub
                     /\ _group sub = None.
Proof.
  intros W.
  destruct (teardown_loop_runs
              (concat (map Dict.values (Dict.values (__commands s)))) s W)
    as (s1 & H1 & St & Rg & D & T & W1 & Cl).
  { intros sid Hin. apply In_concat_values in Hin as (c & bk & k & Hc & Hk).
    exists c, k. eapply In_dd_get; [apply W | apply W | eassumption..]. }
  exists s1. split.
  { unfold clear_registries. erewrite bind_Ok by apply gets_run.
    erewrite bind_Ok.
    2:{ rewrite <- (for_each_map Dict.values _
                      (fun l => for_each l teardown_entry)).
        rewrite for_each_concat. exact H1. }
    reflexivity. }
  split; [exact St|]. split; [exact D|]. split; [exact T|].
  intros c k sid Hk. apply Cl. unfold dd_get in Hk.
  destruct (Dict.get c (__commands s)) as [bk|] eqn:Hc; [|discriminate].
  apply in_concat. exists (Dict.values bk). split.
  - apply in_map. eapply get_In_values, Hc.
  - eapply get_In_values, Hk.
Qed.

(** X7: [remove] on a well-formed manager.  It returns normally and
    hands the bot its own [add_cog] and [remove_cog] back.  Both
    registries end empty, and every declaration that "all known" held
    ends without a group.  The declarations and objects are otherwise
    the same ones, and the host's top-level tables and loaded cogs are
    not touched: a command that an attach took out of the top-level
    table is not put back. *)
Theorem remove_detaches_and_restores (b : installation) :
  well_formed (manager b) ->
  exists s',
    remove b = (Ok tt, Installation Original Original s')
    /\ __commands s' = [] /\ _not_found s' = []
    /\ (forall c k sid,
          dd_get c k (__commands (manager b)) = Some sid ->
          exists sub, subcommand_attr s' !! sid = Some sub
                      /\ _group sub = None)
    /\ statics (manager b) s' /\ only_detaches (manager b) s'
    /\ keeps_tables (manager b) s'.
Proof.
  intros W.
  destruct (clear_registries_runs _ W) as (s1 & H1 & St & D & T & Cl).
  exists (with_not_found (fun _ => []) (with_commands (fun _ => []) s1)).
  split; [unfold remove; now rewrite H1|].
  split; [reflexivity|]. split; [reflexivity|].
  split; [exact Cl|]. split; [exact St|]. split; [exact D|exact T].
Qed.

Lemma remove_detaches_and_restores_witness :
  exists s',
    remove (Installation Managed Managed attached_info)
    = (Ok tt, Installation Original Original s')
    /\ __commands s' = [] /\ _not_found s' = []
    /\ (exists sub, subcommand_attr s' !! 11 = Some sub /\ _group sub = None)
    /\ all_commands s' = all_commands attached_info.
Proof.
  destruct (remove_detaches_and_restores
              (Installation Managed Managed attached_info)
              attached_info_well_formed)
    as (s' & H1 & H2 & H3 & H4 & _ & _ & H7 & _).
  exists s'. split; [exact H1|]. split; [exact H2|]. split; [exact H3|].
  split; [|exact H7]. apply (H4 "P" "info" 11). reflexivity.
Defined.

(** X8: after [remove].  On a well-formed manager, a second [remove]
    returns and changes nothing; and [bot.add_cog] is the host's own
    again: it answers as the host does, and a cog added then is not
    recorded, whatever it declares: both registries stay empty and no
    declaration is touched. *)
Theorem removed_manager_records_nothing (b : installation) (cg : cog) :
  well_formed (manager b) ->
  let b1 := snd (remove b) in
  remove b1 = (Ok tt, b1)
  /\ fst (add_cog cg b1) = fst (original_cog_add cg (manager b1))
  /\ __commands (manager (snd (add_cog cg b1))) = []
  /\ _not_found (manager (snd (add_cog cg b1))) = []
  /\ subcommand_attr (manager (snd (add_cog cg b1)))
     = subcommand_attr (manager b1).
Proof.
  intros W b1.
  destruct (clear_registries_runs _ W) as (s1 & H1 & _).
  assert (E : b1 = Installation Original Original
                     (with_not_found (fun _ => [])
                        (with_commands (fun _ => []) s1))).
  { unfold b1, remove. now rewrite H1. }
  rewrite E. split; [reflexivity|]. split; [reflexivity|].
  unfold add_cog. cbn [bot_add_cog manager snd].
  destruct (original_cog_add cg _) as [r s2] eqn:H2.
  apply original_cog_add_inv in H2
    as [[-> _]|(_ & s0 & [_ Sa] & [R1 R2] & _ & ->)];
    [repeat split; reflexivity|].
  cbn [snd]. split; [exact R1|]. split; [exact R2|exact Sa].
Qed.

Lemma removed_manager_records_nothing_witness :
  let b1 := snd (remove (Installation Managed Managed attached_info)) in
  remove b1 = (Ok tt, b1)
  /\ __commands (manager (snd (add_cog (Cog "R" [] []) b1))) = [].
Proof.
  destruct (removed_manager_records_nothing
              (Installation Managed Managed attached_info) (Cog "R" [] [])
              attached_info_well_formed) as (H1 & _ & H3 & _).
  split; [exact H1|exact H3].
Defined.

(** ** Unloading what was never recorded, and unloading what was loaded *)

Lemma remove_absent {V} (d : Dict.t V) k :
  Dict.get k d = None -> Dict.remove k d = d.
Proof.
  induction d as [|[k' v] d IH]; simpl; [reflexivity|].
  destruct (String.eqb k k'); [discriminate|].
  intros H. now rewrite IH.
Qed.

Lemma remove_set_same {V} (d : Dict.t V) k v :
  Dict.remove k (Dict.set k v d) = Dict.remove k d.
Proof.
  induction d as [|[k' v'] d IH]; simpl.
  - now rewrite String.eqb_refl.
  - destruct (String.eqb k k') eqn:E; simpl.
    + now rewrite String.eqb_refl.
    + now rewrite E, IH.
Qed.

(** X9: unloading a cog of which the manager holds nothing.  The lookup
    [self.__commands[name]] is on a [defaultdict], so the [KeyError]
    branch is never taken: the unload returns normally, and both
    registries, the declarations and the objects are exactly as
    before. *)
Theorem unload_of_unknown_cog (s : state) (name : string) :
  Dict.get name (__commands s) = None ->
  Dict.get name (_not_found s) = None ->
  exists s',
    __cog_remove name s = (Ok tt, s')
    /\ __commands s' = __commands s
    /\ _not_found s' = _not_found s
    /\ subcommand_attr s' = subcommand_attr s
    /\ objs s' = objs s.
Proof.
  intros Hk Hn.
  destruct (original_cog_remove_runs name s) as (s0 & H0 & [So Sa] & [Rk Rn]).
  exists (with_not_found (Dict.remove name)
            (with_commands (Dict.remove name) s0)).
  split.
  { unfold __cog_remove. rewrite (bind_Ok _ _ _ _ _ H0).
    erewrite bind_Ok by apply gets_run. rewrite Rk, Hk. reflexivity. }
  simpl. rewrite Rk, Rn, !remove_absent by assumption. auto.
Qed.

Lemma unload_of_unknown_cog_witness :
  exists s',
    __cog_remove "Q" two_unresolved = (Ok tt, s')
    /\ __commands s' = __commands two_unresolved
    /\ _not_found s' = _not_found two_unresolved.
Proof.
  destruct (unload_of_unknown_cog two_unresolved "Q" eq_refl eq_refl)
    as (s' & H1 & H2 & H3 & _).
  exists s'. auto.
Defined.

Lemma record_loop_known_but n l : forall s r s',
  for_each l (record_command n) s = (r, s') ->
  Dict.remove n (__commands s') = Dict.remove n (__commands s)
  /\ keeps_other_buckets n s s'.
Proof.
  induction l as [|i l IH]; intros s r s' H.
  - injection H as _ <-. split; [reflexivity|apply keeps_other_buckets_refl].
  - simpl in H.
    assert (Hstep : forall r1 s1, record_command n i s = (r1, s1) ->
              Dict.remove n (__commands s1) = Dict.remove n (__commands s)
              /\ keeps_other_buckets n s s1).
    { intros r1 s1 H1. split; [|eapply record_command_other_buckets, H1].
      apply record_command_inv in H1
        as [->|(c & sub0 & _ & _ & _ & ->)]; [reflexivity|].
      simpl. unfold dd_set. apply remove_set_same. }
    apply bind_inv in H as [([] & s1 & H1 & H2)|(e & H1 & _)].
    + destruct (Hstep _ _ H1) as [E1 K1]. destruct (IH _ _ _ H2) as [E2 K2].
      split; [congruence|]. eapply keeps_other_buckets_trans; eassumption.
    + eapply Hstep, H1.
Qed.

(** X10: a load followed by the unload of the same cog.  From a manager
    in its invariant and a cog that is not loaded, whatever the load
    answers, the unload returns normally, "all known" is exactly what it
    was before the load, the cog has no bucket in "still unresolved", and
    nothing is unresolved that was not before. *)
Theorem load_then_unload_restores_known
        (cg : cog) (s : state) (r : result unit) (s1 : state) :
  manager_invariant s ->
  Dict.mem (cog_qualified_name cg) (loaded_cogs s) = false ->
  __cog_add cg s = (r, s1) ->
  exists s2,
    __cog_remove (cog_qualified_name cg) s1 = (Ok tt, s2)
    /\ __commands s2 = __commands s
    /\ Dict.get (cog_qualified_name cg) (_not_found s2) = None
    /\ forall c k sid,
         dd_get c k (_not_found s2) = Some sid ->
         dd_get c k (_not_found s) = Some sid.
Proof.
  intros I Hl H. set (n := cog_qualified_name cg) in *.
  assert (Habs : Dict.get n (__commands s) = None).
  { destruct I as [_ L]. specialize (L n). unfold Dict.mem in L, Hl.
    destruct (Dict.get n (__commands s)); [|reflexivity].
    specialize (L eq_refl). destruct (Dict.get n (loaded_cogs s));
      discriminate. }
  assert (Hload : Dict.remove n (__commands s1) = __commands s
                  /\ forall c k sid, c <> n ->
                       dd_get c k (_not_found s1) = Some sid ->
                       dd_get c k (_not_found s) = Some sid).
  { rewrite <- (remove_absent (__commands s) n Habs).
    unfold __cog_add in H.
    apply bind_inv in H as [([] & sa & Ha & H)|(e & Ha & _)].
    2:{ apply original_cog_add_inv in Ha as [[-> _]|[[=] _]]. auto. }
    destruct (original_cog_add_ok _ _ _ Ha I) as (Ia & Hna & _ & [Rk Rn]).
    apply bind_inv in H as [(sb & sc & [= <- <-] & H)|(e & [=] & _)].
    fold n in H.
    assert (Hrec : forall rb sb,
              for_each (cog_walk_commands sa cg ++ cog_walk_app_commands sa cg)
                       (record_command n) sa = (rb, sb) ->
              Dict.remove n (__commands sb) = Dict.remove n (__commands s)
              /\ forall c k sid, c <> n ->
                   dd_get c k (_not_found sb) = Some sid ->
                   dd_get c k (_not_found s) = Some sid).
    { intros rb sb Hb. destruct (record_loop_known_but _ _ _ _ _ Hb) as [E K].
      split; [now rewrite E, Rk|].
      intros c k sid Hc Hd. destruct (K c k Hc) as [En _].
      now rewrite En, Rn in Hd. }
    apply bind_inv in H as [([] & sb & Hb & H)|(e & Hb & _)];
      [|now apply Hrec in Hb].
    destruct (Hrec _ _ Hb) as [E K].
    destruct (record_loop_invariant _ _ _ _ _ Hb Ia Hna) as [[Wb _] _].
    pose proof (same_known_handle_commands _ _ _ H) as [Ek _].
    destruct (pass_strikes_only_attached sb Wb _ _ H) as [_ Hadd].
    split; [now rewrite Ek|].
    intros c k sid Hc Hd. apply (K c k sid Hc). now apply Hadd. }
  destruct Hload as [Hk Hnf].
  destruct (load_invariant _ _ _ _ H I) as [W1 _].
  destruct (cog_remove_runs n s1 W1)
    as (s0 & s1' & _ & _ & [Rk0 Rn0] & _ & _ & _ & [Rk1 Rn1] & _ & _ & _ & Hrun).
  eexists. split; [exact Hrun|]. simpl.
  rewrite Rk1, Rk0, Rn1, Rn0.
  split; [exact Hk|]. split; [apply get_remove_eq|].
  intros c k sid Hd. rewrite dd_get_remove in Hd.
  destruct (String.eqb_spec c n) as [->|Hc]; [discriminate|].
  now apply (Hnf c k sid Hc).
Qed.

Lemma load_then_unload_restores_known_witness :
  exists s2,
    __cog_remove "P"
      (snd (__cog_add (Cog "P" [0; 1] [])
              (MultiFilesSubcommandsManager two_commands two_declarations
                 false false))) = (Ok tt, s2)
    /\ __commands s2 = []
    /\ Dict.get "P" (_not_found s2) = None.
Proof.
  destruct (load_then_unload_restores_known (Cog "P" [0; 1] [])
              (MultiFilesSubcommandsManager two_commands two_declarations
                 false false)
              (fst (__cog_add (Cog "P" [0; 1] [])
                      (MultiFilesSubcommandsManager two_commands
                         two_declarations false false)))
              (snd (__cog_add (Cog "P" [0; 1] [])
                      (MultiFilesSubcommandsManager two_commands
                         two_declarations false false))))
    as (s2 & H1 & H2 & H3 & _).
  - apply init_invariant;
      [apply two_declarations_decorated | apply two_commands_callbacks
      | apply two_declarations_fresh].
  - reflexivity.
  - now destruct (__cog_add _ _).
  - exists s2. auto.
Defined.

(** ** Commands that share a callback *)

Lemma record_loop_declarations n l : forall s r s',
  for_each l (record_command n) s = (r, s') ->
  objs s' = objs s
  /\ forall x sub,
       subcommand_attr s !! x = Some sub ->
       exists c, subcommand_attr s' !! x
                 = Some (Subcommand (group_name sub) c (_group sub)).
Proof.
  induction l as [|i l IH]; intros s r s' H.
  - injection H as _ <-. split; [reflexivity|].
    intros x [g c grp] Hx. exists c. exact Hx.
  - simpl in H.
    assert (Hstep : forall r1 s1, record_command n i s = (r1, s1) ->
              objs s1 = objs s
              /\ forall x sub,
                   subcommand_attr s !! x = Some sub ->
                   exists c, subcommand_attr s1 !! x
                             = Some (Subcommand (group_name sub) c
                                                (_group sub))).
    { intros r1 s1 H1. apply record_command_inv in H1
        as [->|(c & sub0 & _ & Hs & _ & ->)].
      - split; [reflexivity|]. intros x [g c grp] Hx. exists c. exact Hx.
      - split; [reflexivity|]. intros x sub Hx. simpl.
        destruct (decide (x = cmd_callback c)) as [->|Hne].
        + rewrite lookup_alter_eq, Hx. simpl. eauto.
        + rewrite lookup_alter_ne by congruence.
          destruct sub as [g c' grp]. exists c'. exact Hx. }
    apply bind_inv in H as [([] & s1 & H1 & H2)|(e & H1 & _)];
      [|now apply Hstep in H1].
    destruct (Hstep _ _ H1) as [Eo Ha]. destruct (IH _ _ _ H2) as [Eo' Ha'].
    split; [congruence|]. intros x sub Hx.
    destruct (Ha x sub Hx) as (c1 & H1x).
    destruct (Ha' x _ H1x) as (c2 & H2x). simpl in H2x. eauto.
Qed.

Lemma record_loop_attr_other n sid l : forall s r s',
  for_each l (record_command n) s = (r, s') ->
  (forall i ci, In i l -> objs s !! i = Some ci -> cmd_callback ci <> sid) ->
  subcommand_attr s' !! sid = subcommand_attr s !! sid.
Proof.
  induction l as [|i l IH]; intros s r s' H Hl.
  - now injection H as _ <-.
  - simpl in H.
    assert (Hstep : forall r1 s1, record_command n i s = (r1, s1) ->
              objs s1 = objs s
              /\ subcommand_attr s1 !! sid = subcommand_attr s !! sid).
    { intros r1 s1 H1. apply record_command_inv in H1
        as [->|(c & sub0 & Hc & _ & _ & ->)]; [split; reflexivity|].
      split; [reflexivity|]. simpl. apply lookup_alter_ne.
      eapply Hl; [now left|exact Hc]. }
    apply bind_inv in H as [([] & s1 & H1 & H2)|(e & H1 & _)];
      [|now apply Hstep in H1].
    destruct (Hstep _ _ H1) as [Eo Ea]. rewrite <- Ea.
    eapply IH; [exact H2|]. intros j cj Hj. rewrite Eo. apply Hl. now right.
Qed.

(** X11: a declaration follows the last command enumerated with its
    callback.  [__get_subcommand] writes the command it was asked about
    into the declaration it finds on the callback.  So after the
    recording loop of a load, the declaration on the callback of [j]
    points at [j] if no later command of the enumeration wraps the same
    callback, whichever commands wrapped it before; its group name and
    its group are untouched.  A prefix or hybrid command whose callback
    is also wrapped by a slash command enumerated after it is from then
    on handled as that slash command. *)
Theorem declaration_follows_last_command
        (n : string) (l1 : list nat) (j : nat) (l2 : list nat)
        (s : state) (cj : command) (sub : _Subcommand)
        (r : result unit) (s' : state) :
  (forall i, In i l1 -> is_Some (objs s !! i)) ->
  objs s !! j = Some cj ->
  subcommand_attr s !! cmd_callback cj = Some sub ->
  (forall i ci, In i l2 -> objs s !! i = Some ci ->
                cmd_callback ci <> cmd_callback cj) ->
  for_each (l1 ++ j :: l2) (record_command n) s = (r, s') ->
  subcommand_attr s' !! cmd_callback cj
  = Some (Subcommand (group_name sub) j (_group sub))
  /\ objs s' !! j = Some cj.
Proof.
  intros Hex Hj Hs Hl2 H. rewrite for_each_app in H.
  destruct (record_loop_runs n l1 s Hex) as (sa & Ha & Eo & _).
  rewrite (bind_Ok _ _ _ _ _ Ha) in H.
  destruct (record_loop_declarations _ _ _ _ _ Ha) as [_ Hd].
  destruct (Hd _ _ Hs) as (c0 & Hsa). simpl in H.
  assert (Hja : objs sa !! j = Some cj) by now rewrite Eo.
  rewrite (bind_Ok _ _ _ _ _ (record_command_run n j sa cj Hja)) in H.
  unfold after_record in H. rewrite Hsa in H.
  pose proof (record_loop_attr_other n (cmd_callback cj) l2 _ _ _ H) as Ea.
  destruct (record_loop_declarations _ _ _ _ _ H) as [Eo' _].
  split.
  - rewrite Ea.
    + simpl. now rewrite lookup_alter_eq, Hsa.
    + intros i ci Hi Hci. simpl in Hci. rewrite Eo in Hci. eauto.
  - rewrite Eo'. simpl. exact Hja.
Qed.

Lemma declaration_follows_last_command_witness :
  let s := MultiFilesSubcommandsManager twin_store twin_declarations
             false false in
  subcommand_attr (snd (for_each [0; 1] (record_command "P") s)) !! 10
  = Some (Subcommand "user" 1 None)
  /\ has_kind is_app
       (objs (snd (for_each [0; 1] (record_command "P") s))) 1 = true.
Proof.
  intros s.
  destruct (declaration_follows_last_command "P" [0] 1 [] s
              (Command "info" AppCommand 10 None [] None)
              (Subcommand "user" 0 None)
              (fst (for_each [0; 1] (record_command "P") s))
              (snd (for_each [0; 1] (record_command "P") s)))
    as [H1 H2].
  - intros i [<-|[]]. eexists. reflexivity.
  - reflexivity.
  - reflexivity.
  - intros i ci [].
  - now destruct (for_each _ _ _).
  - split; [exact H1|]. unfold has_kind. now rewrite H2.
Defined.

(** ** The decorator *)

(** X12: the decorator and the lookup that reads it back.  On a command
    with a parent the decorator raises its [ValueError] and changes
    nothing.  On a parentless slash group it raises [AttributeError],
    since a slash group has no callback to carry the declaration, and
    changes nothing.  On any other parentless command whose callback no
    registry holds yet, as when modules are imported before their cogs
    are added, it returns; the objects, both registries and the other
    declarations are as before; and [__get_subcommand], asked about any
    command [j] with a callback that wraps the same callback, finds the
    declaration, with the group name given to the decorator, no group,
    and [j] as its command. *)
Theorem decorator_then_lookup
        (s : state) (g : string) (i : nat) (c : command) :
  objs s !! i = Some c ->
  unreferenced s (cmd_callback c) ->
  (forall p, cmd_parent c = Some p ->
             subcommand g i s = (Raise ValueError_decorated_subcommand, s))
  /\ (cmd_parent c = None -> cmd_kind c = AppGroup ->
      subcommand g i s = (Raise (AttributeError "callback"), s))
  /\ (cmd_parent c = None -> cmd_kind c <> AppGroup ->
      exists s',
        subcommand g i s = (Ok tt, s')
        /\ objs s' = objs s
        /\ __commands s' = __commands s /\ _not_found s' = _not_found s
        /\ subcommand_attr s' !! cmd_callback c = Some (Subcommand g i None)
        /\ (forall x, x <> cmd_callback c ->
                      subcommand_attr s' !! x = subcommand_attr s !! x)
        /\ forall j cj,
             objs s !! j = Some cj -> cmd_kind cj <> AppGroup ->
             cmd_callback cj = cmd_callback c ->
             exists s'',
               __get_subcommand j s' = (Ok (Some (cmd_callback c)), s'')
               /\ subcommand_attr s'' !! cmd_callback c
                  = Some (Subcommand g j None)).
Proof.
  intros Hc _. unfold subcommand.
  rewrite (bind_Ok _ _ _ _ _ (get_cmd_Some _ _ _ Hc)).
  split; [|split].
  - intros p Hp. now rewrite Hp.
  - intros Hp Hk. now rewrite Hp, Hk.
  - intros Hp Hk. rewrite Hp.
    assert (Hg : is_app_Group (cmd_kind c) = false)
      by (destruct (cmd_kind c); try reflexivity; congruence).
    rewrite Hg. eexists. split; [reflexivity|]. simpl.
    split; [reflexivity|]. split; [reflexivity|]. split; [reflexivity|].
    split; [apply lookup_insert_eq|].
    split; [intros x Hx; now apply lookup_insert_ne|].
    intros j cj Hj _ Hcb. eexists. split.
    + unfold __get_subcommand.
      erewrite bind_Ok by (apply get_cmd_Some; simpl; exact Hj).
      erewrite bind_Ok by apply gets_run. simpl.
      rewrite Hcb, lookup_insert_eq.
      erewrite bind_Ok by apply modify_run. reflexivity.
    + simpl. now rewrite lookup_alter_eq, lookup_insert_eq.
Qed.

Lemma decorator_then_lookup_witness :
  (exists s' s'',
      subcommand "user" 0
        (MultiFilesSubcommandsManager two_commands ∅ false false) = (Ok tt, s')
      /\ __get_subcommand 0 s' = (Ok (Some 10), s'')
      /\ subcommand_attr s'' !! 10 = Some (Subcommand "user" 0 None))
  /\ subcommand "user" 0
       (MultiFilesSubcommandsManager slash_group_store ∅ false false)
     = (Raise (AttributeError "callback"),
        MultiFilesSubcommandsManager slash_group_store ∅ false false).
Proof.
  split.
  - destruct (decorator_then_lookup
                (MultiFilesSubcommandsManager two_commands ∅ false false)
                "user" 0 (Command "info" PrefixCommand 10 None [] None))
      as (_ & _ & H).
    + reflexivity.
    + intros c b [[]|[]].
    + destruct (H eq_refl ltac:(discriminate))
        as (s' & H1 & _ & _ & _ & _ & _ & H7).
      destruct (H7 0 (Command "info" PrefixCommand 10 None [] None)
                  eq_refl ltac:(discriminate) eq_refl) as (s'' & H8 & H9).
      exists s', s''. auto.
  - destruct (decorator_then_lookup
                (MultiFilesSubcommandsManager slash_group_store ∅ false false)
                "user" 0 (Command "settings" AppGroup 10 None [] None))
      as (_ & H & _).
    + reflexivity.
    + intros c b [[]|[]].
    + exact (H eq_refl eq_refl).
Defined.

(** ** The errors of a pass *)

Lemma find_group_raise_inv s sid sub C e s' :
  subcommand_attr s !! sid = Some sub ->
  objs s !! _command sub = Some C ->
  __find_group sid s = (Raise e, s') ->
  pass_error e.
Proof.
  intros Hs HC H.
  destruct (utils_get (objs s)
              (__get_groups s (_command sub) (negb (_check_group_type s)))
              (group_name sub)) as [g|] eqn:Hg.
  - destruct (get_groups_are_groups _ _ _ _ (utils_get_In _ _ _ _ Hg))
      as (G & HG & Hk & _).
    rewrite (find_group_Some s sid sub C g G Hs HC HG Hg) in H.
    destruct (cmd_kind C), (cmd_kind G); simpl in *;
      try discriminate; injection H as <- _; exact I.
  - rewrite (find_group_None s sid sub Hs Hg) in H. discriminate.
Qed.

(** One turn of the inner loop on a declaration that exists and, unless
    its command has a parent, is listed under the name of its command. *)
Lemma handle_entry_raise_inv c sid s sub C e s' :
  subcommand_attr s !! sid = Some sub ->
  objs s !! _command sub = Some C ->
  (cmd_parent C = None ->
   dd_get c (cmd_name C) (_not_found s) = Some sid) ->
  handle_entry c sid s = (Raise e, s') ->
  pass_error e.
Proof.
  intros Hs HC Hlisted H.
  destruct (__find_group sid s) as [r0 s0] eqn:Hf.
  pose proof (find_group_state _ _ _ _ Hf) as ->.
  destruct r0 as [[g|]|e0].
  - destruct (find_group_inv _ _ _ _ Hf)
      as (sub1 & C1 & G & Hs1 & HC1 & HG & _).
    rewrite Hs in Hs1. injection Hs1 as <-.
    rewrite HC in HC1. injection HC1 as <-.
    destruct (cmd_parent C) as [p|] eqn:Hp.
    + destruct (handle_ADD_already_subcommand s sid sub C p (Some g)
                  Hs HC Hp) as [H1 H2].
      assert (E : handle_entry c sid s =
                  (Raise (ValueError_already_a_subcommand (cmd_name C)
                            (qualified_name (objs s) p)), s)).
      { unfold handle_entry. erewrite bind_Ok by exact Hf. do 2 step_ok.
        destruct (is_app (cmd_kind C)); erewrite bind_Raise; eauto. }
      rewrite E in H. injection H as <- _. exact I.
    + destruct (Dict.mem (cmd_name C) (cmd_children G)) eqn:Hm.
      * pose proof (handle_ADD_refused s sid sub C g G (is_app (cmd_kind C))
                      Hs HC Hp HG Hm) as H1.
        assert (E : exists s1, handle_entry c sid s =
                      (Raise (CommandRegistrationError (cmd_name C)), s1)).
        { unfold handle_entry. erewrite bind_Ok by exact Hf. do 2 step_ok.
          destruct (is_app (cmd_kind C)); erewrite bind_Raise; eauto. }
        destruct E as [s1 E]. rewrite E in H. injection H as <- _. exact I.
      * rewrite (handle_entry_attaches s c sid sub C g G Hs HC Hp HG Hf Hm
                   (Hlisted eq_refl)) in H.
        discriminate.
  - unfold handle_entry in H. rewrite (bind_Ok _ _ _ _ _ Hf) in H.
    discriminate.
  - unfold handle_entry in H. rewrite (bind_Raise _ _ _ _ _ Hf) in H.
    injection H as <- _. eapply find_group_raise_inv; eassumption.
Qed.

Lemma keeps_bucket_refl c s : keeps_bucket c s s.
Proof. unfold keeps_bucket. auto. Qed.

Lemma keeps_bucket_trans c s1 s2 s3 :
  keeps_bucket c s1 s2 -> keeps_bucket c s2 s3 -> keeps_bucket c s1 s3.
Proof. unfold keeps_bucket. auto. Qed.

Lemma keeps_bucket_handle_entry c c' sid :
  preserves (keeps_bucket c) (handle_entry c' sid).
Proof.
  intros s r s' H Hm.
  apply handle_entry_inv in H
    as [[-> _]|(g & sub & C & G & _ & _ & _ & _ & H)]; [exact Hm|].
  destruct H as [(p & _ & -> & _)|[(_ & _ & -> & _)|(_ & _ & Hdel)]];
    [exact Hm| |].
  - destruct (registry_refused_state sid g C s) as (_ & -> & _). exact Hm.
  - destruct (registry_attached_before_del sid g sub G C s) as (_ & E & _).
    set (s1 := attached_before_del sid g sub G C s) in *. clearbody s1.
    apply del_not_found_inv in Hdel as [(_ & _ & ->)|(_ & _ & ->)];
      simpl; rewrite mem_set, E, Hm; apply orb_true_r.
Qed.

Section PassErrors.

Variable s0 : state.
Hypothesis W0 : well_formed s0.

Lemma pass_turn_error c sid s e s' :
  (exists key, dd_get c key (_not_found s0) = Some sid) ->
  well_formed s /\ statics s0 s /\ struck_only_attached s0 s ->
  handle_entry c sid s = (Raise e, s') ->
  pass_error e.
Proof.
  intros [key Hkey] (W & St & S1 & _) H.
  assert (Hname : entry_name s sid = Some key).
  { rewrite (entry_name_statics s0 s sid St).
    eapply (wf_entry s0 W0), (wf_covers s0 W0), Hkey. }
  unfold entry_name in Hname.
  destruct (subcommand_attr s !! sid) as [sub|] eqn:Hs; [|discriminate].
  destruct (objs s !! _command sub) as [C|] eqn:HC; [|discriminate].
  injection Hname as <-.
  eapply handle_entry_raise_inv; [exact Hs|exact HC| |exact H].
  intros Hp. destruct (S1 _ _ _ Hkey) as [E|[_ (g & Hatt)]]; [exact E|].
  destruct Hatt as (sub1 & C1 & G1 & Hs1 & _ & HC1 & Hp1 & _).
  rewrite Hs in Hs1. injection Hs1 as <-.
  rewrite HC in HC1. injection HC1 as <-. congruence.
Qed.

Lemma pass_turns_error c l : forall s e s',
  (forall sid, In sid l ->
               exists key, dd_get c key (_not_found s0) = Some sid) ->
  well_formed s /\ statics s0 s /\ struck_only_attached s0 s ->
  for_each l (handle_entry c) s = (Raise e, s') ->
  pass_error e.
Proof.
  induction l as [|sid l IH]; intros s e s' Hl J H; [discriminate|].
  simpl in H. apply bind_inv in H as [([] & s1 & H1 & H2)|(x & H1 & [= ->])].
  - eapply IH; [|
                | exact H2].
    + intros sid' Hin. apply Hl. now right.
    + eapply (pass_inv_turn s0 W0); [|exact H1|exact J]. apply Hl. now left.
  - eapply pass_turn_error; [|exact J|exact H1]. apply Hl. now left.
Qed.

Lemma pass_bucket_error item s e s' :
  In item (_not_found s0) ->
  well_formed s /\ statics s0 s /\ struck_only_attached s0 s ->
  Dict.mem (fst item) (_not_found s) = true ->
  handle_bucket item s = (Raise e, s') ->
  pass_error e.
Proof.
  destruct item as [c b]. simpl. intros Hin J Hm H.
  unfold handle_bucket in H. simpl in H.
  assert (Hl : forall sid, In sid (Dict.values b) ->
               exists key, dd_get c key (_not_found s0) = Some sid).
  { intros sid Hsid.
    destruct (In_values_get b sid) as [key Hk]; [|assumption|].
    - eapply (wf_bucket_keys s0 W0), Hin.
    - exists key. unfold dd_get.
      now rewrite (In_get_NoDup _ c b (wf_keys s0 W0) Hin). }
  apply bind_inv in H as [([] & s1 & H1 & H2)|(x & H1 & [= ->])].
  - assert (Hm1 : Dict.mem c (_not_found s1) = true).
    { revert Hm.
      eapply (preserves_for_each _ (keeps_bucket_refl c)
                (keeps_bucket_trans c)); [|exact H1].
      intros sid _. apply keeps_bucket_handle_entry. }
    apply bind_inv in H2 as [(nf & s2 & [= <- <-] & H2)|(x & [=] & _)].
    unfold Dict.mem in Hm1.
    destruct (Dict.get c (_not_found s1)) as [[|y bk]|];
      discriminate.
  - eapply pass_turns_error; [exact Hl|exact J|exact H1].
Qed.

Lemma keeps_bucket_handle_bucket c item :
  fst item <> c -> preserves (keeps_bucket c) (handle_bucket item).
Proof.
  intros Hne s r s' H Hm. unfold handle_bucket in H.
  apply bind_inv in H as [([] & s1 & H1 & H2)|(x & H1 & _)].
  - assert (Hm1 : Dict.mem c (_not_found s1) = true).
    { revert Hm.
      eapply (preserves_for_each _ (keeps_bucket_refl c)
                (keeps_bucket_trans c)); [|exact H1].
      intros sid _. apply keeps_bucket_handle_entry. }
    apply bind_inv in H2 as [(nf & s2 & [= <- <-] & H2)|(x & [=] & _)].
    destruct (Dict.get (fst item) (_not_found s1)) as [[|y bk]|];
      injection H2 as _ <-; try exact Hm1.
    simpl. rewrite mem_remove, Hm1.
    apply String.eqb_neq in Hne. rewrite String.eqb_sym in Hne.
    now rewrite Hne.
  - revert Hm.
    eapply (preserves_for_each _ (keeps_bucket_refl c)
              (keeps_bucket_trans c)); [|exact H1].
    intros sid _. apply keeps_bucket_handle_entry.
Qed.

Lemma pass_buckets_error l : forall s e s',
  List.NoDup (Dict.keys l) ->
  (forall item, In item l -> In item (_not_found s0)) ->
  well_formed s /\ statics s0 s /\ struck_only_attached s0 s ->
  (forall item, In item l -> Dict.mem (fst item) (_not_found s) = true) ->
  for_each l handle_bucket s = (Raise e, s') ->
  pass_error e.
Proof.
  induction l as [|item l IH]; intros s e s' Hnd Hl J Hm H; [discriminate|].
  simpl in H. apply bind_inv in H as [([] & s1 & H1 & H2)|(x & H1 & [= ->])].
  - inversion Hnd as [|k ks Hnotin Hnd' E]; subst.
    eapply (IH s1); [exact Hnd'
                     | intros it Hit; apply Hl; now right
                     |
                     |
                     | exact H2].
    + eapply (pass_inv_bucket s0 W0); [|exact H1|exact J]. apply Hl. now left.
    + intros it Hit.
      eapply (keeps_bucket_handle_bucket (fst it) item); [|exact H1|].
      * intros E. apply Hnotin. rewrite E.
        unfold Dict.keys. now apply in_map.
      * apply Hm. now right.
  - eapply pass_bucket_error; [|exact J| |exact H1].
    + apply Hl. now left.
    + apply Hm. now left.
Qed.

End PassErrors.

(** X13: what a pass can end with.  From a well-formed state, a
    resolution pass that raises raises the "Cannot add" [TypeError] of
    the search, the "already a subcommand" [ValueError] of the handlers
    or the refusal of the group to take a name it holds.  It never raises
    [KeyError]: the two [del] statements always find the entry and the
    bucket they delete, and every declaration and command it reads is
    there. *)
Theorem pass_raises_only_its_own_errors (s : state) (e : exn) (s' : state) :
  well_formed s ->
  __handle_commands s = (Raise e, s') ->
  pass_error e /\ forall k, e <> KeyError k.
Proof.
  intros W H.
  assert (He : pass_error e).
  { unfold __handle_commands in H.
    apply bind_inv in H as [(nf & s1 & [= <- <-] & H)|(x & [=] & _)].
    eapply (pass_buckets_error s W (_not_found s)); [| | | |exact H].
    - apply W.
    - auto.
    - split; [exact W|]. split; [apply statics_refl|]. split; intros; auto.
    - intros [c b] Hin. simpl. unfold Dict.mem.
      destruct (In_get _ _ _ Hin) as [b' ->]. reflexivity. }
  split; [exact He|]. intros k ->. exact He.
Qed.

Lemma pass_raises_only_its_own_errors_witness :
  fst (__handle_commands strict_two_universes)
  = Raise (TypeError_cannot_add PrefixCommand AppGroup)
  /\ pass_error (TypeError_cannot_add PrefixCommand AppGroup).
Proof.
  split; [reflexivity|].
  apply (pass_raises_only_its_own_errors strict_two_universes
           (TypeError_cannot_add PrefixCommand AppGroup)
           (snd (__handle_commands strict_two_universes))
           strict_two_universes_well_formed).
  reflexivity.
Defined.

(** ** Detaching *)

(** X14: the [REMOVE] handlers detach by name.  For a declaration that
    records the group [g], the loop body of [__cog_remove] returns,
    clears the recorded group, and takes out of [g] whatever child [g]
    holds under the name of the declared command, be it that command or
    another one; the other children of [g] stay. *)
Theorem detach_is_by_name
        (s : state) (sid : nat) (sub : _Subcommand) (C : command)
        (g : nat) (G : command) :
  subcommand_attr s !! sid = Some sub ->
  _group sub = Some g ->
  objs s !! _command sub = Some C ->
  objs s !! g = Some G ->
  exists s' G',
    remove_entry sid s = (Ok tt, s')
    /\ subcommand_attr s' !! sid = Some (set_group None sub)
    /\ objs s' !! g = Some G'
    /\ Dict.get (cmd_name C) (cmd_children G') = None
    /\ (forall k, k <> cmd_name C ->
                  Dict.get k (cmd_children G') = Dict.get k (cmd_children G)).
Proof.
  intros Hs Hg HC HG.
  rewrite (remove_entry_attached s sid sub C g G Hs HC Hg HG).
  unfold detached_state.
  destruct (Dict.get (cmd_name C) (cmd_children G)) as [x|] eqn:Hx.
  - destruct (detach_lookup g (cmd_name C) G (objs s) g G HG)
      as (G' & HG' & _ & _ & Hch).
    rewrite decide_True in Hch by reflexivity.
    eexists _, G'. split; [reflexivity|]. simpl.
    split; [now rewrite lookup_alter_eq, Hs|].
    split; [exact HG'|]. rewrite Hch.
    split; [apply get_remove_eq|]. intros k Hk. now apply get_remove_ne.
  - eexists _, G. split; [reflexivity|]. simpl.
    split; [now rewrite lookup_alter_eq, Hs|].
    split; [exact HG|]. split; [exact Hx|reflexivity].
Qed.

Lemma detach_is_by_name_witness :
  snd (__handle_commands name_taken) = name_taken_refused
  /\ Dict.get "info" (cmd_children
                        (Command "user" PrefixGroup 10 None [("info", 2)] None))
     = Some 2
  /\ exists s' G',
       remove_entry 11 name_taken_refused = (Ok tt, s')
       /\ objs s' !! 0 = Some G'
       /\ Dict.get "info" (cmd_children G') = None.
Proof.
  split; [vm_compute; reflexivity|]. split; [reflexivity|].
  destruct (detach_is_by_name name_taken_refused 11
              (Subcommand "user" 1 (Some 0))
              (Command "info" PrefixCommand 11 None [] None) 0
              (Command "user" PrefixGroup 10 None [("info", 2)] None)
              eq_refl eq_refl eq_refl eq_refl)
    as (s' & G' & H1 & _ & H3 & H4 & _).
  exists s', G'. auto.
Defined.

Lemma keeps_declaration_refl sid s : keeps_declaration sid s s.
Proof. reflexivity. Qed.

Lemma keeps_declaration_trans sid s1 s2 s3 :
  keeps_declaration sid s1 s2 -> keeps_declaration sid s2 s3 ->
  keeps_declaration sid s1 s3.
Proof. unfold keeps_declaration. congruence. Qed.

Lemma keeps_declaration_remove_entry sid sid' :
  sid' <> sid -> preserves (keeps_declaration sid) (remove_entry sid').
Proof.
  intros Hne.
  unfold remove_entry, __handle_prefix_hybrid_command, __handle_app_command,
    group_remove_command.
  pres_with (keeps_declaration_refl sid) (keeps_declaration_trans sid)
    ltac:(match goal with |- keeps_declaration _ _ _ => idtac end;
          unfold keeps_declaration; simpl;
          rewrite ?lookup_alter_ne by assumption; reflexivity).
Qed.

(** X15: an unload touches only the declarations of its own cog.  From a
    well-formed state, a declaration that "all known" does not hold for
    the cog being unloaded is after the unload exactly what it was
    before: a group recorded for another cog's declaration is never
    cleared. *)
Theorem unload_keeps_other_declarations
        (s : state) (name : string) (sid : nat) :
  well_formed s ->
  (forall k, dd_get name k (__commands s) <> Some sid) ->
  exists s',
    __cog_remove name s = (Ok tt, s')
    /\ subcommand_attr s' !! sid = subcommand_attr s !! sid.
Proof.
  intros W Hout.
  destruct (cog_remove_runs name s W)
    as (s0 & s1 & _ & [_ Sa] & [Rk _] & _ & Hloop & _ & _ & _ & _ & _ & Hrun).
  eexists. split; [exact Hrun|]. simpl. rewrite <- Sa.
  revert Hloop.
  apply (preserves_for_each _ (keeps_declaration_refl sid)
           (keeps_declaration_trans sid)).
  intros sid' Hin. apply keeps_declaration_remove_entry. intros ->.
  rewrite Rk in Hin.
  destruct (Dict.get name (__commands s)) as [b|] eqn:Hb; [|destruct Hin].
  simpl in Hin.
  destruct (In_values_get b sid) as [k Hk]; [|assumption|].
  - eapply (wf_known_bucket_keys s W), get_In, Hb.
  - apply (Hout k). unfold dd_get. now rewrite Hb.
Qed.

Lemma unload_keeps_other_declarations_witness :
  exists s',
    __cog_remove "Q" attached_info = (Ok tt, s')
    /\ subcommand_attr s' !! 11 = Some (Subcommand "user" 1 (Some 0)).
Proof.
  destruct (unload_keeps_other_declarations attached_info "Q" 11
              attached_info_well_formed) as (s' & H1 & H2).
  - intros k H. discriminate H.
  - exists s'. split; [exact H1|]. rewrite H2. reflexivity.
Defined.

(** ** The best match *)

Lemma str_lt_irrefl x : Difflib.str_lt x x = false.
Proof.
  induction x as [|c x IH]; simpl; [reflexivity|].
  now rewrite Nat.ltb_irrefl.
Qed.

Lemma str_lt_asym x : forall y,
  Difflib.str_lt x y = true -> Difflib.str_lt y x = false.
Proof.
  induction x as [|c x IH]; intros [|d y]; simpl; try discriminate;
    try reflexivity.
  destruct (Nat.ltb_spec (nat_of_ascii c) (nat_of_ascii d));
    destruct (Nat.ltb_spec (nat_of_ascii d) (nat_of_ascii c));
    try lia; try discriminate; auto.
Qed.

Lemma str_lt_cotrans x : forall y z,
  Difflib.str_lt x z = true ->
  Difflib.str_lt x y = true \/ Difflib.str_lt y z = true.
Proof.
  induction x as [|c x IH]; intros [|d y] [|e z]; simpl; try discriminate;
    auto.
  destruct (Nat.ltb_spec (nat_of_ascii c) (nat_of_ascii e));
    destruct (Nat.ltb_spec (nat_of_ascii e) (nat_of_ascii c));
    destruct (Nat.ltb_spec (nat_of_ascii c) (nat_of_ascii d));
    destruct (Nat.ltb_spec (nat_of_ascii d) (nat_of_ascii c));
    destruct (Nat.ltb_spec (nat_of_ascii d) (nat_of_ascii e));
    destruct (Nat.ltb_spec (nat_of_ascii e) (nat_of_ascii d));
    try lia; try discriminate; auto.
Qed.

Lemma scored_lt_spec p q :
  Difflib.scored_lt p q = true <->
  fst (fst p) * snd (fst q) < fst (fst q) * snd (fst p)
  \/ (fst (fst p) * snd (fst q) = fst (fst q) * snd (fst p)
      /\ Difflib.str_lt (list_ascii_of_string (snd p))
                        (list_ascii_of_string (snd q)) = true).
Proof.
  unfold Difflib.scored_lt, Difflib.ratio_lt, Difflib.ratio_eq.
  rewrite orb_true_iff, andb_true_iff, Nat.ltb_lt, Nat.eqb_eq. reflexivity.
Qed.

Lemma scored_lt_irrefl p : Difflib.scored_lt p p = false.
Proof.
  apply not_true_is_false. rewrite scored_lt_spec.
  intros [H|[_ H]]; [lia|]. now rewrite str_lt_irrefl in H.
Qed.

Lemma scored_lt_asym p q :
  Difflib.scored_lt p q = true -> Difflib.scored_lt q p = false.
Proof.
  intros H. apply not_true_is_false. revert H. rewrite !scored_lt_spec.
  intros [H|[E H]] [H'|[E' H']]; try lia.
  apply str_lt_asym in H. congruence.
Qed.

Lemma scored_lt_cotrans p q r :
  0 < snd (fst p) -> 0 < snd (fst q) -> 0 < snd (fst r) ->
  Difflib.scored_lt p r = true ->
  Difflib.scored_lt p q = true \/ Difflib.scored_lt q r = true.
Proof.
  destruct p as [[a1 b1] x1], q as [[a2 b2] x2], r as [[a3 b3] x3].
  rewrite !scored_lt_spec. simpl. intros P1 P2 P3 H.
  destruct (Nat.lt_trichotomy (a1 * b2) (a2 * b1)) as [L|[E|G]];
    [now left; left| |].
  - destruct H as [H|[E' H]].
    + right. left. nia.
    + destruct (str_lt_cotrans _ (list_ascii_of_string x2) _ H) as [S|S].
      * left. right. auto.
      * right. right. split; [nia|exact S].
  - right. left. destruct H as [H|[E' H]]; nia.
Qed.

Lemma ratio_denominator a b : 0 < snd (Difflib.ratio a b).
Proof.
  unfold Difflib.ratio.
  destruct (Nat.eqb_spec (length a + length b) 0); simpl; lia.
Qed.

Lemma max_from_greatest cur l :
  0 < snd (fst cur) -> (forall p, In p l -> 0 < snd (fst p)) ->
  0 < snd (fst (Difflib.max_from cur l))
  /\ Difflib.scored_lt (Difflib.max_from cur l) cur = false
  /\ forall p, In p l -> Difflib.scored_lt (Difflib.max_from cur l) p = false.
Proof.
  revert cur. induction l as [|p l IH]; intros cur Pc Pl; simpl.
  - split; [exact Pc|]. split; [apply scored_lt_irrefl|]. intros p [].
  - assert (Pp : 0 < snd (fst p)) by (apply Pl; now left).
    set (cur' := if Difflib.scored_lt cur p then p else cur).
    assert (Pc' : 0 < snd (fst cur'))
      by (unfold cur'; now destruct (Difflib.scored_lt cur p)).
    destruct (IH cur' Pc' (fun q Hq => Pl q (or_intror Hq)))
      as (Pm & Hcur' & Hrest).
    set (m := Difflib.max_from cur' l) in *.
    assert (Hge : forall x, 0 < snd (fst x) ->
                            Difflib.scored_lt cur' x = false ->
                            Difflib.scored_lt m x = false).
    { intros x Px Hx. apply not_true_is_false. intros Hm.
      destruct (scored_lt_cotrans m cur' x Pm Pc' Px Hm); congruence. }
    split; [exact Pm|]. split.
    + apply Hge; [exact Pc|]. unfold cur'.
      destruct (Difflib.scored_lt cur p) eqn:E;
        [now apply scored_lt_asym | apply scored_lt_irrefl].
    + intros q [<-|Hq]; [|now apply Hrest].
      apply Hge; [exact Pp|]. unfold cur'.
      destruct (Difflib.scored_lt cur p) eqn:E;
        [apply scored_lt_irrefl | exact E].
Qed.

Lemma max_from_In cur l :
  Difflib.max_from cur l = cur \/ In (Difflib.max_from cur l) l.
Proof.
  revert cur. induction l as [|p l IH]; intros cur; simpl; [now left|].
  destruct (IH (if Difflib.scored_lt cur p then p else cur)) as [E|Hin];
    [|now right; right].
  rewrite E. destruct (Difflib.scored_lt cur p); auto.
Qed.

(** X16: the suggestion is a best match.  [get_close_matches] with
    [n=1] and [cutoff=0.0] answers nothing for no candidates and
    otherwise one candidate; no candidate has a strictly higher
    similarity ratio to the word than the one returned, and among the
    candidates of the same ratio none is a greater string. *)
Theorem suggestion_is_a_best_match (word : string) (ps : list string) :
  (ps = [] /\ Difflib.get_close_matches word ps = [])
  \/ exists x,
       Difflib.get_close_matches word ps = [x] /\ In x ps
       /\ forall y, In y ps ->
            Difflib.ratio_lt (similarity word x) (similarity word y) = false
            /\ (Difflib.ratio_eq (similarity word x) (similarity word y)
                = true ->
                Difflib.str_lt (list_ascii_of_string x)
                               (list_ascii_of_string y) = false).
Proof.
  destruct ps as [|p ps]; [now left|]. right.
  unfold Difflib.get_close_matches. simpl.
  set (score := fun z => (similarity word z, z)).
  change (Difflib.ratio (list_ascii_of_string p) (list_ascii_of_string word),
          p) with (score p).
  change (map (fun x => (Difflib.ratio (list_ascii_of_string x)
                           (list_ascii_of_string word), x)) ps)
    with (map score ps).
  set (m := Difflib.max_from (score p) (map score ps)).
  assert (Hm : exists x, In x (p :: ps) /\ m = score x).
  { destruct (max_from_In (score p) (map score ps)) as [E|Hin].
    - exists p. split; [now left|exact E].
    - apply in_map_iff in Hin as (x & E & Hx). exists x.
      split; [now right|now symmetry]. }
  destruct Hm as (x & Hx & Em).
  exists x. split; [now rewrite Em|]. split; [exact Hx|].
  destruct (max_from_greatest (score p) (map score ps)) as (_ & H0 & Hl).
  { apply ratio_denominator. }
  { intros q Hq. apply in_map_iff in Hq as (z & <- & _).
    apply ratio_denominator. }
  fold m in H0, Hl. rewrite Em in H0, Hl.
  intros y Hy.
  assert (Hxy : Difflib.scored_lt (score x) (score y) = false).
  { destruct Hy as [<-|Hy]; [exact H0|]. apply Hl. now apply in_map. }
  unfold Difflib.scored_lt in Hxy. simpl in Hxy.
  apply orb_false_iff in Hxy as [H1 H2].
  split; [exact H1|]. intros He. now rewrite He in H2.
Qed.
